(** * nestdictutils: recursive operations over nested dictionaries

    A shallow embedding of [src/nestdictutils/utils.py].

    Python dictionaries are mutable objects with identity: two places of a
    program may hold the same dictionary, and a mutation through one is seen
    through the other.  Several functions of the module mutate in place
    ([recursive_add] and friends with [in_place = True], and the internals
    of [recursive_build] and [recursive_merge_dicts]), so the embedding is
    over an explicit object store:

    - a value is either a leaf (an integer) or a reference to a dictionary
      object (the leaves that are lists, which [recursive_replace] treats
      as containers, have a section of their own);
    - a dictionary object is an insertion-ordered association list from
      keys (integers) to values, as Python dictionaries iterate in insertion
      order;
    - the store is a list of dictionary objects, a reference is an index in
      it, and allocation appends.

    Recursion that follows the nesting of the dictionaries takes a fuel
    argument, recursion that follows a key path is structural. *)

From Stdlib Require Import ZArith Lia.
From stdpp Require Import base list gmap sets.

(** ** Values, objects and the store *)

Abbreviation key := Z (only parsing).
Abbreviation addr := nat (only parsing).

Inductive val :=
| VLeaf (z : Z)
| VDict (a : addr).

Abbreviation obj := (list (key * val)) (only parsing).
Abbreviation heap := (list (list (key * val))) (only parsing).

#[global] Instance val_eq_dec : EqDecision val.
Proof. solve_decision. Defined.

(** [isinstance(v, dict)] *)
Definition is_dict (v : val) : bool :=
  match v with VDict _ => true | VLeaf _ => false end.

(** *** Dictionary primitives: [d[k]], [k in d], [d[k] = v], [del d[k]] *)

Fixpoint dict_get (o : obj) (k : key) : option val :=
  match o with
  | [] => None
  | (k', v) :: o' => if Z.eqb k' k then Some v else dict_get o' k
  end.

Definition dict_mem (k : key) (o : obj) : bool :=
  match dict_get o k with Some _ => true | None => false end.

(** Assignment keeps the position of a key that is already there and
    appends a new key at the end. *)
Fixpoint dict_set (o : obj) (k : key) (v : val) : obj :=
  match o with
  | [] => [(k, v)]
  | (k', v') :: o' =>
      if Z.eqb k' k then (k, v) :: o' else (k', v') :: dict_set o' k v
  end.

Fixpoint dict_del (o : obj) (k : key) : obj :=
  match o with
  | [] => []
  | (k', v') :: o' => if Z.eqb k' k then o' else (k', v') :: dict_del o' k
  end.

(** ** Key paths, warnings and exceptions *)

(** A key path is a Python sequence of keys.  The generator
    [recursive_iter_key_paths] yields lists ([key_path + [key]]), the
    docstrings of the other functions pass tuples.  Lists are not hashable,
    tuples are; indexing, slicing and [len] are the same on both. *)
Inductive pypath :=
| PyList (ks : list key)
| PyTuple (ks : list key).

Definition path_keys (p : pypath) : list key :=
  match p with PyList ks => ks | PyTuple ks => ks end.

(** What [logger.warning] receives. *)
Inductive warning :=
| WarnNotAdded (value : val) (init_key_path : pypath)
| WarnSeveralInstances (key_path : pypath) (kept : val).

Inductive type_error :=
| Unhashable
| NotSubscriptable
| NotIterable
| BadReturn (return_val : Z) (v : Z).

Inductive exn :=
| KeyError (key_path_list : list key)
| ValueError (key_path_list : list key) (expected found : val)
| TypeError (why : type_error)
| IndexError
| AttributeError
| CouldNotApply (v : Z)
| FuncRaised (v : Z).

(** ** The monad of store-passing computations

    A computation takes the store and either returns a value with the new
    store, raises an exception (the store keeps the mutations done so far),
    or is stuck: out of fuel, or at a reference outside the store, which no
    Python program can hold. *)

Inductive outcome (A : Type) : Type :=
| Ret (a : A) (h : heap)
| Raise (e : exn) (h : heap)
| Stuck.
Arguments Ret {A} a h.
Arguments Raise {A} e h.
Arguments Stuck {A}.

Definition M (A : Type) : Type := heap -> outcome A.

Definition ret {A} (a : A) : M A := fun h => Ret a h.

Definition bind {A B} (m : M A) (f : A -> M B) : M B :=
  fun h =>
    match m h with
    | Ret a h' => f a h'
    | Raise e h' => Raise e h'
    | Stuck => Stuck
    end.

Definition raise {A} (e : exn) : M A := fun h => Raise e h.
Definition stuck {A} : M A := fun _ => Stuck.

Notation "'let*' x := c1 'in' c2" := (bind c1 (fun x => c2))
  (at level 10, x binder, c1 at level 100, c2 at level 200).

Definition load (a : addr) : M obj :=
  fun h => match h !! a with Some o => Ret o h | None => Stuck end.

Definition store (a : addr) (o : obj) : M unit :=
  fun h => if decide (a < length h) then Ret tt (<[a:=o]> h) else Stuck.

(** A fresh dictionary object. *)
Definition alloc (o : obj) : M addr :=
  fun h => Ret (length h) (h ++ [o]).

(** [for x in l: acc = body(acc, x)] *)
Fixpoint foldM {A B} (body : B -> A -> M B) (l : list A) (acc : B) : M B :=
  match l with
  | [] => ret acc
  | x :: l' => let* acc' := body acc x in foldM body l' acc'
  end.

(** [for x in l: yield from body(x)], run to its end *)
Fixpoint yield_each {A B} (l : list A) (body : A -> M (list B))
    : M (list B) :=
  match l with
  | [] => ret []
  | x :: l' =>
      let* ys := body x in
      let* rest := yield_each l' body in
      ret (ys ++ rest)
  end.

(** [for x in l: body(x)] *)
Fixpoint for_each {A} (l : list A) (body : A -> M unit) : M unit :=
  match l with
  | [] => ret tt
  | x :: l' => let* _ := body x in for_each l' body
  end.

(** ** Trees as values

    The tree a value denotes, used to write inputs and to read results. *)

#[warnings="-register-all"]
Inductive tree :=
| Leaf (z : Z)
| Branch (es : list (key * tree)).

(** Evaluating a dictionary display with distinct keys: the inner
    dictionaries are built first. *)
Fixpoint alloc_tree (t : tree) : M val :=
  match t with
  | Leaf z => ret (VLeaf z)
  | Branch es =>
      let* o := (fix items (es : list (key * tree)) : M obj :=
              match es with
              | [] => ret []
              | (k, t') :: es' =>
                  let* v := alloc_tree t' in
                  let* o := items es' in
                  ret ((k, v) :: o)
              end) es in
      let* a := alloc o in
      ret (VDict a)
  end.

(** Reading a value back as a tree. *)
Fixpoint reify (fuel : nat) (h : heap) (v : val) : option tree :=
  match v with
  | VLeaf z => Some (Leaf z)
  | VDict a =>
      match fuel with
      | 0 => None
      | S f =>
          match h !! a with
          | None => None
          | Some o =>
              es ← mapM (fun kv : key * val =>
                           t ← reify f h kv.2; Some (kv.1, t)) o;
              Some (Branch es)
          end
      end
  end.

(** ** [recursive_get_values_from_key] *)

Fixpoint get_values_step (fuel : nat) (d : val) (k : key)
    (values : list val) : M (list val) :=
  match d with
  | VLeaf _ => raise AttributeError
  | VDict a =>
      match fuel with
      | 0 => stuck
      | S f =>
          let* o := load a in
          let values1 :=
            match dict_get o k with
            | Some v => values ++ [v]
            | None => values
            end in
          foldM (fun values' (kv : key * val) =>
                   if is_dict kv.2
                   then get_values_step f kv.2 k values'
                   else ret values')
                o values1
      end
  end.

Definition recursive_get_values_from_key (fuel : nat) (d : val) (k : key)
    : M (list val) :=
  get_values_step fuel d k [].

(** ** [recursive_iter_key_paths]

    The generator is run to its end; both consumers in the module
    ([recursive_build], [recursive_merge_dicts]) exhaust it in a loop that
    does not touch the dictionaries, so nothing is lost by that.  The key
    paths it yields are Python lists, and the values are the very objects
    of the input dictionary, not copies. *)

Definition iter_item (step : val -> list key -> M (list (list key * val)))
    (key_path : list key) (kv : key * val) : M (list (list key * val)) :=
  let* below :=
    (if is_dict kv.2 then step kv.2 (key_path ++ [kv.1]) else ret []) in
  ret (below ++ [(key_path ++ [kv.1], kv.2)]).

Fixpoint iter_step (fuel : nat) (d : val) (key_path : list key)
    : M (list (list key * val)) :=
  match d with
  | VLeaf _ => raise AttributeError
  | VDict a =>
      match fuel with
      | 0 => stuck
      | S f =>
          let* o := load a in
          yield_each o (iter_item (iter_step f) key_path)
      end
  end.

Definition recursive_iter_key_paths (fuel : nat) (d : val)
    : M (list (pypath * val)) :=
  let* l := iter_step fuel d [] in
  ret (map (fun pv : list key * val => (PyList pv.1, pv.2)) l).

(** ** Equality of values, [==]

    Two dictionaries are equal when they have the same number of items and
    every key of the first is in the second with an equal value; the order
    of insertion does not count.  It only reads the store. *)

(** Every item of [l] is in [ob] with an equal value. *)
Fixpoint all_items (eq : val -> val -> option bool) (ob l : obj)
    : option bool :=
  match l with
  | [] => Some true
  | (k, v) :: l' =>
      match dict_get ob k with
      | None => Some false
      | Some w =>
          match eq v w with
          | Some true => all_items eq ob l'
          | r => r
          end
      end
  end.

Fixpoint py_eq (fuel : nat) (h : heap) (x y : val) : option bool :=
  match x, y with
  | VLeaf a, VLeaf b => Some (Z.eqb a b)
  | VDict a, VDict b =>
      match fuel with
      | 0 => None
      | S f =>
          match h !! a, h !! b with
          | Some oa, Some ob =>
              if negb (Nat.eqb (length oa) (length ob)) then Some false
              else all_items (py_eq f h) ob oa
          | _, _ => None
          end
      end
  | _, _ => Some false
  end.

Definition eq_values (fuel : nat) (x y : val) : M bool :=
  fun h => match py_eq fuel h x y with Some b => Ret b h | None => Stuck end.

(** ** [copy.deepcopy]

    The standard library's copy of a dictionary: a new dictionary is
    created, recorded in the memo under the identity of the original, and
    filled with the copies of the items; an object already in the memo is
    not copied again.  Integers are returned as they are. *)

Abbreviation memo := (list (addr * addr)) (only parsing).

Fixpoint memo_get (m : memo) (a : addr) : option addr :=
  match m with
  | [] => None
  | (a', y) :: m' => if Nat.eqb a' a then Some y else memo_get m' a
  end.

(** One item of the dictionary being copied: [y[key] = deepcopy(value,
    memo)]. *)
Definition copy_item (copy : val -> memo -> M (val * memo)) (y : addr)
    (m1 : memo) (kv : key * val) : M memo :=
  let* '(v', m2) := copy kv.2 m1 in
  let* oy := load y in
  let* _ := store y (dict_set oy kv.1 v') in
  ret m2.

Fixpoint deepcopy_memo (fuel : nat) (x : val) (m : memo) : M (val * memo) :=
  match x with
  | VLeaf z => ret (VLeaf z, m)
  | VDict a =>
      match memo_get m a with
      | Some y => ret (VDict y, m)
      | None =>
          match fuel with
          | 0 => stuck
          | S f =>
              let* o := load a in
              let* y := alloc [] in
              let* m' :=
                foldM (copy_item (deepcopy_memo f) y) o ((a, y) :: m) in
              ret (VDict y, m')
          end
      end
  end.

Definition deepcopy (fuel : nat) (x : val) : M val :=
  let* '(y, _) := deepcopy_memo fuel x [] in ret y.

(** [new_d = copy.deepcopy(d)] when [in_place] is false, [new_d = d]
    otherwise: the opening of the five functions that take [in_place]. *)
Definition new_dict (fuel : nat) (d : val) (in_place : bool) : M val :=
  if in_place then ret d else deepcopy fuel d.

(** What they return: [new_d] when [in_place] is false, [None] otherwise. *)
Definition returned (new_d : val) (in_place : bool) : option val :=
  if in_place then None else Some new_d.

(** ** [recursive_add] *)

Fixpoint add_step (d : val) (key_path : list key) (value : val)
    (init_key_path : pypath) : M (list warning) :=
  match d with
  | VLeaf _ => ret [WarnNotAdded value init_key_path]
  | VDict a =>
      match key_path with
      | [] => raise IndexError
      | [k] =>
          let* o := load a in
          let* _ := store a (dict_set o k value) in
          ret []
      | k :: rest =>
          let* o := load a in
          let* _ :=
            (if dict_mem k o then ret tt
             else let* e := alloc [] in store a (dict_set o k (VDict e))) in
          let* o' := load a in
          match dict_get o' k with
          | Some v => add_step v rest value init_key_path
          | None => stuck
          end
      end
  end.

Definition recursive_add (fuel : nat) (d : val) (key_path : pypath * val)
    (in_place : bool) : M (option val * list warning) :=
  let* new_d := new_dict fuel d in_place in
  let '(path, value) := key_path in
  let* w := add_step new_d (path_keys path) value path in
  ret (returned new_d in_place, w).

(** ** [recursive_replace]

    There is no [isinstance] guard: a leaf met on the way is subscripted
    or searched with [in].  The leaves are integers here, on which both
    raise [TypeError]; what is done at a leaf that is a list is in
    [replace_step_lists] below. *)

Fixpoint replace_step (d : val) (path : list key) (value : val)
    (key_path_list : list key) : M unit :=
  match path with
  | [] => raise IndexError
  | [k] =>
      match d with
      | VLeaf _ => raise (TypeError NotSubscriptable)
      | VDict a =>
          let* o := load a in
          if dict_mem k o then store a (dict_set o k value)
          else raise (KeyError (key_path_list ++ [k]))
      end
  | k :: rest =>
      match d with
      | VLeaf _ => raise (TypeError NotIterable)
      | VDict a =>
          let* o := load a in
          match dict_get o k with
          | Some v => replace_step v rest value (key_path_list ++ [k])
          | None => ret tt
          end
      end
  end.

Definition recursive_replace (fuel : nat) (d : val) (key_path : pypath * val)
    (in_place : bool) : M (option val) :=
  let* new_d := new_dict fuel d in_place in
  let* _ := replace_step new_d (path_keys key_path.1) key_path.2 [] in
  ret (returned new_d in_place).

(** ** [recursive_remove] *)

Fixpoint remove_step (fuel : nat) (d : val) (path : list key) (value : val)
    (key_path_list : list key) : M unit :=
  match d with
  | VLeaf _ => ret tt
  | VDict a =>
      match path with
      | [] => raise IndexError
      | [k] =>
          let* o := load a in
          match dict_get o k with
          | None => raise (KeyError (key_path_list ++ [k]))
          | Some v =>
              let* same := eq_values fuel v value in
              if same then store a (dict_del o k)
              else raise (ValueError (key_path_list ++ [k]) value v)
          end
      | k :: rest =>
          let* o := load a in
          match dict_get o k with
          | Some v => remove_step fuel v rest value (key_path_list ++ [k])
          | None => ret tt
          end
      end
  end.

Definition recursive_remove (fuel : nat) (d : val) (key_path : pypath * val)
    (in_place : bool) : M (option val) :=
  let* new_d := new_dict fuel d in_place in
  let* _ := remove_step fuel new_d (path_keys key_path.1) key_path.2 [] in
  ret (returned new_d in_place).

(** ** [recursive_build]

    [unique_key_paths] is a dictionary keyed by the key paths, so each key
    path is hashed: a list raises [TypeError]. *)

Fixpoint paths_get (unique : list (list key * val)) (p : list key)
    : option val :=
  match unique with
  | [] => None
  | (p', v) :: u' =>
      if bool_decide (p' = p) then Some v else paths_get u' p
  end.

Definition collect_item (acc : list (list key * val) * list warning)
    (kp : pypath * val) : M (list (list key * val) * list warning) :=
  let '(unique, w) := acc in
  match kp.1 with
  | PyList _ => raise (TypeError Unhashable)
  | PyTuple ks =>
      match paths_get unique ks with
      | None => ret (unique ++ [(ks, kp.2)], w)
      | Some kept => ret (unique, w ++ [WarnSeveralInstances kp.1 kept])
      end
  end.

Definition collect_unique (key_paths : list (pypath * val))
    : M (list (list key * val) * list warning) :=
  foldM collect_item key_paths ([], []).

(** The loop [for key_path in ...: recursive_add(d, key_path, True)]. *)
Definition add_all (d : val) (key_paths : list (pypath * val))
    (w : list warning) : M (list warning) :=
  foldM (fun w1 kp =>
           let* '(_, w2) := recursive_add 0 d kp true in
           ret (w1 ++ w2))
        key_paths w.

Definition recursive_build (key_paths : list (pypath * val))
    : M (val * list warning) :=
  let* final_d := alloc [] in
  let* '(unique, w) := collect_unique key_paths in
  let* w' :=
    add_all (VDict final_d)
            (map (fun pv : list key * val => (PyTuple pv.1, pv.2)) unique) w in
  ret (VDict final_d, w').

(** ** [recursive_merge_dicts]

    [merged_d] is a [defaultdict], a dictionary for all that is done with
    it here (its keys are created before they are read); [dict(merged_d)]
    is a new dictionary with the same items. *)

Definition path_in (p : pypath) (l : list pypath) : bool :=
  existsb (fun q => bool_decide (path_keys q = path_keys p)) l.

Fixpoint merge_unique (key_paths_and_values : list (pypath * val))
    (unique_key_paths : list pypath)
    (new_key_paths_and_values : list (pypath * val)) : list (pypath * val) :=
  match key_paths_and_values with
  | [] => new_key_paths_and_values
  | (key_path, v) :: rest =>
      if path_in key_path unique_key_paths
      then merge_unique rest unique_key_paths new_key_paths_and_values
      else merge_unique rest (unique_key_paths ++ [key_path])
                        (new_key_paths_and_values ++ [(key_path, v)])
  end.

Definition recursive_merge_dicts (fuel : nat) (dicts : list val)
    : M (val * list warning) :=
  let* merged_d := alloc [] in
  let* key_paths_and_values :=
    yield_each dicts (recursive_iter_key_paths fuel) in
  let new_key_paths_and_values := merge_unique key_paths_and_values [] [] in
  let* w := add_all (VDict merged_d) new_key_paths_and_values [] in
  let* o := load merged_d in
  let* r := alloc o in
  ret (VDict r, w).

(** ** [recursive_map_dict] and [recursive_filter_dict]

    For the filter, the caller's function is a function of the leaf that
    returns [True], [False] or something else, or raises. *)

(** [k in sel_keys], where [sel_keys = keys if keys else d.keys()]. *)
Definition in_sel_keys (keys : option (list key)) (o : obj) (k : key)
    : bool :=
  match keys with
  | Some (k0 :: ks) => existsb (Z.eqb k) (k0 :: ks)
  | _ => dict_mem k o
  end.

(** The function given to [recursive_map_dict] is any Python callable: it
    returns or raises, and it may keep a state of its own, so that two
    calls on the same leaf need not agree.  [func n v] is what its call
    number [n] (counted from 0 within one call of [recursive_map_dict])
    gives on the leaf [v]: [Some] result, or [None] when it raises.  A
    function whose outcome depends on the leaf only is [fun _ => f].

    The source calls the function twice on a selected leaf: once inside
    the [try], where the result is dropped, and once more in
    [d[k] = func(v)], outside of it.  An exception of the second call is
    not caught: it is [FuncRaised].  The number of calls made so far is
    threaded through the traversal. *)
Definition map_item (step : val -> nat -> M nat) (a : addr)
    (func : nat -> Z -> option Z) (keys : option (list key))
    (permissive : bool) (n : nat) (kv : key * val) : M nat :=
  match kv.2 with
  | VDict _ => step kv.2 n
  | VLeaf v =>
      let* o := load a in
      if in_sel_keys keys o kv.1 then
        match func n v with
        | None => if permissive then ret (S n) else raise (CouldNotApply v)
        | Some _ =>
            match func (S n) v with
            | None => raise (FuncRaised v)
            | Some new_val =>
                let* _ := store a (dict_set o kv.1 (VLeaf new_val)) in
                ret (S (S n))
            end
        end
      else ret n
  end.

Fixpoint map_step (fuel : nat) (d : val) (func : nat -> Z -> option Z)
    (keys : option (list key)) (permissive : bool) (n : nat) : M nat :=
  match d with
  | VLeaf _ => ret n
  | VDict a =>
      match fuel with
      | 0 => stuck
      | S f =>
          let* items := load a in
          foldM (map_item (fun d' n' => map_step f d' func keys permissive n')
                          a func keys permissive)
                items n
      end
  end.

Definition recursive_map_dict (fuel : nat) (d : val)
    (func : nat -> Z -> option Z) (keys : option (list key))
    (in_place permissive : bool) : M (option val) :=
  let* new_d := new_dict fuel d in_place in
  let* _ := map_step fuel new_d func keys permissive 0 in
  ret (returned new_d in_place).

Inductive return_val :=
| RetTrue
| RetFalse
| RetOther (r : Z)
| Raises.

Fixpoint filter_step (fuel : nat) (d : val) (func : Z -> return_val)
    (keys : option (list key)) (permissive : bool) : M unit :=
  match d with
  | VLeaf _ => ret tt
  | VDict a =>
      match fuel with
      | 0 => stuck
      | S f =>
          let* items := load a in
          for_each items (fun kv : key * val =>
            match kv.2 with
            | VDict _ => filter_step f kv.2 func keys permissive
            | VLeaf v =>
                let* o := load a in
                if in_sel_keys keys o kv.1 then
                  match func v with
                  | Raises =>
                      if permissive then ret tt else raise (CouldNotApply v)
                  | RetFalse => store a (dict_del o kv.1)
                  | RetTrue => ret tt
                  | RetOther r => raise (TypeError (BadReturn r v))
                  end
                else ret tt
            end)
      end
  end.

Definition recursive_filter_dict (fuel : nat) (d : val)
    (func : Z -> return_val) (keys : option (list key))
    (in_place permissive : bool) : M (option val) :=
  let* new_d := new_dict fuel d in_place in
  let* _ := filter_step fuel new_d func keys permissive in
  ret (returned new_d in_place).

(** ** What the two traversals have in common

    [recursive_filter_dict], and [recursive_map_dict] when the outcome of
    the function depends on the leaf only, visit the dictionary in the same
    way and differ in what is done with a selected leaf. *)

Inductive leaf_action :=
| Keep
| SetTo (z : Z)
| Delete
| Fail (e : exn).


Definition filter_action (func : Z -> return_val) (permissive : bool) (v : Z)
    : leaf_action :=
  match func v with
  | Raises => if permissive then Keep else Fail (CouldNotApply v)
  | RetFalse => Delete
  | RetTrue => Keep
  | RetOther r => Fail (TypeError (BadReturn r v))
  end.

Definition visit_leaf (a : addr) (act : Z -> leaf_action)
    (keys : option (list key)) (k : key) (v : Z) : M unit :=
  let* o := load a in
  if in_sel_keys keys o k then
    match act v with
    | Keep => ret tt
    | SetTo z => store a (dict_set o k (VLeaf z))
    | Delete => store a (dict_del o k)
    | Fail e => raise e
    end
  else ret tt.

Definition visit_item (step : val -> M unit) (a : addr)
    (act : Z -> leaf_action) (keys : option (list key)) (kv : key * val)
    : M unit :=
  match kv.2 with
  | VDict _ => step kv.2
  | VLeaf v => visit_leaf a act keys kv.1 v
  end.

Fixpoint visit_step (fuel : nat) (d : val) (act : Z -> leaf_action)
    (keys : option (list key)) : M unit :=
  match d with
  | VLeaf _ => ret tt
  | VDict a =>
      match fuel with
      | 0 => stuck
      | S f =>
          let* items := load a in
          for_each items
            (visit_item (fun d' => visit_step f d' act keys) a act keys)
      end
  end.

(** The same traversal on trees: the tree that is left, or the exception
    of the first selected leaf that fails.  A key is selected when it is
    among [keys], or when no keys are given; a dictionary is visited and
    stays; a selected leaf is kept, replaced or deleted with its key. *)

Definition sel_keys (keys : option (list key)) (k : key) : bool :=
  match keys with
  | Some (k0 :: ks) => existsb (Z.eqb k) (k0 :: ks)
  | _ => true
  end.

Fixpoint visit_tree (act : Z -> leaf_action) (keys : option (list key))
    (t : tree) : tree + exn :=
  match t with
  | Leaf z => inl (Leaf z)
  | Branch es =>
      match
        (fix items (es : list (key * tree)) : list (key * tree) + exn :=
           match es with
           | [] => inl []
           | (k, t') :: rest =>
               match t' with
               | Branch _ =>
                   match visit_tree act keys t' with
                   | inl t'' =>
                       match items rest with
                       | inl r => inl ((k, t'') :: r)
                       | inr e => inr e
                       end
                   | inr e => inr e
                   end
               | Leaf z =>
                   match (if sel_keys keys k then act z else Keep) with
                   | Keep =>
                       match items rest with
                       | inl r => inl ((k, Leaf z) :: r)
                       | inr e => inr e
                       end
                   | SetTo z' =>
                       match items rest with
                       | inl r => inl ((k, Leaf z') :: r)
                       | inr e => inr e
                       end
                   | Delete => items rest
                   | Fail e => inr e
                   end
               end
           end) es
      with
      | inl es' => inl (Branch es')
      | inr e => inr e
      end
  end.

Definition visit_items (act : Z -> leaf_action) (keys : option (list key))
    : list (key * tree) -> list (key * tree) + exn :=
  fix items (es : list (key * tree)) : list (key * tree) + exn :=
    match es with
    | [] => inl []
    | (k, t') :: rest =>
        match t' with
        | Branch _ =>
            match visit_tree act keys t' with
            | inl t'' =>
                match items rest with
                | inl r => inl ((k, t'') :: r)
                | inr e => inr e
                end
            | inr e => inr e
            end
        | Leaf z =>
            match (if sel_keys keys k then act z else Keep) with
            | Keep =>
                match items rest with
                | inl r => inl ((k, Leaf z) :: r)
                | inr e => inr e
                end
            | SetTo z' =>
                match items rest with
                | inl r => inl ((k, Leaf z') :: r)
                | inr e => inr e
                end
            | Delete => items rest
            | Fail e => inr e
            end
        end
    end.

(** What [recursive_filter_dict] leaves of a tree, and of the items of a
    dictionary. *)
Definition filter_tree (func : Z -> return_val) (keys : option (list key))
    (permissive : bool) (t : tree) : tree + exn :=
  visit_tree (filter_action func permissive) keys t.

Definition filter_items (func : Z -> return_val) (keys : option (list key))
    (permissive : bool) (es : list (key * tree))
    : list (key * tree) + exn :=
  visit_items (filter_action func permissive) keys es.

(** The example of the filter: [{1: 2, 3: {4: 5}, 7: 2}], filtered by
    [lambda v: v > 4]. *)
Definition T_filter : tree :=
  Branch [(1, Leaf 2); (3, Branch [(4, Leaf 5)]); (7, Leaf 2)]%Z.

Definition h_filter : heap :=
  [[(4, VLeaf 5)]; [(1, VLeaf 2); (3, VDict 0); (7, VLeaf 2)]]%Z.

Definition d_filter : val := VDict 1.

Definition fp_filter : gset addr := {[0; 1]}.

Definition greater_than_4 (v : Z) : return_val :=
  if (4 <? v)%Z then RetTrue else RetFalse.

(** ** Building a dictionary from the key paths of another one *)

(** [recursive_build(recursive_iter_key_paths(d))] *)
Definition build_of_iter (fuel : nat) (d : val) : M (val * list warning) :=
  let* l := recursive_iter_key_paths fuel d in
  recursive_build l.

(** ** The running example of the docstrings *)

Definition T_example : tree :=
  Branch [(1, Leaf 2);
          (3, Branch [(4, Leaf 5)]);
          (6, Branch [(3, Branch [(7, Leaf 8)]); (7, Leaf 10)]);
          (7, Leaf 11)]%Z.

Definition run {A} (m : M A) : outcome A := m [].

(** [d[k1][k2]...]: the value a key path leads to, when every key but the
    last is found in a dictionary. *)
Fixpoint walk (h : heap) (d : val) (path : list key) : option val :=
  match path with
  | [] => Some d
  | k :: rest =>
      match d with
      | VLeaf _ => None
      | VDict a =>
          match h !! a with
          | None => None
          | Some o =>
              match dict_get o k with
              | None => None
              | Some v => walk h v rest
              end
          end
      end
  end.

(** ** Ownership: a value denotes a tree

    [own h v t fp]: in the store [h] the value [v] denotes the tree [t], and
    the dictionary objects it is made of are the addresses [fp], each used
    once (no object is shared between two places of the tree) and each with
    distinct keys. *)

Inductive own (h : heap) : val -> tree -> gset addr -> Prop :=
| own_leaf z : own h (VLeaf z) (Leaf z) ∅
| own_dict a o es fp :
    h !! a = Some o ->
    NoDup o.*1 ->
    own_items h o es fp ->
    a ∉ fp ->
    own h (VDict a) (Branch es) ({[a]} ∪ fp)
with own_items (h : heap) : obj -> list (key * tree) -> gset addr -> Prop :=
| own_nil : own_items h [] [] ∅
| own_cons k v t o es fp1 fp2 :
    own h v t fp1 ->
    own_items h o es fp2 ->
    fp1 ## fp2 ->
    own_items h ((k, v) :: o) ((k, t) :: es) (fp1 ∪ fp2).

Scheme own_mut := Minimality for own Sort Prop
  with own_items_mut := Minimality for own_items Sort Prop.
Combined Scheme own_mutind from own_mut, own_items_mut.

(** The nesting depth of a tree: the fuel a traversal needs. *)
Fixpoint depth (t : tree) : nat :=
  match t with
  | Leaf _ => 0
  | Branch es =>
      S ((fix items (es : list (key * tree)) : nat :=
            match es with
            | [] => 0
            | (_, t') :: es' => Nat.max (depth t') (items es')
            end) es)
  end.

Definition depth_items (es : list (key * tree)) : nat :=
  (fix items (es : list (key * tree)) : nat :=
     match es with
     | [] => 0
     | (_, t') :: es' => Nat.max (depth t') (items es')
     end) es.

(** The keys of each dictionary of the tree are distinct. *)
Fixpoint distinct_keys (t : tree) : Prop :=
  match t with
  | Leaf _ => True
  | Branch es =>
      NoDup es.*1 /\
      (fix items (es : list (key * tree)) : Prop :=
         match es with
         | [] => True
         | (_, t') :: es' => distinct_keys t' /\ items es'
         end) es
  end.

(** The items of a dictionary display, built one after the other. *)
Definition alloc_items : list (key * tree) -> M (list (key * val)) :=
  fix items (es : list (key * tree)) : M (list (key * val)) :=
    match es with
    | [] => ret []
    | (k, t') :: es' =>
        let* v := alloc_tree t' in
        let* o := items es' in
        ret ((k, v) :: o)
    end.

(** [t[k1][k2]...] on trees. *)
Fixpoint tree_get_key (es : list (key * tree)) (k : key) : option tree :=
  match es with
  | [] => None
  | (k', t) :: es' => if Z.eqb k' k then Some t else tree_get_key es' k
  end.

Fixpoint tree_walk (t : tree) (path : list key) : option tree :=
  match path with
  | [] => Some t
  | k :: rest =>
      match t with
      | Leaf _ => None
      | Branch es =>
          match tree_get_key es k with
          | None => None
          | Some t' => tree_walk t' rest
          end
      end
  end.

(** ** The examples in the store, and what the statements are made of *)

(** No object of [fp] has been copied yet. *)
Definition memo_free (m : memo) (fp : gset addr) : Prop :=
  forall a, a ∈ fp -> memo_get m a = None.

(** The store after the running example has been built, the example in
    it, and the objects it is made of. *)
Definition h_example : heap :=
  [[(4, VLeaf 5)];
   [(7, VLeaf 8)];
   [(3, VDict 1); (7, VLeaf 10)];
   [(1, VLeaf 2); (3, VDict 0); (6, VDict 2); (7, VLeaf 11)]]%Z.

Definition d_example : val := VDict 3.

Definition fp_example : gset addr := {[0; 1; 2; 3]}.

(** [recursive_get_values_from_key(T, 7)] on the running example. *)
Definition values_for_7 (fuel : nat) : outcome (list val) :=
  recursive_get_values_from_key fuel d_example 7%Z h_example.

(** [{1: 2, 3: {4: 5}}] and [{3: {17: 18}}]. *)
Definition d1_merge : tree := Branch [(1, Leaf 2); (3, Branch [(4, Leaf 5)])]%Z.
Definition d2_merge : tree := Branch [(3, Branch [(17, Leaf 18)])]%Z.

(** The two input dictionaries, the merged dictionary and the store after
    [recursive_merge_dicts([d1, d2])]. *)
Definition merge_example : outcome (val * val * val) :=
  run (let* d1 := alloc_tree d1_merge in
       let* d2 := alloc_tree d2_merge in
       let* '(merged, _) := recursive_merge_dicts 2 [d1; d2] in
       ret (d1, d2, merged)).

(** The dictionaries from [r] down to [b] along a key path, each created
    after the one that holds it. *)
Fixpoint chain (h : heap) (r : addr) (pfx : list key) (b : addr) : Prop :=
  match pfx with
  | [] => r = b
  | k :: pfx' =>
      exists o r',
        h !! r = Some o /\ dict_get o k = Some (VDict r') /\ r < r' /\
        chain h r' pfx' b
  end.

(** One turn of the loop that adds key paths, with the warnings so far. *)
Definition add_from (d : val) (mk : list key -> pypath) (w1 : list warning)
    (pv : list key * val) : M (list warning) :=
  let* w2 := add_step d pv.1 pv.2 (mk pv.1) in ret (w1 ++ w2).

(** The store [h] still holds the objects [fp] of [h0]. *)
Definition agree_on (fp : gset addr) (h0 h : heap) : Prop :=
  forall x, x ∈ fp -> h !! x = h0 !! x.

(** Adding the key paths [items], one after the other, below the
    dictionary [b] reached from [r] along [pfx], appends the items [oa] to
    [b] and changes nothing else that was there. *)
Definition adds_into (h0 : heap) (fp : gset addr)
    (items : list (list key * val)) (pfx : list key) (oa : obj) : Prop :=
  forall mk h r b ob w,
    agree_on fp h0 h -> b ∉ fp -> chain h r pfx b -> h !! b = Some ob ->
    NoDup (ob.*1 ++ oa.*1) ->
    exists h',
      foldM (add_from (VDict r) mk) items w h = Ret w h' /\
      h' !! b = Some (ob ++ oa) /\
      (forall x, x < length h -> x ≠ b -> h' !! x = h !! x) /\
      length h <= length h'.

(** The outcome of a traversal of [v] that started in [h], against what
    the traversal of the tree gives. *)
Definition visited (v : val) (fp : gset addr) (h : heap) (out : outcome unit)
    (res : tree + exn) : Prop :=
  match res with
  | inl t' =>
      exists h', out = Ret tt h' /\ own h' v t' fp /\
                 (forall x, x ∉ fp -> h' !! x = h !! x) /\
                 length h' = length h
  | inr e =>
      exists h', out = Raise e h' /\
                 (forall x, x ∉ fp -> h' !! x = h !! x) /\
                 length h' = length h
  end.

(** The computation neither is stuck nor writes to an object that was in
    the store and is not in [fp]. *)
Definition touches_only {A} (fp : gset addr) (h : heap) (out : outcome A)
    : Prop :=
  match out with
  | Ret _ h' | Raise _ h' =>
      (forall x, x < length h -> x ∉ fp -> h' !! x = h !! x) /\
      length h <= length h'
  | Stuck => False
  end.

(** A call that is not in place, against the call in place: there is a
    full copy of the input [d], a value [new_d] that denotes the same tree
    [t] and is made only of objects that were not in the store; the call
    does what the call in place does on that copy, returns the copy where
    the call in place returns, raises what it raises, and is not stuck;
    and the objects that were in the store are as they were, so that [d]
    still denotes [t]. *)
Definition on_fresh_copy {A B} (h : heap) (d : val) (t : tree)
    (fp : gset addr) (in_place : val -> M A) (result : val -> A -> B)
    (out : outcome B) : Prop :=
  exists h1 new_d fp1,
    h `prefix_of` h1 /\
    own h1 new_d t fp1 /\
    (forall a, a ∈ fp1 -> length h <= a) /\
    match in_place new_d h1 with
    | Ret r h' =>
        out = Ret (result new_d r) h' /\ h `prefix_of` h' /\ own h' d t fp
    | Raise e h' =>
        out = Raise e h' /\ h `prefix_of` h' /\ own h' d t fp
    | Stuck => False
    end.

(** ** [recursive_pop]

    The dictionary comprehension makes a new dictionary and fills it item
    by item, leaving out the keys to remove; what is not a dictionary is
    returned as it is.  The parameter [in_place] is never read. *)

Definition key_in (k : key) (keys : list key) : bool :=
  existsb (Z.eqb k) keys.

Definition pop_item (pop : val -> M val) (keys : list key) (y : addr)
    (kv : key * val) : M unit :=
  if key_in kv.1 keys then ret tt
  else
    let* v' := pop kv.2 in
    let* oy := load y in
    store y (dict_set oy kv.1 v').

Fixpoint recursive_pop (fuel : nat) (d : val) (keys : list key)
    (in_place : bool) : M val :=
  match d with
  | VLeaf z => ret (VLeaf z)
  | VDict a =>
      match fuel with
      | 0 => stuck
      | S f =>
          let* o := load a in
          let* y := alloc [] in
          let* _ :=
            for_each o
              (pop_item (fun v => recursive_pop f v keys false) keys y) in
          ret (VDict y)
      end
  end.

(** The same on trees. *)
Fixpoint pop_tree (keys : list key) (t : tree) : tree :=
  match t with
  | Leaf z => Leaf z
  | Branch es =>
      Branch
        ((fix items (es : list (key * tree)) : list (key * tree) :=
            match es with
            | [] => []
            | (k, t') :: rest =>
                if key_in k keys then items rest
                else (k, pop_tree keys t') :: items rest
            end) es)
  end.

Definition pop_items (keys : list key)
    : list (key * tree) -> list (key * tree) :=
  fix items (es : list (key * tree)) : list (key * tree) :=
    match es with
    | [] => []
    | (k, t') :: rest =>
        if key_in k keys then items rest
        else (k, pop_tree keys t') :: items rest
    end.

(** ** [recursive_get_values_from_keys]

    The dictionary comprehension [{key: ... for key in keys}]: the result
    maps keys to lists of values, a key given twice is computed twice and
    keeps its first place. *)

Fixpoint values_get (r : list (key * list val)) (k : key)
    : option (list val) :=
  match r with
  | [] => None
  | (k', vs) :: r' => if Z.eqb k' k then Some vs else values_get r' k
  end.

Fixpoint values_set (r : list (key * list val)) (k : key) (vs : list val)
    : list (key * list val) :=
  match r with
  | [] => [(k, vs)]
  | (k', vs') :: r' =>
      if Z.eqb k' k then (k', vs) :: r' else (k', vs') :: values_set r' k vs
  end.

Definition recursive_get_values_from_keys (fuel : nat) (d : val)
    (keys : list key) : M (list (key * list val)) :=
  foldM (fun r k =>
           let* vs := recursive_get_values_from_key fuel d k in
           ret (values_set r k vs))
        keys [].

(** ** [recursive_get_key_paths]

    The value looked for is, as documented, not a dictionary: a leaf.  It
    is compared with the keys, and with the values, of which only a leaf
    can be equal to it.  The key paths found are gathered in one list,
    which the nested calls extend. *)

Definition entry_in (e : list key * Z) (key_paths : list (list key * Z))
    : bool :=
  existsb (fun e' => bool_decide (e' = e)) key_paths.

Definition key_paths_item
    (step : val -> list key -> list (list key * Z) -> M (list (list key * Z)))
    (key_path : list key) (value : Z) (key_paths : list (list key * Z))
    (kv : key * val) : M (list (list key * Z)) :=
  let key_paths1 :=
    if Z.eqb kv.1 value then key_paths ++ [(key_path, kv.1)]
    else key_paths in
  let* key_paths2 :=
    (if is_dict kv.2 then step kv.2 (key_path ++ [kv.1]) key_paths1
     else ret key_paths1) in
  match kv.2 with
  | VLeaf z =>
      if Z.eqb z value
      then if entry_in (key_path ++ [kv.1], z) key_paths2
           then ret key_paths2
           else ret (key_paths2 ++ [(key_path ++ [kv.1], z)])
      else ret key_paths2
  | VDict _ => ret key_paths2
  end.

Fixpoint key_paths_step (fuel : nat) (d : val) (key_path : list key)
    (value : Z) (key_paths : list (list key * Z))
    : M (list (list key * Z)) :=
  match d with
  | VLeaf _ => raise AttributeError
  | VDict a =>
      match fuel with
      | 0 => stuck
      | S f =>
          let* o := load a in
          foldM (key_paths_item
                   (fun v kp kps => key_paths_step f v kp value kps)
                   key_path value)
                o key_paths
      end
  end.

Definition recursive_get_key_paths (fuel : nat) (d : val) (value : Z)
    : M (list (list key * Z)) :=
  key_paths_step fuel d [] value [].

(** The key path [p] from [v] leads to a dictionary that has [value] among
    its keys, or to the leaf [value]. *)
Definition leads_to_value (h : heap) (v : val) (value : Z) (p : list key)
    : Prop :=
  (exists y, walk h v (p ++ [value]) = Some y) \/
  walk h v p = Some (VLeaf value).

(** ** What [recursive_map_dict] makes of a tree

    When the function returns on every leaf, or when failures are
    permitted, every selected leaf is replaced by its image (a leaf on
    which the function fails is kept) and nothing else changes. *)




(** ** What [recursive_add] makes of a tree

    [tree_set] is the assignment [d[k] = t] on the items of a tree;
    [tree_add] follows the key path, creates the dictionaries that are
    missing and sets the value under the last key; a leaf on the way
    stops it. *)

Fixpoint tree_set (es : list (key * tree)) (k : key) (t : tree)
    : list (key * tree) :=
  match es with
  | [] => [(k, t)]
  | (k', t') :: es' =>
      if Z.eqb k' k then (k, t) :: es' else (k', t') :: tree_set es' k t
  end.

Fixpoint tree_add (path : list key) (value : tree) (t : tree) : tree :=
  match path with
  | [] => t
  | k :: rest =>
      match t with
      | Leaf z => Leaf z
      | Branch es =>
          match rest with
          | [] => Branch (tree_set es k value)
          | _ :: _ =>
              Branch (tree_set es k
                        (tree_add rest value
                           (match tree_get_key es k with
                            | Some t1 => t1
                            | None => Branch []
                            end)))
          end
      end
  end.

(** The value given with the first instance of a key path. *)
Fixpoint first_value (key_paths : list (list key * Z)) (p : list key)
    : option Z :=
  match key_paths with
  | [] => None
  | (p', z) :: rest =>
      if bool_decide (p' = p) then Some z else first_value rest p
  end.

(** Key paths with leaves, as [recursive_build] takes them: tuples. *)
Definition leaf_paths (key_paths : list (list key * Z))
    : list (pypath * val) :=
  map (fun pv : list key * Z => (PyTuple pv.1, VLeaf pv.2)) key_paths.

(** The instances of a key path after its first one, in the order in which
    they are given: [seen] are the key paths met so far. *)
Fixpoint later_instances (seen : list (list key)) (paths : list (list key))
    : list (list key) :=
  match paths with
  | [] => []
  | p :: rest =>
      if bool_decide (p ∈ seen) then p :: later_instances seen rest
      else later_instances (seen ++ [p]) rest
  end.


(** The computation returns or raises, writes to objects of [fp] only and
    creates none. *)
Definition writes_within {A} (fp : gset addr) (h : heap) (out : outcome A)
    : Prop :=
  match out with
  | Ret _ h' | Raise _ h' =>
      (forall x, x ∉ fp -> h' !! x = h !! x) /\ length h' = length h
  | Stuck => False
  end.

(** ** Leaves that are lists

    A leaf is any value that is not a dictionary, and [recursive_replace]
    has no [isinstance] guard: what it does at a leaf depends on what the
    leaf is.  With an integer leaf, subscripting and [in] raise
    [TypeError], as [replace_step] has it.  A list is subscripted by an
    integer and searched by [in], so the traversal goes on inside it.
    Here are [recursive_replace] and [recursive_remove], called with
    [in_place = True], over values whose leaves are integers or lists:
    a list is an object of the store, as a dictionary is. *)


















(** * Properties *)

Lemma depth_Branch es : depth (Branch es) = S (depth_items es).
Proof. reflexivity. Qed.

Lemma depth_items_cons k t es :
  depth_items ((k, t) :: es) = Nat.max (depth t) (depth_items es).
Proof. reflexivity. Qed.

(** ** Dictionary primitives *)

Lemma dict_get_None o k : dict_get o k = None <-> k ∉ o.*1.
Proof.
  induction o as [|[k' v] o IH]; simpl.
  - split; [intros _; apply not_elem_of_nil | done].
  - destruct (Z.eqb_spec k' k) as [->|Hne].
    + split; [done | intros H; exfalso; apply H; left].
    + rewrite IH, not_elem_of_cons. intuition congruence.
Qed.

Lemma dict_get_Some_elem o k v : dict_get o k = Some v -> (k, v) ∈ o.
Proof.
  induction o as [|[k' v'] o IH]; simpl; [done|].
  destruct (Z.eqb_spec k' k) as [->|Hne].
  - intros [= ->]. left.
  - intros H. right. auto.
Qed.

Lemma dict_mem_false o k : dict_mem k o = false <-> k ∉ o.*1.
Proof.
  unfold dict_mem. rewrite <- dict_get_None.
  destruct (dict_get o k); split; congruence.
Qed.

Lemma dict_set_new o k v : k ∉ o.*1 -> dict_set o k v = o ++ [(k, v)].
Proof.
  induction o as [|[k' v'] o IH]; simpl; [done|].
  rewrite not_elem_of_cons. intros [Hne Hni].
  destruct (Z.eqb_spec k' k) as [->|_]; [done|]. by rewrite IH.
Qed.

Lemma dict_get_app o1 o2 k :
  dict_get (o1 ++ o2) k =
  match dict_get o1 k with Some v => Some v | None => dict_get o2 k end.
Proof.
  induction o1 as [|[k' v'] o1 IH]; simpl; [done|].
  by destruct (Z.eqb k' k).
Qed.

Lemma dict_get_last o k v : dict_get (o ++ [(k, v)]) k =
  match dict_get o k with Some w => Some w | None => Some v end.
Proof. rewrite dict_get_app. simpl. by rewrite Z.eqb_refl. Qed.

Lemma dict_set_last o k v w :
  k ∉ o.*1 -> dict_set (o ++ [(k, v)]) k w = o ++ [(k, w)].
Proof.
  induction o as [|[k' v'] o IH]; simpl.
  - by rewrite Z.eqb_refl.
  - rewrite not_elem_of_cons. intros [Hne Hni].
    destruct (Z.eqb_spec k' k) as [->|_]; [done|]. by rewrite IH.
Qed.

(** ** The store *)

Lemma prefix_lookup_Some' (h h' : heap) a o :
  h `prefix_of` h' -> h !! a = Some o -> h' !! a = Some o.
Proof. intros [l ->] H. by apply lookup_app_l_Some. Qed.

Lemma prefix_of_lookup (h h' : heap) :
  (forall a, a < length h -> h' !! a = h !! a) -> h `prefix_of` h'.
Proof.
  intros H. exists (drop (length h) h').
  rewrite <- (take_drop (length h) h') at 1. f_equal.
  apply list_eq. intros i.
  destruct (decide (i < length h)) as [Hlt|Hge].
  - rewrite lookup_take_lt by done. by apply H.
  - rewrite lookup_take_ge by lia. symmetry. apply lookup_ge_None. lia.
Qed.

Lemma prefix_lookup_lt (h h' : heap) a :
  h `prefix_of` h' -> a < length h -> h' !! a = h !! a.
Proof. intros [l ->] H. by apply lookup_app_l. Qed.

Lemma prefix_snoc (h : heap) o : h `prefix_of` h ++ [o].
Proof. by exists [o]. Qed.

Lemma own_frame h :
  (forall v t fp, own h v t fp ->
     forall h', (forall a, a ∈ fp -> h' !! a = h !! a) -> own h' v t fp) /\
  (forall o es fp, own_items h o es fp ->
     forall h', (forall a, a ∈ fp -> h' !! a = h !! a) -> own_items h' o es fp).
Proof.
  apply own_mutind.
  - intros z h' _. constructor.
  - intros a o es fp Ha Hnd _ IH Hni h' Hh'.
    apply own_dict with (o := o); [|done| |done].
    + rewrite Hh'; [done | set_solver].
    + apply IH. intros b Hb. apply Hh'. set_solver.
  - intros h' _. constructor.
  - intros k v t o es fp1 fp2 _ IH1 _ IH2 Hdisj h' Hh'.
    constructor; [| |done].
    + apply IH1. intros b Hb. apply Hh'. set_solver.
    + apply IH2. intros b Hb. apply Hh'. set_solver.
Qed.

Lemma own_bound h :
  (forall v t fp, own h v t fp -> forall a, a ∈ fp -> a < length h) /\
  (forall o es fp, own_items h o es fp -> forall a, a ∈ fp -> a < length h).
Proof.
  apply own_mutind.
  - set_solver.
  - intros a o es fp Ha _ _ IH _ b Hb.
    apply elem_of_union in Hb as [Hb|Hb]; [|by apply IH].
    apply elem_of_singleton in Hb as ->. by eapply lookup_lt_Some.
  - set_solver.
  - intros k v t o es fp1 fp2 _ IH1 _ IH2 _ a Ha.
    apply elem_of_union in Ha as [Ha|Ha]; auto.
Qed.

Lemma own_prefix h h' v t fp :
  own h v t fp -> h `prefix_of` h' -> own h' v t fp.
Proof.
  intros Hown Hpre. eapply (proj1 (own_frame h)); [done|].
  intros a Ha. pose proof (proj1 (own_bound h) _ _ _ Hown a Ha) as Hlt.
  destruct (lookup_lt_is_Some_2 h a Hlt) as [o Ho].
  transitivity (Some o); [by eapply prefix_lookup_Some' | done].
Qed.

Lemma own_items_keys h o es fp : own_items h o es fp -> es.*1 = o.*1.
Proof. induction 1; [done|]. rewrite !fmap_cons. simpl. by f_equal. Qed.

(** ** Running computations *)

Lemma bind_Ret {A B} (m : M A) (k : A -> M B) h a h' :
  m h = Ret a h' -> bind m k h = k a h'.
Proof. unfold bind. by intros ->. Qed.

Lemma bind_Raise {A B} (m : M A) (k : A -> M B) h e h' :
  m h = Raise e h' -> bind m k h = Raise e h'.
Proof. unfold bind. by intros ->. Qed.

Lemma load_Some (h : heap) a o : h !! a = Some o -> load a h = Ret o h.
Proof. unfold load. by intros ->. Qed.

Lemma store_lt (h : heap) a o :
  a < length h -> store a o h = Ret tt (<[a:=o]> h).
Proof. unfold store. intros H. by rewrite decide_True. Qed.

Lemma store_Some (h : heap) a o o' :
  h !! a = Some o' -> store a o h = Ret tt (<[a:=o]> h).
Proof. intros H. apply store_lt. by eapply lookup_lt_Some. Qed.

Lemma lookup_alloc_fresh (h : heap) o : (h ++ [o]) !! length h = Some o.
Proof. by apply list_lookup_middle. Qed.

Lemma lookup_alloc_old (h : heap) o a :
  a < length h -> (h ++ [o]) !! a = h !! a.
Proof. intros H. by apply lookup_app_l. Qed.

Lemma lookup_store_eq (h : heap) a o :
  a < length h -> <[a:=o]> h !! a = Some o.
Proof. apply list_lookup_insert_eq. Qed.

Lemma lookup_store_ne (h : heap) a b o :
  a ≠ b -> <[a:=o]> h !! b = h !! b.
Proof. apply list_lookup_insert_ne. Qed.

Ltac mrun H :=
  match type of H with ?m ?h = _ => rewrite (bind_Ret m _ h _ _ H) end.
Ltac mload H :=
  match type of H with
  | ?h !! ?a = Some ?o =>
      rewrite (bind_Ret (load a) _ h o h (load_Some h a o H))
  end.
Ltac mstore H :=
  match type of H with
  | ?h !! ?a = Some _ =>
      rewrite (bind_Ret (store a _) _ h _ _ (store_Some h a _ _ H))
  end.

(** ** [copy.deepcopy] copies a tree into fresh objects *)

Lemma deepcopy_memo_dict f a m :
  deepcopy_memo (S f) (VDict a) m =
  match memo_get m a with
  | Some y => ret (VDict y, m)
  | None =>
      let* o := load a in
      let* y := alloc [] in
      let* m' := foldM (copy_item (deepcopy_memo f) y) o ((a, y) :: m) in
      ret (VDict y, m')
  end.
Proof. reflexivity. Qed.

Lemma deepcopy_memo_own h0 :
  (forall v t fp, own h0 v t fp ->
     forall fuel h m,
       (forall a, a ∈ fp -> h !! a = h0 !! a) ->
       depth t <= fuel -> memo_free m fp ->
       exists v' m' h' fp',
         deepcopy_memo fuel v m h = Ret (v', m') h' /\
         h `prefix_of` h' /\
         own h' v' t fp' /\
         (forall a, a ∈ fp' -> length h <= a) /\
         (forall a, a ∉ fp -> memo_get m' a = memo_get m a)) /\
  (forall o es fp, own_items h0 o es fp ->
     forall f h m y oy,
       (forall a, a ∈ fp -> h !! a = h0 !! a) ->
       depth_items es <= f -> memo_free m fp ->
       h !! y = Some oy -> y ∉ fp ->
       NoDup (oy.*1 ++ o.*1) ->
       exists m' h' o' fp',
         foldM (copy_item (deepcopy_memo f) y) o m h = Ret m' h' /\
         length h <= length h' /\
         (forall a, a < length h -> a ≠ y -> h' !! a = h !! a) /\
         h' !! y = Some (oy ++ o') /\
         o'.*1 = o.*1 /\
         own_items h' o' es fp' /\
         (forall a, a ∈ fp' -> length h <= a) /\
         (forall a, a ∉ fp -> memo_get m' a = memo_get m a)).
Proof.
  apply own_mutind.
  - (* a leaf *)
    intros z fuel h m _ _ _. exists (VLeaf z), m, h, ∅.
    destruct fuel; simpl; (split; [done|]);
      (split; [done|]); (split; [constructor|]); set_solver.
  - (* a dictionary *)
    intros a o es fp Ha Hnd Hitems IH Hni fuel h m Hagree Hfuel Hfree.
    rewrite depth_Branch in Hfuel.
    destruct fuel as [|f]; [lia|].
    rewrite deepcopy_memo_dict.
    rewrite (Hfree a) by set_solver.
    assert (Hha : h !! a = Some o) by (rewrite Hagree; [done | set_solver]).
    mload Hha. unfold alloc at 1, bind at 1.
    set (y := length h). set (h1 := h ++ [[]]).
    assert (Hy : h1 !! y = Some []) by apply lookup_alloc_fresh.
    assert (Hold : forall b, b ∈ fp -> b < length h).
    { intros b Hb. apply (lookup_lt_is_Some_1 h b).
      rewrite Hagree by set_solver.
      apply lookup_lt_is_Some_2.
      by eapply (proj2 (own_bound h0)). }
    destruct (IH f h1 ((a, y) :: m) y []) as
      (m' & h' & o' & fp' & Hrun & Hlen & Hframe & Hy' & Hkeys & Hown & Hfresh
       & Hmemo).
    + intros b Hb. unfold h1. rewrite lookup_alloc_old by auto.
      apply Hagree. set_solver.
    + lia.
    + intros b Hb. simpl.
      destruct (Nat.eqb_spec a b) as [->|_]; [done|]. apply Hfree. set_solver.
    + done.
    + intros Hin. apply Hold in Hin. unfold y in Hin. lia.
    + done.
    + mrun Hrun.
      assert (Hlen1 : length h1 = S (length h)).
      { unfold h1. rewrite length_app. simpl. lia. }
      exists (VDict y), m', h', ({[y]} ∪ fp').
      split; [done|]. split; [|split; [|split]].
      * apply prefix_of_lookup. intros b Hb.
        rewrite Hframe by (unfold y; lia).
        unfold h1. by apply lookup_alloc_old.
      * apply own_dict with (o := o'); [done | by rewrite Hkeys | done |].
        intros Hin. apply Hfresh in Hin. unfold y in Hin. lia.
      * intros b Hb. apply elem_of_union in Hb as [Hb|Hb].
        -- apply elem_of_singleton in Hb as ->. unfold y. lia.
        -- apply Hfresh in Hb. lia.
      * intros b Hb. rewrite Hmemo by set_solver. simpl.
        destruct (Nat.eqb_spec a b) as [->|_]; [set_solver | done].
  - (* no item *)
    intros f h m y oy _ _ _ Hy _ _. exists m, h, [], ∅. simpl.
    split; [done|]. split; [done|]. split; [done|].
    split; [by rewrite app_nil_r|]. split; [done|].
    split; [constructor|]. set_solver.
  - (* an item, then the others *)
    intros k v t o es fp1 fp2 Hv IHv Ho IHo Hdisj f h m y oy Hagree Hfuel
      Hfree Hy Hyni Hnd.
    rewrite depth_items_cons in Hfuel.
    destruct (IHv f h m) as (v' & m1 & h1 & fp1' & Hrun1 & Hpre1 & Hown1
      & Hfresh1 & Hmemo1).
    { intros b Hb. apply Hagree. set_solver. }
    { lia. }
    { intros b Hb. apply Hfree. set_solver. }
    assert (Hy1 : h1 !! y = Some oy) by (by eapply prefix_lookup_Some').
    assert (Hk : k ∉ oy.*1).
    { rewrite fmap_cons in Hnd. simpl in Hnd.
      apply NoDup_app in Hnd as (_ & Hnd & _).
      intros Hin. specialize (Hnd k Hin). apply Hnd. left. }
    set (h2 := <[y:=oy ++ [(k, v')]]> h1).
    assert (Hci : copy_item (deepcopy_memo f) y m (k, v) h = Ret m1 h2).
    { unfold copy_item. simpl.
      mrun Hrun1. mload Hy1. mstore Hy1.
      by rewrite dict_set_new. }
    simpl. mrun Hci.
    assert (Hylt : y < length h1) by (by eapply lookup_lt_Some).
    assert (Hlen2 : length h2 = length h1) by apply length_insert.
    assert (Hlen1 : length h <= length h1) by (by apply prefix_length).
    destruct (IHo f h2 m1 y (oy ++ [(k, v')])) as
      (m' & h' & o' & fp' & Hrun & Hlen & Hframe & Hy' & Hkeys & Hown & Hfresh
       & Hmemo).
    + intros b Hb. unfold h2. rewrite lookup_store_ne by set_solver.
      assert (Hb' : h !! b = h0 !! b) by (apply Hagree; set_solver).
      destruct (h !! b) as [ob|] eqn:Hhb.
      * rewrite <- Hb'. by eapply prefix_lookup_Some'.
      * exfalso. symmetry in Hb'. apply lookup_ge_None in Hb'.
        pose proof (proj2 (own_bound h0) _ _ _ Ho b Hb). lia.
    + lia.
    + intros b Hb. rewrite Hmemo1 by set_solver. apply Hfree. set_solver.
    + unfold h2. by apply lookup_store_eq.
    + set_solver.
    + rewrite fmap_app. simpl. rewrite fmap_cons in Hnd. simpl in Hnd.
      by rewrite <- app_assoc.
    + exists m', h', ((k, v') :: o'), (fp1' ∪ fp').
      split; [exact Hrun|]. split; [lia|]. split; [|split; [|split; [|split]]].
      * intros b Hb Hne. rewrite Hframe by (done || lia).
        unfold h2. rewrite lookup_store_ne by done.
        by apply prefix_lookup_lt.
      * rewrite Hy'. by rewrite <- app_assoc.
      * rewrite !fmap_cons. simpl. by rewrite Hkeys.
      * constructor; [|done|].
        -- eapply (proj1 (own_frame h1)); [done|].
           intros b Hb.
           pose proof (proj1 (own_bound h1) _ _ _ Hown1 b Hb) as Hblt.
           rewrite Hframe.
           ++ unfold h2. apply lookup_store_ne.
              intros ->. apply Hfresh1 in Hb. apply lookup_lt_Some in Hy. lia.
           ++ lia.
           ++ intros ->. apply Hfresh1 in Hb. apply lookup_lt_Some in Hy. lia.
        -- apply elem_of_disjoint. intros b Hb1 Hb2.
           pose proof (proj1 (own_bound h1) _ _ _ Hown1 b Hb1).
           apply Hfresh in Hb2. lia.
      * split.
        -- intros b Hb. apply elem_of_union in Hb as [Hb|Hb].
           ++ by apply Hfresh1.
           ++ apply Hfresh in Hb. lia.
        -- intros b Hb. rewrite Hmemo by set_solver.
           apply Hmemo1. set_solver.
Qed.

(** ** Every tree with distinct keys is in some store *)

Lemma tree_induction (P : tree -> Prop) :
  (forall z, P (Leaf z)) ->
  (forall es, Forall (fun kt => P kt.2) es -> P (Branch es)) ->
  forall t, P t.
Proof.
  intros Hleaf Hbranch. fix IH 1. intros [z|es]; [apply Hleaf|].
  apply Hbranch. induction es as [|[k t] es IHes]; constructor.
  - apply IH.
  - apply IHes.
Qed.

Lemma alloc_tree_Branch es :
  alloc_tree (Branch es) =
  (let* o := alloc_items es in let* a := alloc o in ret (VDict a)).
Proof. reflexivity. Qed.

Lemma alloc_tree_own t : forall h,
  distinct_keys t ->
  exists v h' fp,
    alloc_tree t h = Ret v h' /\
    h `prefix_of` h' /\
    own h' v t fp /\
    forall a, a ∈ fp -> length h <= a.
Proof.
  induction t as [z|es IH] using tree_induction; intros h Hwf.
  - exists (VLeaf z), h, ∅. split; [done|]. split; [done|].
    split; [constructor | set_solver].
  - destruct Hwf as [Hnd Hall].
    assert (Hitems : forall h,
      exists o h' fp,
        alloc_items es h = Ret o h' /\ h `prefix_of` h' /\
        own_items h' o es fp /\ forall a, a ∈ fp -> length h <= a).
    { clear Hnd. induction es as [|[k t] es IHes]; intros h0.
      - exists [], h0, ∅. split; [done|]. split; [done|].
        split; [constructor | set_solver].
      - apply Forall_cons in IH as [IHt IHrest]. destruct Hall as [Hwt Hall].
        destruct (IHt h0 Hwt) as (v & h1 & fp1 & Hrun1 & Hpre1 & Hown1 & Hf1).
        destruct (IHes IHrest Hall h1)
          as (o & h2 & fp2 & Hrun2 & Hpre2 & Hown2 & Hf2).
        exists ((k, v) :: o), h2, (fp1 ∪ fp2). simpl in *.
        split; [by mrun Hrun1; mrun Hrun2|].
        split; [by etrans|]. split.
        + constructor; [by eapply own_prefix | done |].
          apply elem_of_disjoint. intros x Hx1 Hx2.
          pose proof (proj1 (own_bound h1) _ _ _ Hown1 x Hx1).
          apply Hf2 in Hx2. lia.
        + intros x Hx. apply elem_of_union in Hx as [Hx|Hx]; [by apply Hf1|].
          apply Hf2 in Hx. pose proof (prefix_length _ _ Hpre1). lia. }
    destruct (Hitems h) as (o & h1 & fp & Hrun & Hpre & Hown & Hfresh).
    exists (VDict (length h1)), (h1 ++ [o]), ({[length h1]} ∪ fp).
    rewrite alloc_tree_Branch. mrun Hrun.
    split; [done|]. split; [|split].
    + etrans; [done | apply prefix_snoc].
    + apply own_dict with (o := o).
      * apply lookup_alloc_fresh.
      * by rewrite <- (own_items_keys _ _ _ _ Hown).
      * eapply (proj2 (own_frame h1)); [done|]. intros x Hx.
        apply lookup_alloc_old. by eapply (proj2 (own_bound h1)).
      * intros Hin. apply (proj2 (own_bound h1) _ _ _ Hown) in Hin. lia.
    + intros x Hx. pose proof (prefix_length _ _ Hpre).
      apply elem_of_union in Hx as [Hx|Hx]; [|by apply Hfresh].
      apply elem_of_singleton in Hx. lia.
Qed.

(** ** Values and trees along a key path *)

Lemma own_items_get h o es fp k t :
  own_items h o es fp -> tree_get_key es k = Some t ->
  exists v fp', dict_get o k = Some v /\ own h v t fp' /\ fp' ⊆ fp.
Proof.
  induction 1 as [|k' v' t' o es fp1 fp2 Hv Ho IH Hd]; simpl; [done|].
  destruct (Z.eqb k' k).
  - intros [= ->]. exists v', fp1. split; [done|]. split; [done | set_solver].
  - intros Hget. destruct (IH Hget) as (v & fp' & ? & ? & ?).
    exists v, fp'. split; [done|]. split; [done | set_solver].
Qed.

Lemma own_walk h path : forall d t fp t',
  own h d t fp -> tree_walk t path = Some t' ->
  exists v fp', walk h d path = Some v /\ own h v t' fp' /\ fp' ⊆ fp.
Proof.
  induction path as [|k rest IH]; intros d t fp t' Hown Hwalk; simpl in *.
  - injection Hwalk as <-. by exists d, fp.
  - destruct Hown as [z|a o es fp Ha Hnd Hitems Hni]; [done|].
    destruct (tree_get_key es k) as [t1|] eqn:Hk; [|done].
    destruct (own_items_get _ _ _ _ _ _ Hitems Hk) as (v1 & fp1 & Hg & Ho1 & ?).
    rewrite Ha, Hg.
    destruct (IH _ _ _ _ Ho1 Hwalk) as (v & fp' & ? & ? & ?).
    exists v, fp'. split; [done|]. split; [done | set_solver].
Qed.

Lemma own_leaf_inv h v z fp : own h v (Leaf z) fp -> v = VLeaf z.
Proof. by inversion 1. Qed.

Lemma own_walk_leaf h path d t fp z :
  own h d t fp -> tree_walk t path = Some (Leaf z) ->
  walk h d path = Some (VLeaf z).
Proof.
  intros Hown Hwalk.
  destruct (own_walk _ _ _ _ _ _ Hown Hwalk) as (v & fp' & Hw & Hv & _).
  by rewrite (own_leaf_inv _ _ _ _ Hv) in Hw.
Qed.

(** ** [recursive_add] stopped by a leaf *)

Lemma add_step_cons a k k' rest value init :
  add_step (VDict a) (k :: k' :: rest) value init =
  (let* o := load a in
   let* _ :=
     (if dict_mem k o then ret tt
      else let* e := alloc [] in store a (dict_set o k (VDict e))) in
   let* o' := load a in
   match dict_get o' k with
   | Some v => add_step v (k' :: rest) value init
   | None => stuck
   end).
Proof. reflexivity. Qed.

Lemma add_step_last a k value init :
  add_step (VDict a) [k] value init =
  (let* o := load a in
   let* _ := store a (dict_set o k value) in
   ret []).
Proof. reflexivity. Qed.

Lemma add_step_leaf pre : forall h d suf z value init,
  walk h d pre = Some (VLeaf z) -> suf ≠ [] ->
  add_step d (pre ++ suf) value init h = Ret [WarnNotAdded value init] h.
Proof.
  induction pre as [|k pre IH]; intros h d suf z value init Hwalk Hsuf.
  - simpl in Hwalk. injection Hwalk as ->. by destruct suf.
  - simpl in Hwalk. destruct d as [|a]; [done|].
    destruct (h !! a) as [o|] eqn:Ha; [|done].
    destruct (dict_get o k) as [v|] eqn:Hk; [|done].
    assert (Hne : exists k' rest, pre ++ suf = k' :: rest).
    { destruct (pre ++ suf) as [|k' rest] eqn:E; [|by eauto].
      by apply app_eq_nil in E as [_ ?]. }
    destruct Hne as (k' & rest & E).
    rewrite <- app_comm_cons, E, add_step_cons.
    mload Ha. unfold dict_mem. rewrite Hk.
    unfold ret at 1, bind at 1. mload Ha. rewrite Hk, <- E. by eapply IH.
Qed.

(** ** [recursive_replace] and [recursive_remove] along a key path *)

Lemma replace_step_cons d k k' rest value kpl :
  replace_step d (k :: k' :: rest) value kpl =
  match d with
  | VLeaf _ => raise (TypeError NotIterable)
  | VDict a =>
      let* o := load a in
      match dict_get o k with
      | Some v => replace_step v (k' :: rest) value (kpl ++ [k])
      | None => ret tt
      end
  end.
Proof. reflexivity. Qed.

Lemma remove_step_cons fuel a k k' rest value kpl :
  remove_step fuel (VDict a) (k :: k' :: rest) value kpl =
  (let* o := load a in
   match dict_get o k with
   | Some v => remove_step fuel v (k' :: rest) value (kpl ++ [k])
   | None => ret tt
   end).
Proof. reflexivity. Qed.

(** Walking the keys before the last one, each found in a dictionary,
    brings both functions to the dictionary the walk leads to. *)
Lemma replace_step_walk pre : forall h d v suf value kpl,
  walk h d pre = Some v -> suf ≠ [] ->
  replace_step d (pre ++ suf) value kpl h =
  replace_step v suf value (kpl ++ pre) h.
Proof.
  induction pre as [|k pre IH]; intros h d v suf value kpl Hwalk Hsuf.
  - simpl in *. injection Hwalk as ->. by rewrite app_nil_r.
  - simpl in Hwalk. destruct d as [|a]; [done|].
    destruct (h !! a) as [o|] eqn:Ha; [|done].
    destruct (dict_get o k) as [v1|] eqn:Hk; [|done].
    assert (Hne : exists k' rest, pre ++ suf = k' :: rest).
    { destruct (pre ++ suf) as [|k' rest] eqn:E; [|by eauto].
      by apply app_eq_nil in E as [_ ?]. }
    destruct Hne as (k' & rest & E).
    rewrite <- app_comm_cons, E, replace_step_cons.
    mload Ha. rewrite Hk, <- E.
    rewrite (IH _ _ _ _ _ _ Hwalk Hsuf). by rewrite <- app_assoc.
Qed.

Lemma remove_step_walk fuel pre : forall h d v suf value kpl,
  walk h d pre = Some v -> suf ≠ [] ->
  remove_step fuel d (pre ++ suf) value kpl h =
  remove_step fuel v suf value (kpl ++ pre) h.
Proof.
  induction pre as [|k pre IH]; intros h d v suf value kpl Hwalk Hsuf.
  - simpl in *. injection Hwalk as ->. by rewrite app_nil_r.
  - simpl in Hwalk. destruct d as [|a]; [done|].
    destruct (h !! a) as [o|] eqn:Ha; [|done].
    destruct (dict_get o k) as [v1|] eqn:Hk; [|done].
    assert (Hne : exists k' rest, pre ++ suf = k' :: rest).
    { destruct (pre ++ suf) as [|k' rest] eqn:E; [|by eauto].
      by apply app_eq_nil in E as [_ ?]. }
    destruct Hne as (k' & rest & E).
    rewrite <- app_comm_cons, E, remove_step_cons.
    mload Ha. rewrite Hk, <- E.
    rewrite (IH _ _ _ _ _ _ Hwalk Hsuf). by rewrite <- app_assoc.
Qed.

(** ** The running example in the store *)

Lemma alloc_tree_example :
  run (alloc_tree T_example) = Ret d_example h_example.
Proof. reflexivity. Qed.

Lemma own_dict_eq h a o es fp fp' :
  h !! a = Some o -> NoDup o.*1 -> own_items h o es fp -> a ∉ fp ->
  fp' = {[a]} ∪ fp -> own h (VDict a) (Branch es) fp'.
Proof. intros ? ? ? ? ->. by eapply own_dict. Qed.

Lemma own_cons_leaf h k z o es fp :
  own_items h o es fp ->
  own_items h ((k, VLeaf z) :: o) ((k, Leaf z) :: es) fp.
Proof.
  intros H. replace fp with (∅ ∪ fp) by set_solver.
  constructor; [constructor | done | set_solver].
Qed.

Lemma own_cons_eq h k v t o es fp1 fp2 fp :
  own h v t fp1 -> own_items h o es fp2 -> fp1 ## fp2 -> fp = fp1 ∪ fp2 ->
  own_items h ((k, v) :: o) ((k, t) :: es) fp.
Proof. intros ? ? ? ->. by constructor. Qed.

Ltac keys_distinct := simpl; repeat constructor; set_solver.

Lemma own_example : own h_example d_example T_example fp_example.
Proof.
  assert (H0 : own h_example (VDict 0) (Branch [(4, Leaf 5)]%Z) {[0]}).
  { eapply own_dict_eq with (fp := (∅ : gset nat));
      [reflexivity | keys_distinct | | | ].
    - apply own_cons_leaf, own_nil.
    - apply not_elem_of_empty.
    - by rewrite union_empty_r_L. }
  assert (H1 : own h_example (VDict 1) (Branch [(7, Leaf 8)]%Z) {[1]}).
  { eapply own_dict_eq with (fp := (∅ : gset nat));
      [reflexivity | keys_distinct | | | ].
    - apply own_cons_leaf, own_nil.
    - apply not_elem_of_empty.
    - by rewrite union_empty_r_L. }
  assert (H2 : own h_example (VDict 2)
                 (Branch [(3, Branch [(7, Leaf 8)]); (7, Leaf 10)]%Z)
                 {[1; 2]}).
  { eapply own_dict_eq with (fp := ({[1]} : gset nat));
      [reflexivity | keys_distinct | | | ].
    - eapply own_cons_eq with (fp2 := (∅ : gset nat)); [exact H1 | | | ].
      + apply own_cons_leaf, own_nil.
      + set_solver.
      + set_solver.
    - set_solver.
    - set_solver. }
  eapply own_dict_eq with (fp := ({[0; 1; 2]} : gset nat));
    [reflexivity | keys_distinct | | | ].
  - apply own_cons_leaf.
    eapply own_cons_eq with (fp2 := ({[1; 2]} : gset nat)); [exact H0 | | | ].
    + eapply own_cons_eq with (fp2 := (∅ : gset nat)); [exact H2 | | | ].
      * apply own_cons_leaf, own_nil.
      * set_solver.
      * set_solver.
    + set_solver.
    + set_solver.
  - set_solver.
  - unfold fp_example. set_solver.
Qed.

(** ** Values found under a key *)

(** C3, as stated: on the running example the values found under key 7
    would be the list 10, 11.  They are not, whatever the fuel. *)
Lemma values_for_7_not_10_11 :
  ~ exists fuel h, values_for_7 fuel = Ret [VLeaf 10; VLeaf 11] h.
Proof.
  intros (fuel & h & H).
  destruct fuel as [|[|[|fuel]]]; vm_compute in H; discriminate.
Qed.

(** C3, amended: on the running example [{1:2, 3:{4:5}, 6:{3:{7:8}, 7:10},
    7:11}], [recursive_get_values_from_key(T, 7)] returns the list 11, 10,
    8: the value of the outer dictionary first, then that of the dictionary
    under 6, then that of the dictionary under 6 and 3; the store is left
    as it was. *)
Theorem values_for_7_example fuel :
  values_for_7 (3 + fuel) = Ret [VLeaf 11; VLeaf 10; VLeaf 8] h_example.
Proof. reflexivity. Qed.

(** ** Merging mutates its inputs *)

(** C4: merging [{1:2, 3:{4:5}}] with [{3:{17:18}}] returns [{1:2,
    3:{4:5, 17:18}}], but the dictionary under key 3 of the result is the
    very object under key 3 of the first input, and after the call the
    first input is [{1:2, 3:{4:5, 17:18}}] too: key 17 has been inserted
    into its sub-branch. *)
Theorem merge_example_mutates_first_input :
  exists d1 d2 merged h shared,
    merge_example = Ret (d1, d2, merged) h /\
    reify 2 h merged =
      Some (Branch [(1, Leaf 2);
                    (3, Branch [(4, Leaf 5); (17, Leaf 18)])]%Z) /\
    walk h merged [3%Z] = Some (VDict shared) /\
    walk h d1 [3%Z] = Some (VDict shared) /\
    reify 2 h d1 =
      Some (Branch [(1, Leaf 2);
                    (3, Branch [(4, Leaf 5); (17, Leaf 18)])]%Z) /\
    reify 2 h d1 ≠ Some d1_merge /\
    reify 2 h d2 = Some d2_merge.
Proof.
  eexists _, _, _, _, _.
  split; [reflexivity|]. split; [reflexivity|]. split; [reflexivity|].
  split; [reflexivity|]. split; [reflexivity|]. split; [|reflexivity].
  vm_compute. discriminate.
Qed.

(** ** Adding below a leaf *)

Lemma recursive_add_eq fuel d path value in_place :
  recursive_add fuel d (path, value) in_place =
  (let* new_d := new_dict fuel d in_place in
   let* w := add_step new_d (path_keys path) value path in
   ret (returned new_d in_place, w)).
Proof. reflexivity. Qed.

Lemma deepcopy_own h d t fp fuel :
  own h d t fp -> depth t <= fuel ->
  exists h' new_d fp',
    deepcopy fuel d h = Ret new_d h' /\
    h `prefix_of` h' /\
    own h' new_d t fp' /\
    own h' d t fp /\
    forall a, a ∈ fp' -> length h <= a.
Proof.
  intros Hown Hfuel.
  destruct (proj1 (deepcopy_memo_own h) _ _ _ Hown fuel h []) as
    (v' & m' & h' & fp' & Hrun & Hpre & Hown' & Hfresh & _);
    [done | done | done |].
  exists h', v', fp'. unfold deepcopy. mrun Hrun.
  split; [done|]. split; [done|]. split; [done|].
  split; [by eapply own_prefix | done].
Qed.

(** C5: when a proper prefix of the key path leads to a leaf of the
    dictionary, [recursive_add] returns without an exception, the one
    warning names the value and the whole key path given, and nothing is
    inserted: in place the store is left as it was, otherwise the
    dictionary returned is a fresh copy that denotes the same tree as the
    input. *)
Theorem recursive_add_stopped_by_leaf h d t fp fuel path value pre suf z
    in_place :
  own h d t fp ->
  depth t <= fuel ->
  path_keys path = pre ++ suf ->
  suf ≠ [] ->
  tree_walk t pre = Some (Leaf z) ->
  exists h' new_d fp',
    recursive_add fuel d (path, value) in_place h =
      Ret (returned new_d in_place, [WarnNotAdded value path]) h' /\
    own h' new_d t fp' /\
    own h' d t fp /\
    if in_place then new_d = d /\ h' = h
    else h `prefix_of` h' /\ forall a, a ∈ fp' -> length h <= a.
Proof.
  intros Hown Hfuel Hpath Hsuf Hwalk.
  rewrite recursive_add_eq, Hpath. unfold new_dict.
  destruct in_place.
  - exists h, d, fp. unfold ret at 1, bind at 1.
    rewrite (bind_Ret _ _ _ _ _ (add_step_leaf pre h d suf z _ _
               (own_walk_leaf _ _ _ _ _ _ Hown Hwalk) Hsuf)).
    done.
  - destruct (deepcopy_own _ _ _ _ _ Hown Hfuel) as
      (h' & new_d & fp' & Hrun & Hpre & Hnew & Hold & Hfresh).
    exists h', new_d, fp'. mrun Hrun.
    rewrite (bind_Ret _ _ _ _ _ (add_step_leaf pre h' new_d suf z _ _
               (own_walk_leaf _ _ _ _ _ _ Hnew Hwalk) Hsuf)).
    done.
Qed.

Lemma recursive_add_stopped_by_leaf_example :
  exists h' new_d fp',
    recursive_add 3 d_example (PyTuple [6; 3; 7; 12]%Z, VLeaf 13) false
        h_example =
      Ret (returned new_d false,
           [WarnNotAdded (VLeaf 13) (PyTuple [6; 3; 7; 12]%Z)]) h' /\
    own h' new_d T_example fp' /\
    own h' d_example T_example fp_example /\
    (h_example `prefix_of` h' /\ forall a, a ∈ fp' -> length h_example <= a).
Proof.
  apply (recursive_add_stopped_by_leaf h_example d_example T_example
           fp_example 3 (PyTuple [6; 3; 7; 12]%Z) (VLeaf 13)
           [6; 3; 7]%Z [12]%Z 8%Z false).
  - apply own_example.
  - vm_compute. lia.
  - reflexivity.
  - discriminate.
  - reflexivity.
Defined.

(** ** Removing and replacing at the end of a key path *)

Lemma dict_del_get o k :
  NoDup o.*1 ->
  dict_get (dict_del o k) k = None /\
  forall k', k' ≠ k -> dict_get (dict_del o k) k' = dict_get o k'.
Proof.
  induction o as [|[k1 v1] o IH]; simpl; [done|].
  rewrite NoDup_cons. intros [Hni Hnd]. destruct (IH Hnd) as [IH1 IH2].
  destruct (Z.eqb_spec k1 k) as [->|Hne]; simpl.
  - split; [by apply dict_get_None|].
    intros k' Hk'. by destruct (Z.eqb_spec k k') as [->|_].
  - destruct (Z.eqb_spec k1 k) as [->|_]; [done|]. split; [done|].
    intros k' Hk'. destruct (Z.eqb_spec k1 k'); [done | by apply IH2].
Qed.

Lemma dict_set_get o k v :
  dict_get (dict_set o k v) k = Some v /\
  forall k', k' ≠ k -> dict_get (dict_set o k v) k' = dict_get o k'.
Proof.
  induction o as [|[k1 v1] o [IH1 IH2]]; simpl.
  - rewrite Z.eqb_refl. split; [done|]. intros k' Hk'.
    by destruct (Z.eqb_spec k k') as [->|_].
  - destruct (Z.eqb_spec k1 k) as [->|Hne]; simpl.
    + rewrite Z.eqb_refl. split; [done|]. intros k' Hk'.
      by destruct (Z.eqb_spec k k') as [->|_].
    + destruct (Z.eqb_spec k1 k) as [->|_]; [done|]. split; [done|].
      intros k' Hk'. destruct (Z.eqb_spec k1 k'); [done | by apply IH2].
Qed.

Lemma recursive_remove_in_place fuel d path value h :
  recursive_remove fuel d (path, value) true h =
  match remove_step fuel d (path_keys path) value [] h with
  | Ret _ h' => Ret None h'
  | Raise e h' => Raise e h'
  | Stuck => Stuck
  end.
Proof.
  unfold recursive_remove, new_dict. simpl. unfold ret at 1, bind at 1.
  unfold bind. by destruct (remove_step _ _ _ _ _ _) as [[] ?| |].
Qed.

Lemma recursive_replace_in_place fuel d path value h :
  recursive_replace fuel d (path, value) true h =
  match replace_step d (path_keys path) value [] h with
  | Ret _ h' => Ret None h'
  | Raise e h' => Raise e h'
  | Stuck => Stuck
  end.
Proof.
  unfold recursive_replace, new_dict. simpl. unfold ret at 1, bind at 1.
  unfold bind. by destruct (replace_step _ _ _ _ _) as [[] ?| |].
Qed.

(** C6: once the keys before the last have each been found in a
    dictionary, [recursive_remove] raises [KeyError] with the whole key
    path when the last key is absent, raises [ValueError] with that path,
    the value given and the value found when the value found is not equal
    to the value given, and otherwise deletes the key with all that is
    under it.  On the running example: removing [((7,), 11)] returns the
    example without [7: 11], removing [((3, 6), 5)] raises [KeyError] and
    removing [((3, 4), 6)] raises [ValueError]. *)
Theorem recursive_remove_final_key :
  (forall fuel h d pre k value path b o,
     path_keys path = pre ++ [k] ->
     walk h d pre = Some (VDict b) ->
     h !! b = Some o ->
     recursive_remove fuel d (path, value) true h =
     match dict_get o k with
     | None => Raise (KeyError (pre ++ [k])) h
     | Some v =>
         match py_eq fuel h v value with
         | Some true => Ret None (<[b:=dict_del o k]> h)
         | Some false => Raise (ValueError (pre ++ [k]) value v) h
         | None => Stuck
         end
     end) /\
  (exists new_d h',
     recursive_remove 3 d_example (PyTuple [7%Z], VLeaf 11) false h_example =
       Ret (Some new_d) h' /\
     reify 3 h' new_d =
       Some (Branch [(1, Leaf 2);
                     (3, Branch [(4, Leaf 5)]);
                     (6, Branch [(3, Branch [(7, Leaf 8)]); (7, Leaf 10)])]%Z)
     /\ reify 3 h' d_example = Some T_example) /\
  (exists h',
     recursive_remove 3 d_example (PyTuple [3; 6]%Z, VLeaf 5) false h_example =
       Raise (KeyError [3; 6]%Z) h') /\
  (exists h',
     recursive_remove 3 d_example (PyTuple [3; 4]%Z, VLeaf 6) false h_example =
       Raise (ValueError [3; 4]%Z (VLeaf 6) (VLeaf 5)) h').
Proof.
  split; [|split; [|split]].
  - intros fuel h d pre k value path b o Hpath Hwalk Hb.
    rewrite recursive_remove_in_place, Hpath.
    rewrite (remove_step_walk fuel pre h d (VDict b) [k]) by done.
    simpl. mload Hb. destruct (dict_get o k) as [v|]; [|done].
    unfold eq_values at 1, bind at 1.
    destruct (py_eq fuel h v value) as [[]|]; [|done|done].
    by rewrite (store_Some _ _ _ _ Hb).
  - eexists _, _. split; [reflexivity|]. split; reflexivity.
  - eexists. reflexivity.
  - eexists. reflexivity.
Qed.

Lemma recursive_remove_final_key_example :
  recursive_remove 1 d_example (PyTuple [3; 4]%Z, VLeaf 5) true h_example =
  Ret None (<[0:=[]]> h_example).
Proof.
  exact (proj1 recursive_remove_final_key 1 h_example d_example [3%Z] 4%Z
           (VLeaf 5) (PyTuple [3; 4]%Z) 0 [(4%Z, VLeaf 5)]
           eq_refl eq_refl eq_refl).
Defined.

(** C7: [recursive_replace] does nothing, and raises nothing, when a key
    before the last is absent from the dictionary reached; when the keys
    before the last are all found and the last is absent it raises
    [KeyError] with the whole key path; when the last key is present its
    value is overwritten with the value given.  On the running example:
    replacing at [(9, 4)] returns the example as it is, replacing at
    [(3, 9)] raises [KeyError], replacing at [(3, 4)] by 4 returns the
    example with [3: {4: 4}], and replacing at [(6,)] overwrites a
    dictionary. *)
Theorem recursive_replace_cases :
  (forall fuel h d pre k suf value path b o,
     path_keys path = pre ++ k :: suf ->
     walk h d pre = Some (VDict b) ->
     h !! b = Some o ->
     dict_get o k = None \/ suf = [] ->
     recursive_replace fuel d (path, value) true h =
     match dict_get o k, suf with
     | None, _ :: _ => Ret None h
     | None, [] => Raise (KeyError (pre ++ [k])) h
     | Some _, _ => Ret None (<[b:=dict_set o k value]> h)
     end /\
     dict_get (dict_set o k value) k = Some value) /\
  (exists new_d h',
     recursive_replace 3 d_example (PyTuple [9; 4]%Z, VLeaf 4) false
       h_example = Ret (Some new_d) h' /\
     reify 3 h' new_d = Some T_example) /\
  (exists h',
     recursive_replace 3 d_example (PyTuple [3; 9]%Z, VLeaf 4) false
       h_example = Raise (KeyError [3; 9]%Z) h') /\
  (exists new_d h',
     recursive_replace 3 d_example (PyTuple [3; 4]%Z, VLeaf 4) false
       h_example = Ret (Some new_d) h' /\
     reify 3 h' new_d =
       Some (Branch [(1, Leaf 2);
                     (3, Branch [(4, Leaf 4)]);
                     (6, Branch [(3, Branch [(7, Leaf 8)]); (7, Leaf 10)]);
                     (7, Leaf 11)]%Z)) /\
  (exists new_d h',
     recursive_replace 3 d_example (PyTuple [6%Z], VLeaf 0) false
       h_example = Ret (Some new_d) h' /\
     reify 3 h' new_d =
       Some (Branch [(1, Leaf 2);
                     (3, Branch [(4, Leaf 5)]);
                     (6, Leaf 0);
                     (7, Leaf 11)]%Z)).
Proof.
  split; [|split; [|split; [|split]]].
  - intros fuel h d pre k suf value path b o Hpath Hwalk Hb Hcase.
    split; [|apply dict_set_get].
    rewrite recursive_replace_in_place, Hpath.
    rewrite (replace_step_walk pre h d (VDict b) (k :: suf)) by done.
    destruct suf as [|k' suf].
    + simpl. mload Hb. unfold dict_mem.
      destruct (dict_get o k); [|done]. by rewrite (store_Some _ _ _ _ Hb).
    + destruct Hcase as [Hk|]; [|done].
      rewrite replace_step_cons. mload Hb. by rewrite Hk.
  - eexists _, _. split; reflexivity.
  - eexists. reflexivity.
  - eexists _, _. split; reflexivity.
  - eexists _, _. split; reflexivity.
Qed.

Lemma recursive_replace_cases_example :
  recursive_replace 0 d_example (PyTuple [3; 9]%Z, VLeaf 4) true h_example =
    Raise (KeyError [3; 9]%Z) h_example /\
  dict_get (dict_set [(4%Z, VLeaf 5)] 9%Z (VLeaf 4)) 9%Z = Some (VLeaf 4).
Proof.
  exact (proj1 recursive_replace_cases 0 h_example d_example [3%Z] 9%Z []
           (VLeaf 4) (PyTuple [3; 9]%Z) 0 [(4%Z, VLeaf 5)]
           eq_refl eq_refl eq_refl (or_introl eq_refl)).
Defined.

(** *** Leaves that are lists *)






(** ** Adding the key paths of a dictionary to another one *)

Lemma foldM_app {A B} (body : B -> A -> M B) l1 l2 acc h :
  foldM body (l1 ++ l2) acc h = bind (foldM body l1 acc) (foldM body l2) h.
Proof.
  revert acc h. induction l1 as [|x l1 IH]; intros acc h; simpl;
    [reflexivity|].
  unfold bind. destruct (body acc x h) as [acc' h'| |];
    [|reflexivity|reflexivity].
  rewrite IH. reflexivity.
Qed.

Lemma add_step_walk pre : forall h d v suf value init,
  walk h d pre = Some v -> suf ≠ [] ->
  add_step d (pre ++ suf) value init h = add_step v suf value init h.
Proof.
  induction pre as [|k pre IH]; intros h d v suf value init Hwalk Hsuf.
  - simpl in *. by injection Hwalk as ->.
  - simpl in Hwalk. destruct d as [|a]; [done|].
    destruct (h !! a) as [o|] eqn:Ha; [|done].
    destruct (dict_get o k) as [v1|] eqn:Hk; [|done].
    assert (Hne : exists k' rest, pre ++ suf = k' :: rest).
    { destruct (pre ++ suf) as [|k' rest] eqn:E; [|by eauto].
      by apply app_eq_nil in E as [_ ?]. }
    destruct Hne as (k' & rest & E).
    rewrite <- app_comm_cons, E, add_step_cons.
    mload Ha. unfold dict_mem. rewrite Hk.
    unfold ret at 1, bind at 1. mload Ha. rewrite Hk, <- E. by apply IH.
Qed.

Lemma chain_le h pfx : forall r b, chain h r pfx b -> r <= b.
Proof.
  induction pfx as [|k pfx IH]; simpl; intros r b.
  - intros ->. lia.
  - intros (o & r' & _ & _ & Hlt & Hc). apply IH in Hc. lia.
Qed.

Lemma chain_walk h pfx : forall r b,
  chain h r pfx b -> walk h (VDict r) pfx = Some (VDict b).
Proof.
  induction pfx as [|k pfx IH]; simpl; intros r b.
  - by intros ->.
  - intros (o & r' & Hr & Hk & _ & Hc). rewrite Hr, Hk. by apply IH.
Qed.

Lemma chain_frame (h h' : heap) pfx : forall r b,
  (forall x, x < b -> h' !! x = h !! x) ->
  chain h r pfx b -> chain h' r pfx b.
Proof.
  induction pfx as [|k pfx IH]; simpl; intros r b Hframe; [done|].
  intros (o & r' & Hr & Hk & Hlt & Hc). exists o, r'.
  split; [|by auto]. rewrite Hframe; [done|]. apply chain_le in Hc. lia.
Qed.

Lemma chain_snoc h pfx : forall r b o k e,
  chain h r pfx b -> h !! b = Some o -> dict_get o k = Some (VDict e) ->
  b < e -> chain h r (pfx ++ [k]) e.
Proof.
  induction pfx as [|k' pfx IH]; simpl; intros r b o k e.
  - intros -> Hb Hk Hlt. by exists o, e.
  - intros (o' & r' & Hr & Hk' & Hlt' & Hc) Hb Hk Hlt.
    exists o', r'. split; [done|]. split; [done|]. split; [done|].
    by eapply IH.
Qed.

Lemma add_all_from d mk (Hmk : forall p, path_keys (mk p) = p) items :
  forall w h,
  add_all d (map (fun pv : list key * val => (mk pv.1, pv.2)) items) w h =
  foldM (add_from d mk) items w h.
Proof.
  unfold add_all.
  induction items as [|[p v] items IH]; intros w h; simpl; [reflexivity|].
  unfold add_from at 1. simpl. rewrite recursive_add_eq, Hmk.
  unfold new_dict, ret, bind.
  destruct (add_step d p v (mk p) h) as [w2 h'| |];
    [|reflexivity|reflexivity].
  apply IH.
Qed.

Lemma add_from_last h r pfx b o k v mk w :
  chain h r pfx b -> h !! b = Some o ->
  add_from (VDict r) mk w (pfx ++ [k], v) h =
  Ret w (<[b:=dict_set o k v]> h).
Proof.
  intros Hc Hb. unfold add_from. cbn [fst snd].
  rewrite (bind_Ret _ _ _ [] (<[b:=dict_set o k v]> h)).
  - unfold ret. by rewrite app_nil_r.
  - rewrite (add_step_walk pfx h (VDict r) (VDict b) [k])
      by (done || by apply chain_walk).
    rewrite add_step_last. mload Hb. by mstore Hb.
Qed.

Lemma add_from_first h r pfx b ob k q v mk w :
  chain h r pfx b -> h !! b = Some ob -> k ∉ ob.*1 -> q ≠ [] ->
  add_from (VDict r) mk w (pfx ++ k :: q, v) h =
  add_from (VDict r) mk w (pfx ++ k :: q, v)
    (<[b:=ob ++ [(k, VDict (length h))]]> (h ++ [[]])).
Proof.
  intros Hc Hb Hk Hq.
  assert (Hblt : b < length h) by (by eapply lookup_lt_Some).
  remember (<[b:=ob ++ [(k, VDict (length h))]]> (h ++ [[]])) as h1 eqn:Hh1.
  assert (Hb1 : h1 !! b = Some (ob ++ [(k, VDict (length h))])).
  { subst h1. apply lookup_store_eq. rewrite length_app. simpl. lia. }
  assert (Hc1 : chain h1 r pfx b).
  { eapply chain_frame; [|exact Hc]. intros x Hx. subst h1.
    rewrite lookup_store_ne by lia. apply lookup_alloc_old. lia. }
  assert (Hget : dict_get (ob ++ [(k, VDict (length h))]) k =
                 Some (VDict (length h))).
  { rewrite dict_get_last. by rewrite (proj2 (dict_get_None ob k) Hk). }
  assert (Hstep : forall init,
    add_step (VDict r) (pfx ++ k :: q) v init h =
    add_step (VDict r) (pfx ++ k :: q) v init h1);
    [|unfold add_from, bind; cbn [fst snd]; by rewrite Hstep].
  intros init.
  rewrite (add_step_walk pfx h (VDict r) (VDict b) (k :: q))
    by (done || by apply chain_walk).
  rewrite (add_step_walk pfx h1 (VDict r) (VDict b) (k :: q))
    by (done || by apply chain_walk).
  destruct q as [|k' q]; [done|]. rewrite !add_step_cons.
  mload Hb. mload Hb1.
  rewrite (proj2 (dict_mem_false ob k) Hk).
  unfold dict_mem. rewrite Hget.
  unfold bind, ret, alloc.
  rewrite store_lt by (rewrite length_app; simpl; lia).
  rewrite dict_set_new by done. rewrite <- Hh1.
  unfold load. by rewrite Hb1, Hget.
Qed.

Lemma agree_on_lt h0 v t fp h x :
  own h0 v t fp -> agree_on fp h0 h -> x ∈ fp -> x < length h.
Proof.
  intros Hown Hagree Hx. apply lookup_lt_is_Some_1.
  rewrite (Hagree x Hx). apply lookup_lt_is_Some_2.
  by eapply (proj1 (own_bound h0)).
Qed.

Lemma agree_on_items_lt h0 o es fp h x :
  own_items h0 o es fp -> agree_on fp h0 h -> x ∈ fp -> x < length h.
Proof.
  intros Hown Hagree Hx. apply lookup_lt_is_Some_1.
  rewrite (Hagree x Hx). apply lookup_lt_is_Some_2.
  by eapply (proj2 (own_bound h0)).
Qed.

Lemma own_dict_inv h a t fp :
  own h (VDict a) t fp -> exists o, h !! a = Some o /\ NoDup o.*1.
Proof. inversion 1; eauto. Qed.

Lemma iter_step_dict f a pfx :
  iter_step (S f) (VDict a) pfx =
  (let* o := load a in yield_each o (iter_item (iter_step f) pfx)).
Proof. reflexivity. Qed.

Lemma yield_each_iter_cons f pfx k v o h below rest :
  (if is_dict v then iter_step f v (pfx ++ [k]) else ret []) h =
    Ret below h ->
  yield_each o (iter_item (iter_step f) pfx) h = Ret rest h ->
  yield_each ((k, v) :: o) (iter_item (iter_step f) pfx) h =
    Ret ((below ++ [(pfx ++ [k], v)]) ++ rest) h.
Proof.
  intros H1 H2. simpl. unfold iter_item at 1. cbn [fst snd].
  unfold bind. rewrite H1. unfold ret. by rewrite H2.
Qed.

Lemma linearize_and_add h0 :
  (forall v t fp, own h0 v t fp ->
     forall a, v = VDict a ->
     forall fuel pfx, depth t <= fuel ->
     exists items oa,
       h0 !! a = Some oa /\
       (forall h, agree_on fp h0 h ->
                  iter_step fuel v pfx h = Ret items h) /\
       Forall (fun pv => exists k q, pv.1 = pfx ++ k :: q) items /\
       NoDup items.*1 /\
       adds_into h0 fp items pfx oa) /\
  (forall o es fp, own_items h0 o es fp ->
     forall f pfx, depth_items es <= f -> NoDup o.*1 ->
     exists items,
       (forall h, agree_on fp h0 h ->
          yield_each o (iter_item (iter_step f) pfx) h = Ret items h) /\
       Forall (fun pv => exists k q, k ∈ o.*1 /\ pv.1 = pfx ++ k :: q)
              items /\
       NoDup items.*1 /\
       adds_into h0 fp items pfx o).
Proof.
  apply own_mutind.
  - (* a leaf is not iterated *)
    intros z a [=].
  - (* a dictionary *)
    intros a0 o es fp Ha Hnd _ IH _ a [= <-] fuel pfx Hfuel.
    rewrite depth_Branch in Hfuel. destruct fuel as [|f]; [lia|].
    destruct (IH f pfx) as (items & Hrun & Hshape & Hndp & Hadds);
      [lia | done |].
    exists items, o. split; [done|]. split.
    { intros h Hagree. rewrite iter_step_dict.
      assert (Hha : h !! a0 = Some o) by (rewrite Hagree; [done|set_solver]).
      mload Hha. apply Hrun. intros x Hx. apply Hagree. set_solver. }
    split.
    { eapply Forall_impl; [exact Hshape|]. intros pv (k & q & _ & ?). eauto. }
    split; [done|].
    intros mk h r b ob w Hagree Hb. apply Hadds.
    + intros x Hx. apply Hagree. set_solver.
    + set_solver.
  - (* no item *)
    intros f pfx _ _. exists []. split; [done|]. split; [done|].
    split; [constructor|].
    intros mk h r b ob w _ _ _ Hb _. exists h. simpl.
    split; [done|]. split; [by rewrite app_nil_r | done].
  - (* an item, then the others *)
    intros k v t o es fp1 fp2 Hv IHv Ho IHo Hdisj f pfx Hfuel Hnd.
    rewrite depth_items_cons in Hfuel.
    rewrite fmap_cons in Hnd. simpl in Hnd.
    apply NoDup_cons in Hnd as [Hk Hnd].
    assert (Hbelow : exists below,
      (forall h, agree_on fp1 h0 h ->
         (if is_dict v then iter_step f v (pfx ++ [k]) else ret []) h =
         Ret below h) /\
      Forall (fun pv => exists q, q ≠ [] /\ pv.1 = pfx ++ k :: q) below /\
      NoDup below.*1 /\
      forall mk h r b ob w,
        agree_on fp1 h0 h -> b ∉ fp1 -> chain h r pfx b ->
        h !! b = Some ob -> k ∉ ob.*1 ->
        exists hA oA,
          foldM (add_from (VDict r) mk) below w h = Ret w hA /\
          hA !! b = Some oA /\
          dict_set oA k v = ob ++ [(k, v)] /\
          (forall x, x < length h -> x ≠ b -> hA !! x = h !! x) /\
          length h <= length hA).
    { destruct v as [z|c].
      - exists []. split; [done|]. split; [done|]. split; [constructor|].
        intros mk h r b ob w _ _ _ Hb Hkb. exists h, ob.
        split; [done|]. split; [done|]. split; [by apply dict_set_new|done].
      - destruct (IHv c eq_refl f (pfx ++ [k])) as
          (below & oc & Hoc & Hrun & Hshape & Hndp & Hadds); [lia|].
        destruct (own_dict_inv _ _ _ _ Hv) as (oc' & Hoc' & Hndc).
        assert (oc' = oc) by congruence. subst oc'.
        exists below. split; [done|]. split.
        { eapply Forall_impl; [exact Hshape|].
          intros pv (k' & q & ->). exists (k' :: q).
          split; [done|]. by rewrite <- app_assoc. }
        split; [done|].
        intros mk h r b ob w Hagree Hbfp Hc Hb Hkb.
        assert (Hfplt : forall x, x ∈ fp1 -> x < length h).
        { intros x Hx. by eapply (agree_on_lt h0 (VDict c) t fp1). }
        assert (Hblt : b < length h) by (by eapply lookup_lt_Some).
        destruct below as [|[p1 v1] below'].
        + exists h, ob. split; [done|]. split; [done|].
          split; [by apply dict_set_new|done].
        + apply Forall_cons in Hshape as [(k' & q & Hp1) _].
          simpl in Hp1. rewrite <- app_assoc in Hp1. simpl in Hp1.
          remember (<[b:=ob ++ [(k, VDict (length h))]]> (h ++ [[]]))
            as h1 eqn:Hh1.
          assert (Hlen1 : length h1 = S (length h)).
          { subst h1. rewrite length_insert, length_app. simpl. lia. }
          assert (Hold1 : forall x, x < length h -> x ≠ b ->
                                    h1 !! x = h !! x).
          { intros x Hx Hxb. subst h1. rewrite lookup_store_ne by done.
            by apply lookup_alloc_old. }
          assert (Hb1 : h1 !! b = Some (ob ++ [(k, VDict (length h))])).
          { subst h1. apply lookup_store_eq. rewrite length_app. simpl. lia. }
          assert (He1 : h1 !! length h = Some []).
          { subst h1. rewrite lookup_store_ne by lia.
            apply lookup_alloc_fresh. }
          destruct (Hadds mk h1 r (length h) [] w) as
            (h2 & Hrun2 & He2 & Hframe2 & Hlen2).
          * intros x Hx. rewrite Hold1; [by apply Hagree | by apply Hfplt |].
            intros ->. done.
          * intros Hin. apply Hfplt in Hin. lia.
          * eapply chain_snoc; [| exact Hb1 | | lia].
            -- eapply chain_frame; [|exact Hc]. intros x Hx.
               apply Hold1; lia.
            -- rewrite dict_get_last.
               by rewrite (proj2 (dict_get_None ob k) Hkb).
          * done.
          * done.
          * exists h2, (ob ++ [(k, VDict (length h))]).
            split; [|split; [|split; [|split]]].
            -- simpl. simpl in Hrun2. subst p1.
               unfold bind at 1.
               rewrite (add_from_first h r pfx b ob k (k' :: q) v1 mk w)
                 by done.
               rewrite <- Hh1. exact Hrun2.
            -- rewrite Hframe2 by lia. done.
            -- by apply dict_set_last.
            -- intros x Hx Hxb. rewrite Hframe2 by lia. by apply Hold1.
            -- lia. }
    destruct Hbelow as (below & Hrunb & Hshapeb & Hndb & HstepA).
    destruct (IHo f pfx) as (rest & Hrunr & Hshaper & Hndr & Haddsr);
      [lia | done |].
    exists ((below ++ [(pfx ++ [k], v)]) ++ rest).
    split; [|split; [|split]].
    + intros h Hagree. apply yield_each_iter_cons.
      * apply Hrunb. intros x Hx. apply Hagree. set_solver.
      * apply Hrunr. intros x Hx. apply Hagree. set_solver.
    + rewrite !Forall_app. split; [split|].
      * eapply Forall_impl; [exact Hshapeb|].
        intros pv (q & _ & ->). exists k, q. split; [left | done].
      * constructor; [|constructor]. exists k, []. split; [left | done].
      * eapply Forall_impl; [exact Hshaper|].
        intros pv (k' & q & Hk' & ->). exists k', q. split; [by right | done].
    + rewrite !fmap_app. simpl. apply NoDup_app. split; [|split].
      * apply NoDup_app. split; [done|]. split; [|apply NoDup_singleton].
        intros p Hp Hp'. apply list_elem_of_singleton in Hp' as ->.
        apply list_elem_of_fmap in Hp as ([p' v'] & Hp1 & Hp2).
        rewrite Forall_forall in Hshapeb.
        destruct (Hshapeb _ Hp2) as (q & Hq & Hpq).
        simpl in Hp1, Hpq. rewrite <- Hp1 in Hpq.
        apply app_inv_head in Hpq. injection Hpq as Hq'. by subst q.
      * intros p Hp Hp'.
        apply list_elem_of_fmap in Hp' as ([p' v'] & Hp1 & Hp2).
        rewrite Forall_forall in Hshaper.
        destruct (Hshaper _ Hp2) as (k' & q' & Hk' & Hpq').
        simpl in *. subst p p'.
        assert (Hhead : exists q, pfx ++ k' :: q' = pfx ++ k :: q).
        { apply elem_of_app in Hp as [Hp|Hp].
          - apply list_elem_of_fmap in Hp as ([p'' v''] & Hp3 & Hp4).
            rewrite Forall_forall in Hshapeb.
            destruct (Hshapeb _ Hp4) as (q & _ & Hpq). simpl in *.
            exists q. congruence.
          - apply list_elem_of_singleton in Hp. exists [].
            by rewrite Hp. }
        destruct Hhead as (q & Hq). apply app_inv_head in Hq.
        injection Hq as -> _. done.
      * done.
    + intros mk h r b ob w Hagree Hbfp Hc Hb Hndo.
      rewrite fmap_cons in Hndo. simpl in Hndo.
      assert (Hfplt : forall x, x ∈ fp1 ∪ fp2 -> x < length h).
      { intros x Hx.
        eapply (agree_on_items_lt h0 ((k, v) :: o) ((k, t) :: es));
          [|exact Hagree|exact Hx].
        by apply own_cons. }
      assert (Hkb : k ∉ ob.*1).
      { apply NoDup_app in Hndo as (_ & Hndo & _).
        intros Hin. apply (Hndo k Hin). left. }
      assert (Hblt : b < length h) by (by eapply lookup_lt_Some).
      destruct (HstepA mk h r b ob w) as
        (hA & oA & HrunA & HbA & HsetA & HframeA & HlenA);
        [|set_solver | done | done | done |].
      { intros x Hx. apply Hagree. set_solver. }
      assert (Hrb : r <= b) by (by eapply chain_le).
      assert (HcA : chain hA r pfx b).
      { eapply chain_frame; [|exact Hc]. intros x Hx. apply HframeA; lia. }
      remember (<[b:=ob ++ [(k, v)]]> hA) as hB eqn:HhB.
      assert (HlenB : length hB = length hA).
      { subst hB. apply length_insert. }
      assert (HbB : hB !! b = Some (ob ++ [(k, v)])).
      { subst hB. apply lookup_store_eq. lia. }
      destruct (Haddsr mk hB r b (ob ++ [(k, v)]) w) as
        (h' & Hrun' & Hb' & Hframe' & Hlen').
      * intros x Hx. subst hB.
        assert (x ≠ b) by (intros ->; set_solver).
        rewrite lookup_store_ne by done.
        rewrite HframeA; [|apply Hfplt; set_solver|done].
        apply Hagree. set_solver.
      * set_solver.
      * eapply chain_frame; [|exact HcA]. intros x Hx. subst hB.
        apply lookup_store_ne. lia.
      * done.
      * rewrite fmap_app. simpl. by rewrite <- app_assoc.
      * exists h'. split; [|split; [|split]].
        -- rewrite foldM_app. unfold bind. rewrite foldM_app. unfold bind.
           rewrite HrunA.
           simpl. unfold bind.
           rewrite (add_from_last hA r pfx b oA k v mk w HcA HbA).
           unfold ret. rewrite HsetA, <- HhB. exact Hrun'.
        -- rewrite Hb'. by rewrite <- app_assoc.
        -- intros x Hx Hxb. rewrite Hframe' by lia. subst hB.
           rewrite lookup_store_ne by done. by apply HframeA.
        -- lia.
Qed.

(** ** Key paths that are all different are all kept *)

Lemma path_in_false p l :
  path_keys p ∉ path_keys <$> l -> path_in p l = false.
Proof.
  unfold path_in. induction l as [|q l IH]; simpl; [done|].
  rewrite not_elem_of_cons. intros [Hne Hni].
  rewrite bool_decide_eq_false_2 by congruence. by apply IH.
Qed.

Lemma merge_unique_nodup items : forall unique new,
  NoDup ((path_keys <$> unique) ++ items.*1) ->
  merge_unique (map (fun pv : list key * val => (PyList pv.1, pv.2)) items)
               unique new =
  new ++ map (fun pv : list key * val => (PyList pv.1, pv.2)) items.
Proof.
  induction items as [|[p v] items IH]; intros unique new Hnd; simpl.
  - by rewrite app_nil_r.
  - rewrite fmap_cons in Hnd. simpl in Hnd.
    rewrite path_in_false.
    + rewrite IH.
      * by rewrite <- app_assoc.
      * rewrite fmap_app. simpl. by rewrite <- app_assoc.
    + apply NoDup_app in Hnd as (_ & Hnd & _). intros Hin.
      apply (Hnd p Hin). left.
Qed.

Lemma paths_get_None unique p : p ∉ unique.*1 -> paths_get unique p = None.
Proof.
  induction unique as [|[q v] u IH]; simpl; [done|].
  rewrite not_elem_of_cons. intros [Hne Hni].
  rewrite bool_decide_eq_false_2 by congruence. by apply IH.
Qed.

Lemma collect_unique_nodup items : forall unique w h,
  NoDup (unique.*1 ++ items.*1) ->
  foldM collect_item
        (map (fun pv : list key * val => (PyTuple pv.1, pv.2)) items)
        (unique, w) h =
  Ret (unique ++ items, w) h.
Proof.
  induction items as [|[p v] items IH]; intros unique w h Hnd; simpl.
  - by rewrite app_nil_r.
  - rewrite fmap_cons in Hnd. simpl in Hnd.
    unfold bind. simpl. rewrite paths_get_None.
    + unfold ret. rewrite IH.
      * by rewrite <- app_assoc.
      * rewrite fmap_app. simpl. by rewrite <- app_assoc.
    + apply NoDup_app in Hnd as (_ & Hnd & _). intros Hin.
      apply (Hnd p Hin). left.
Qed.

(** Adding the key paths of a dictionary to an empty dictionary [r] gives
    [r] the items of the dictionary, in their order; the dictionaries
    under them are the objects of the input, not copies. *)
Lemma add_items_to_empty h a t fp fuel h1 r mk :
  own h (VDict a) t fp -> depth t <= fuel ->
  h `prefix_of` h1 -> h1 !! r = Some [] -> length h <= r ->
  exists items oa h2,
    h !! a = Some oa /\
    (forall h', h `prefix_of` h' ->
                iter_step fuel (VDict a) [] h' = Ret items h') /\
    NoDup items.*1 /\
    foldM (add_from (VDict r) mk) items [] h1 = Ret [] h2 /\
    h2 !! r = Some oa /\
    (forall x, x < length h1 -> x ≠ r -> h2 !! x = h1 !! x) /\
    length h1 <= length h2.
Proof.
  intros Hown Hfuel Hpre Hr Hlen.
  destruct (proj1 (linearize_and_add h) _ _ _ Hown a eq_refl fuel [] Hfuel)
    as (items & oa & Hoa & Hiter & _ & Hnd & Hadds).
  destruct (own_dict_inv _ _ _ _ Hown) as (oa' & Hoa' & Hndo).
  assert (oa' = oa) by congruence. subst oa'.
  assert (Hag : forall h', h `prefix_of` h' -> agree_on fp h h').
  { intros h' Hp x Hx. apply prefix_lookup_lt; [done|].
    by eapply (proj1 (own_bound h)). }
  destruct (Hadds mk h1 r r [] []) as (h2 & Hrun & Hr2 & Hframe & Hlen2).
  - by apply Hag.
  - intros Hin. apply (proj1 (own_bound h) _ _ _ Hown) in Hin. lia.
  - done.
  - done.
  - done.
  - exists items, oa, h2. split; [done|]. split; [by auto|]. done.
Qed.

Lemma own_shallow_copy h h' a r t fp :
  own h (VDict a) t fp -> h `prefix_of` h' -> h' !! r = h !! a ->
  length h <= r ->
  exists fp', own h' (VDict r) t fp'.
Proof.
  intros Hown Hpre Hr Hlen. inversion Hown as [|a' o es fpi Ha Hnd Hit]; subst.
  exists ({[r]} ∪ fpi). apply own_dict with (o := o).
  - by rewrite Hr.
  - done.
  - eapply (proj2 (own_frame h)); [done|]. intros x Hx.
    apply prefix_lookup_lt; [done|]. by eapply (proj2 (own_bound h)).
  - intros Hin. apply (proj2 (own_bound h) _ _ _ Hit) in Hin. lia.
Qed.

(** ** Merging one dictionary *)

(** C2: merging the one-element sequence that holds a dictionary returns,
    without a warning, a new dictionary that denotes the same tree as the
    input, keys in the same order.  (The new dictionary has the items of
    the input: the dictionaries under it are those of the input, which the
    call leaves as they were.) *)
Theorem recursive_merge_dicts_single h a t fp fuel :
  own h (VDict a) t fp ->
  depth t <= fuel ->
  exists h' r fp',
    recursive_merge_dicts fuel [VDict a] h = Ret (VDict r, []) h' /\
    own h' (VDict r) t fp' /\
    h `prefix_of` h' /\
    length h <= r /\
    h' !! r = h !! a.
Proof.
  intros Hown Hfuel.
  set (m := length h). set (h1 := h ++ [[]]).
  assert (Hpre1 : h `prefix_of` h1) by apply prefix_snoc.
  assert (Hm1 : h1 !! m = Some []) by apply lookup_alloc_fresh.
  destruct (add_items_to_empty h a t fp fuel h1 m PyList Hown Hfuel Hpre1 Hm1)
    as (items & oa & h2 & Hoa & Hiter & Hnd & Hrun & Hm2 & Hframe & Hlen2);
    [done|].
  assert (Hlen1 : length h1 = S (length h)).
  { unfold h1. rewrite length_app. simpl. lia. }
  assert (Hpre3 : h `prefix_of` h2 ++ [oa]).
  { apply prefix_of_lookup. intros x Hx.
    rewrite lookup_alloc_old by lia.
    rewrite Hframe by (unfold m; lia). by apply lookup_alloc_old. }
  assert (Hr3 : (h2 ++ [oa]) !! length h2 = h !! a).
  { rewrite Hoa. apply lookup_alloc_fresh. }
  destruct (own_shallow_copy h (h2 ++ [oa]) a (length h2) t fp)
    as (fp' & Hown'); [done | done | done | lia |].
  exists (h2 ++ [oa]), (length h2), fp'.
  split; [|split; [done|split; [done|split; [lia|done]]]].
  unfold recursive_merge_dicts. unfold alloc at 1, bind at 1. fold m h1.
  assert (Hyield : yield_each [VDict a] (recursive_iter_key_paths fuel) h1 =
    Ret (map (fun pv : list key * val => (PyList pv.1, pv.2)) items) h1).
  { simpl. unfold recursive_iter_key_paths, bind, ret.
    rewrite (Hiter h1 Hpre1). by rewrite app_nil_r. }
  mrun Hyield.
  rewrite (merge_unique_nodup items [] []) by done. simpl.
  assert (Hadd : add_all (VDict m)
            (map (fun pv : list key * val => (PyList pv.1, pv.2)) items) []
            h1 = Ret [] h2).
  { rewrite (add_all_from (VDict m) PyList) by done. exact Hrun. }
  mrun Hadd. mload Hm2. reflexivity.
Qed.

Lemma recursive_merge_dicts_single_example :
  exists h' r fp',
    recursive_merge_dicts 3 [d_example] h_example = Ret (VDict r, []) h' /\
    own h' (VDict r) T_example fp' /\
    h_example `prefix_of` h' /\
    length h_example <= r /\
    h' !! r = h_example !! 3.
Proof.
  apply (recursive_merge_dicts_single h_example 3 T_example fp_example 3).
  - apply own_example.
  - vm_compute. lia.
Defined.

(** ** Building from the key paths of a dictionary *)

(** C1: on the running example,
    [recursive_build(recursive_iter_key_paths(T))] does not return the
    dictionary [T], nor any dictionary, whatever the fuel: the generator
    yields its key paths as lists, [recursive_build] looks each key path
    up in a dictionary, and hashing the first one raises [TypeError]
    after the empty result has been created. *)
Lemma build_of_iter_example_raises :
  ~ (exists fuel r w h', build_of_iter fuel d_example h_example =
                         Ret (r, w) h') /\
  build_of_iter 3 d_example h_example =
    Raise (TypeError Unhashable) (h_example ++ [[]]).
Proof.
  split; [|reflexivity].
  intros (fuel & r & w & h' & H).
  destruct fuel as [|[|[|fuel]]]; vm_compute in H; discriminate.
Qed.

(** ** The two traversals are the common one *)

Lemma for_each_ext {A} (l : list A) (f g : A -> M unit) :
  (forall x h, f x h = g x h) -> forall h, for_each l f h = for_each l g h.
Proof.
  intros Hfg. induction l as [|x l IH]; intros h; simpl; [done|].
  unfold bind. rewrite Hfg. destruct (g x h); [apply IH | done | done].
Qed.



Lemma map_step_dict f a func keys permissive n :
  map_step (S f) (VDict a) func keys permissive n =
  (let* items := load a in
   foldM (map_item (fun d' n' => map_step f d' func keys permissive n')
                   a func keys permissive) items n).
Proof. reflexivity. Qed.

(** Whatever the function does, [recursive_map_dict] writes to the
    dictionaries it visits only, and is not stuck on a tree. *)
Lemma map_step_writes func keys permissive h0 :
  (forall v t fp, own h0 v t fp ->
     forall fuel h n, agree_on fp h0 h -> depth t <= fuel ->
     writes_within fp h (map_step fuel v func keys permissive n h)) /\
  (forall o es fp, own_items h0 o es fp ->
     forall f h n a, agree_on fp h0 h -> a ∉ fp -> a < length h ->
     depth_items es <= f ->
     writes_within ({[a]} ∪ fp) h
       (foldM (map_item (fun d' n' => map_step f d' func keys permissive n')
                        a func keys permissive) o n h)).
Proof.
  apply own_mutind.
  - (* a leaf *)
    intros z fuel h n _ _. by destruct fuel.
  - (* a dictionary *)
    intros a o es fp Ha Hnd _ IH Hni fuel h n Hagree Hfuel.
    rewrite depth_Branch in Hfuel. destruct fuel as [|f]; [lia|].
    rewrite map_step_dict.
    assert (Hha : h !! a = Some o) by (rewrite Hagree; [done|set_solver]).
    mload Hha. apply IH; [|done| |lia].
    + intros x Hx. apply Hagree. set_solver.
    + by eapply lookup_lt_Some.
  - (* no item *)
    intros f h n a _ _ _ _. by simpl.
  - (* one more item *)
    intros k v t o es fp1 fp2 Hv IHv _ IHo Hdisj f h n a Hagree Hni Ha Hf.
    rewrite depth_items_cons in Hf. cbn [foldM].
    set (body := map_item (fun d' n' => map_step f d' func keys permissive n')
                          a func keys permissive).
    assert (Hnext : forall m h1,
              (forall x, x ∉ {[a]} ∪ fp1 -> h1 !! x = h !! x) ->
              length h1 = length h ->
              writes_within ({[a]} ∪ (fp1 ∪ fp2)) h (foldM body o m h1)).
    { intros m h1 Hfr Hlen.
      assert (H2 : writes_within ({[a]} ∪ fp2) h1 (foldM body o m h1)).
      { apply (IHo f h1 m a); [|set_solver|lia|lia].
        intros x Hx. rewrite Hfr by set_solver. apply Hagree. set_solver. }
      destruct (foldM body o m h1) as [r h2|e h2|]; simpl in *; [| |done].
      - destruct H2 as [Hfr2 Hlen2]. split; [|lia].
        intros x Hx. rewrite Hfr2 by set_solver. apply Hfr. set_solver.
      - destruct H2 as [Hfr2 Hlen2]. split; [|lia].
        intros x Hx. rewrite Hfr2 by set_solver. apply Hfr. set_solver. }
    unfold bind. unfold body at 1. unfold map_item. cbn [fst snd].
    destruct Hv as [z|b ob esb fpb Hb Hndb Hitemsb Hnib].
    + (* the value of the item is a leaf *)
      destruct (lookup_lt_is_Some_2 h a Ha) as [oa Hoa].
      unfold bind. rewrite (load_Some _ _ _ Hoa).
      destruct (in_sel_keys keys oa k).
      * destruct (func n z) as [z1|].
        -- destruct (func (S n) z) as [z2|].
           ++ rewrite (store_Some _ _ _ _ Hoa).
              unfold ret. apply Hnext; [|by rewrite length_insert].
              intros x Hx. apply lookup_store_ne. set_solver.
           ++ by simpl.
        -- destruct permissive; [by apply Hnext | by simpl].
      * by apply Hnext.
    + (* the value of the item is a dictionary *)
      pose proof (IHv f h n) as H1.
      assert (Hag1 : agree_on ({[b]} ∪ fpb) h0 h)
        by (intros x Hx; apply Hagree; set_solver).
      specialize (H1 Hag1 ltac:(lia)).
      destruct (map_step f (VDict b) func keys permissive n h)
        as [r h1|e h1|]; simpl in H1; [| |done].
      * destruct H1 as [Hfr1 Hlen1]. apply Hnext; [|done].
        intros x Hx. apply Hfr1. set_solver.
      * destruct H1 as [Hfr1 Hlen1]. simpl. split; [|done].
        intros x Hx. apply Hfr1. set_solver.
Qed.

Lemma map_step_touches func keys permissive h v t fp fuel n :
  own h v t fp -> depth t <= fuel ->
  touches_only fp h (map_step fuel v func keys permissive n h).
Proof.
  intros Hown Hfuel.
  pose proof (proj1 (map_step_writes func keys permissive h) _ _ _ Hown fuel h n
                (fun x _ => eq_refl) Hfuel) as Hw.
  destruct (map_step fuel v func keys permissive n h) as [r h'|e h'|];
    simpl in *; [| |done].
  - destruct Hw as [Hfr Hlen]. split; [|lia]. intros x _ Hx. by apply Hfr.
  - destruct Hw as [Hfr Hlen]. split; [|lia]. intros x _ Hx. by apply Hfr.
Qed.

Lemma filter_step_visit func keys permissive fuel : forall d h,
  filter_step fuel d func keys permissive h =
  visit_step fuel d (filter_action func permissive) keys h.
Proof.
  induction fuel as [|f IH]; intros [z|a] h; try reflexivity.
  simpl. unfold bind. destruct (load a h) as [o h'| |]; [|done|done].
  apply for_each_ext. intros [k [z|c]] h1; unfold visit_item; simpl.
  - unfold visit_leaf, bind, filter_action.
    destruct (load a h1) as [o1 h2| |]; [|done|done].
    destruct (in_sel_keys keys o1 k); [|done].
    by destruct (func z); [| | |destruct permissive].
  - apply IH.
Qed.

Lemma visit_step_dict f a act keys :
  visit_step (S f) (VDict a) act keys =
  (let* items := load a in
   for_each items (visit_item (fun d' => visit_step f d' act keys) a act keys)).
Proof. reflexivity. Qed.

Lemma visit_tree_Branch act keys es :
  visit_tree act keys (Branch es) =
  match visit_items act keys es with
  | inl es' => inl (Branch es')
  | inr e => inr e
  end.
Proof. reflexivity. Qed.

Lemma visit_items_dict act keys k es1 rest :
  visit_items act keys ((k, Branch es1) :: rest) =
  match visit_tree act keys (Branch es1) with
  | inl t'' =>
      match visit_items act keys rest with
      | inl r => inl ((k, t'') :: r)
      | inr e => inr e
      end
  | inr e => inr e
  end.
Proof. reflexivity. Qed.

Lemma visit_items_leaf act keys k z rest :
  visit_items act keys ((k, Leaf z) :: rest) =
  match (if sel_keys keys k then act z else Keep) with
  | Keep =>
      match visit_items act keys rest with
      | inl r => inl ((k, Leaf z) :: r)
      | inr e => inr e
      end
  | SetTo z' =>
      match visit_items act keys rest with
      | inl r => inl ((k, Leaf z') :: r)
      | inr e => inr e
      end
  | Delete => visit_items act keys rest
  | Fail e => inr e
  end.
Proof. reflexivity. Qed.

Lemma dict_get_middle o1 k v o2 :
  k ∉ o1.*1 -> dict_get (o1 ++ (k, v) :: o2) k = Some v.
Proof.
  intros Hk. rewrite dict_get_app, (proj2 (dict_get_None o1 k) Hk).
  simpl. by rewrite Z.eqb_refl.
Qed.

Lemma dict_set_middle o1 k v w o2 :
  k ∉ o1.*1 -> dict_set (o1 ++ (k, v) :: o2) k w = o1 ++ (k, w) :: o2.
Proof.
  induction o1 as [|[k1 v1] o1 IH]; simpl.
  - by rewrite Z.eqb_refl.
  - rewrite not_elem_of_cons. intros [Hne Hni].
    destruct (Z.eqb_spec k1 k) as [->|_]; [done|]. by rewrite IH.
Qed.

Lemma dict_del_middle o1 k v o2 :
  k ∉ o1.*1 -> dict_del (o1 ++ (k, v) :: o2) k = o1 ++ o2.
Proof.
  induction o1 as [|[k1 v1] o1 IH]; simpl.
  - by rewrite Z.eqb_refl.
  - rewrite not_elem_of_cons. intros [Hne Hni].
    destruct (Z.eqb_spec k1 k) as [->|_]; [done|]. by rewrite IH.
Qed.

Lemma in_sel_keys_present keys o k :
  dict_mem k o = true -> in_sel_keys keys o k = sel_keys keys k.
Proof. intros H. unfold in_sel_keys, sel_keys. by destruct keys as [[|]|]. Qed.

(** ** The common traversal on a tree in the store *)

Lemma nodup_middle (l1 : list Z) k l2 :
  NoDup (l1 ++ k :: l2) ->
  (k ∉ l1) /\ NoDup ((l1 ++ [k]) ++ l2) /\ NoDup (l1 ++ l2).
Proof.
  intros H. split; [|split].
  - apply NoDup_app in H as (_ & H & _). intros Hin. apply (H k Hin). left.
  - by rewrite <- app_assoc.
  - apply NoDup_app in H as (H1 & H2 & H3). apply NoDup_cons in H3 as [_ H3].
    apply NoDup_app. split; [done|]. split; [|done].
    intros x Hx Hx'. apply (H2 x Hx). by right.
Qed.

Lemma visit_leaf_run act keys h a done_o k z o :
  h !! a = Some (done_o ++ (k, VLeaf z) :: o) ->
  k ∉ done_o.*1 ->
  visit_leaf a act keys k z h =
  match (if sel_keys keys k then act z else Keep) with
  | Keep => Ret tt h
  | SetTo z' => Ret tt (<[a:=done_o ++ (k, VLeaf z') :: o]> h)
  | Delete => Ret tt (<[a:=done_o ++ o]> h)
  | Fail e => Raise e h
  end.
Proof.
  intros Ha Hk. unfold visit_leaf. mload Ha.
  rewrite in_sel_keys_present
    by (unfold dict_mem; by rewrite dict_get_middle).
  destruct (sel_keys keys k); [|done].
  destruct (act z) as [|z'| |e]; [done| | |done].
  - by rewrite (store_Some _ _ _ _ Ha), dict_set_middle.
  - by rewrite (store_Some _ _ _ _ Ha), dict_del_middle.
Qed.

Lemma visit_own act keys h0 :
  (forall v t fp, own h0 v t fp ->
     forall fuel h, agree_on fp h0 h -> depth t <= fuel ->
     visited v fp h (visit_step fuel v act keys h) (visit_tree act keys t)) /\
  (forall o es fp, own_items h0 o es fp ->
     forall f h a done_o,
       agree_on fp h0 h -> a ∉ fp ->
       h !! a = Some (done_o ++ o) -> NoDup (done_o ++ o).*1 ->
       depth_items es <= f ->
       match visit_items act keys es with
       | inl es' =>
           exists h' o',
             for_each o (visit_item (fun d' => visit_step f d' act keys)
                                    a act keys) h = Ret tt h' /\
             h' !! a = Some (done_o ++ o') /\
             own_items h' o' es' fp /\
             o'.*1 `sublist_of` o.*1 /\
             (forall x, x ∉ fp -> x ≠ a -> h' !! x = h !! x) /\
             length h' = length h
       | inr e =>
           exists h',
             for_each o (visit_item (fun d' => visit_step f d' act keys)
                                    a act keys) h = Raise e h' /\
             (forall x, x ∉ fp -> x ≠ a -> h' !! x = h !! x) /\
             length h' = length h
       end).
Proof.
  apply own_mutind.
  - (* a leaf *)
    intros z fuel h _ _. exists h. destruct fuel; simpl;
      (split; [done|]); (split; [constructor|done]).
  - (* a dictionary *)
    intros a o es fp Ha Hnd _ IH Hni fuel h Hagree Hfuel.
    rewrite depth_Branch in Hfuel. destruct fuel as [|f]; [lia|].
    assert (Hha : h !! a = Some o) by (rewrite Hagree; [done|set_solver]).
    rewrite visit_step_dict, visit_tree_Branch. mload Hha.
    specialize (IH f h a []). simpl in IH.
    specialize (IH (fun x Hx => Hagree x (elem_of_union_r _ _ _ Hx))
                   Hni Hha Hnd ltac:(lia)).
    destruct (visit_items act keys es) as [es'|e]; simpl.
    + destruct IH as (h' & o' & Hrun & Ha' & Hown & Hsub & Hframe & Hlen).
      exists h'. split; [done|]. split; [|split; [|done]].
      * apply own_dict with (o := o'); [done| |done|done].
        by eapply sublist_NoDup.
      * intros x Hx. apply Hframe; set_solver.
    + destruct IH as (h' & Hrun & Hframe & Hlen).
      exists h'. split; [done|]. split; [|done].
      intros x Hx. apply Hframe; set_solver.
  - (* no item *)
    intros f h a done_o _ _ Ha _ _. simpl. exists h, [].
    split; [done|]. split; [done|]. split; [constructor|]. done.
  - (* an item, then the others *)
    intros k v t o es fp1 fp2 Hv IHv Ho IHo Hdisj f h a done_o Hagree Hafp Ha
      Hnd Hfuel.
    rewrite depth_items_cons in Hfuel.
    rewrite fmap_app, fmap_cons in Hnd. simpl in Hnd.
    destruct (nodup_middle _ _ _ Hnd) as (Hk & Hnd1 & Hnd2).
    assert (Halt : a < length h) by (by eapply lookup_lt_Some).
    assert (Hag2 : agree_on fp2 h0 h).
    { intros x Hx. apply Hagree. set_solver. }
    set (body := visit_item (fun d' => visit_step f d' act keys) a act keys)
      in *.
    destruct Hv as [z|c oc esc fpc Hc Hndc Hitc Hcni].
    + (* a leaf *)
      rewrite visit_items_leaf.
      assert (Hfe : for_each ((k, VLeaf z) :: o) body h =
        match (if sel_keys keys k then act z else Keep) with
        | Keep => for_each o body h
        | SetTo z' => for_each o body (<[a:=done_o ++ (k, VLeaf z') :: o]> h)
        | Delete => for_each o body (<[a:=done_o ++ o]> h)
        | Fail e => Raise e h
        end).
      { simpl. unfold bind. unfold body at 1, visit_item. simpl.
        rewrite (visit_leaf_run act keys h a done_o k z o Ha Hk).
        by destruct (if sel_keys keys k then act z else Keep). }
      rewrite Hfe. clear Hfe.
      destruct (if sel_keys keys k then act z else Keep) as [|z'| |e].
      * specialize (IHo f h a (done_o ++ [(k, VLeaf z)])).
        rewrite <- app_assoc in IHo. simpl in IHo.
        specialize (IHo Hag2 ltac:(set_solver) Ha).
        rewrite fmap_app, fmap_cons in IHo. simpl in IHo.
        specialize (IHo Hnd ltac:(lia)).
        destruct (visit_items act keys es) as [es'|e].
        -- destruct IHo as (h' & o' & Hrun & Ha' & Hown & Hsub & Hfr & Hlen).
           exists h', ((k, VLeaf z) :: o').
           split; [done|]. split; [by rewrite <- app_assoc in Ha'|].
           split; [|split; [|split; [|done]]].
           ++ apply own_cons_leaf.
              by replace (∅ ∪ fp2) with fp2 by set_solver.
           ++ rewrite !fmap_cons. simpl. by apply sublist_skip.
           ++ intros x Hx. apply Hfr. set_solver.
        -- destruct IHo as (h' & Hrun & Hfr & Hlen).
           exists h'. split; [done|]. split; [|done].
           intros x Hx. apply Hfr. set_solver.
      * set (h1 := <[a:=done_o ++ (k, VLeaf z') :: o]> h).
        assert (Hlen1 : length h1 = length h) by apply length_insert.
        assert (Ha1 : h1 !! a = Some (done_o ++ (k, VLeaf z') :: o))
          by (by apply lookup_store_eq).
        assert (Hfr1 : forall x, x ≠ a -> h1 !! x = h !! x).
        { intros x Hx. by apply lookup_store_ne. }
        specialize (IHo f h1 a (done_o ++ [(k, VLeaf z')])).
        rewrite <- app_assoc in IHo. simpl in IHo.
        assert (Hag1 : agree_on fp2 h0 h1).
        { intros x Hx. rewrite Hfr1 by (intros ->; set_solver).
          by apply Hag2. }
        specialize (IHo Hag1 ltac:(set_solver) Ha1).
        rewrite fmap_app, fmap_cons in IHo. simpl in IHo.
        specialize (IHo Hnd ltac:(lia)).
        destruct (visit_items act keys es) as [es'|e].
        -- destruct IHo as (h' & o' & Hrun & Ha' & Hown & Hsub & Hfr & Hlen).
           exists h', ((k, VLeaf z') :: o').
           split; [done|]. split; [by rewrite <- app_assoc in Ha'|].
           split; [|split; [|split]].
           ++ apply own_cons_leaf.
              by replace (∅ ∪ fp2) with fp2 by set_solver.
           ++ rewrite !fmap_cons. simpl. by apply sublist_skip.
           ++ intros x Hx Hxa. rewrite Hfr by set_solver. by apply Hfr1.
           ++ lia.
        -- destruct IHo as (h' & Hrun & Hfr & Hlen).
           exists h'. split; [done|]. split; [|lia].
           intros x Hx Hxa. rewrite Hfr by set_solver. by apply Hfr1.
      * set (h1 := <[a:=done_o ++ o]> h).
        assert (Hlen1 : length h1 = length h) by apply length_insert.
        assert (Ha1 : h1 !! a = Some (done_o ++ o))
          by (by apply lookup_store_eq).
        assert (Hfr1 : forall x, x ≠ a -> h1 !! x = h !! x).
        { intros x Hx. by apply lookup_store_ne. }
        assert (Hag1 : agree_on fp2 h0 h1).
        { intros x Hx. rewrite Hfr1 by (intros ->; set_solver).
          by apply Hag2. }
        specialize (IHo f h1 a done_o Hag1 ltac:(set_solver) Ha1).
        rewrite fmap_app in IHo. specialize (IHo Hnd2 ltac:(lia)).
        destruct (visit_items act keys es) as [es'|e].
        -- destruct IHo as (h' & o' & Hrun & Ha' & Hown & Hsub & Hfr & Hlen).
           exists h', o'.
           split; [done|]. split; [done|]. split; [|split; [|split]].
           ++ by replace (∅ ∪ fp2) with fp2 by set_solver.
           ++ rewrite fmap_cons. simpl. by apply sublist_cons.
           ++ intros x Hx Hxa. rewrite Hfr by set_solver. by apply Hfr1.
           ++ lia.
        -- destruct IHo as (h' & Hrun & Hfr & Hlen).
           exists h'. split; [done|]. split; [|lia].
           intros x Hx Hxa. rewrite Hfr by set_solver. by apply Hfr1.
      * exists h. done.
    + (* a dictionary *)
      rewrite visit_items_dict.
      assert (Hfe : for_each ((k, VDict c) :: o) body h =
        match visit_step f (VDict c) act keys h with
        | Ret _ h1 => for_each o body h1
        | Raise e h1 => Raise e h1
        | Stuck => Stuck
        end) by reflexivity.
      rewrite Hfe. clear Hfe.
      specialize (IHv f h (fun x Hx => Hagree x (elem_of_union_l _ _ _ Hx))
                      ltac:(lia)).
      destruct (visit_tree act keys (Branch esc)) as [t'|e]; simpl in IHv.
      * destruct IHv as (h1 & Hrun1 & Hown1 & Hfr1 & Hlen1).
        rewrite Hrun1.
        assert (Ha1 : h1 !! a = Some ((done_o ++ [(k, VDict c)]) ++ o)).
        { rewrite Hfr1 by set_solver. by rewrite <- app_assoc. }
        assert (Hag1 : agree_on fp2 h0 h1).
        { intros x Hx. rewrite Hfr1 by set_solver. by apply Hag2. }
        specialize (IHo f h1 a (done_o ++ [(k, VDict c)]) Hag1
                        ltac:(set_solver) Ha1).
        rewrite <- app_assoc in IHo. simpl in IHo.
        rewrite fmap_app, fmap_cons in IHo. simpl in IHo.
        specialize (IHo Hnd ltac:(lia)).
        destruct (visit_items act keys es) as [es'|e].
        -- destruct IHo as (h' & o' & Hrun & Ha' & Hown & Hsub & Hfr & Hlen).
           exists h', ((k, VDict c) :: o').
           split; [done|]. split; [by rewrite <- app_assoc in Ha'|].
           split; [|split; [|split]].
           ++ constructor; [|done|done].
              eapply (proj1 (own_frame h1)); [done|].
              intros x Hx. apply Hfr; set_solver.
           ++ rewrite !fmap_cons. simpl. by apply sublist_skip.
           ++ intros x Hx Hxa. rewrite Hfr by set_solver.
              apply Hfr1. set_solver.
           ++ lia.
        -- destruct IHo as (h' & Hrun & Hfr & Hlen).
           exists h'. split; [done|]. split; [|lia].
           intros x Hx Hxa. rewrite Hfr by set_solver.
           apply Hfr1. set_solver.
      * destruct IHv as (h1 & Hrun1 & Hfr1 & Hlen1).
        rewrite Hrun1. exists h1. split; [done|]. split; [|done].
        intros x Hx _. apply Hfr1. set_solver.
Qed.

(** ** What a walk along a key path may write *)

Lemma touches_only_mono {A} (fp fp' : gset addr) h (out : outcome A) :
  fp ⊆ fp' -> touches_only fp h out -> touches_only fp' h out.
Proof.
  intros Hsub. destruct out as [r h'|e h'|]; simpl; [| |done];
    intros [H1 H2]; (split; [|done]); intros x Hx Hni; apply H1;
    set_solver.
Qed.

Lemma touches_only_same {A} (fp : gset addr) h (r : A) :
  touches_only fp h (Ret r h).
Proof. by split. Qed.

Lemma own_items_dict_get h o es fp k v :
  own_items h o es fp -> dict_get o k = Some v ->
  exists t fp', own h v t fp' /\ fp' ⊆ fp /\ depth t <= depth_items es.
Proof.
  induction 1 as [|k' v' t' o es fp1 fp2 Hv Ho IH Hd]; [done|].
  rewrite depth_items_cons. simpl. destruct (Z.eqb k' k).
  - intros [= ->]. exists t', fp1. split; [done|]. split; [set_solver | lia].
  - intros Hget. destruct (IH Hget) as (t & fp' & ? & ? & ?).
    exists t, fp'. split; [done|]. split; [set_solver | lia].
Qed.

Lemma own_empty_dict (h : heap) e : h !! e = Some [] ->
  own h (VDict e) (Branch []) ({[e]} ∪ ∅).
Proof.
  intros He.
  apply own_dict with (o := []); [done | constructor | constructor |].
  set_solver.
Qed.

Lemma add_step_touches path : forall h d t fp value init,
  own h d t fp -> touches_only fp h (add_step d path value init h).
Proof.
  induction path as [|k rest IH]; intros h d t fp value init Hown.
  - destruct d; simpl; by split.
  - destruct Hown as [z|a o es fpi Ha Hnd Hit Hni].
    { destruct rest; simpl; by split. }
    assert (Halt : a < length h) by (by eapply lookup_lt_Some).
    destruct rest as [|k' rest].
    + rewrite add_step_last. mload Ha. mstore Ha. simpl.
      split; [|by rewrite length_insert].
      intros x Hx Hni'. apply lookup_store_ne. set_solver.
    + rewrite add_step_cons. mload Ha.
      destruct (dict_get o k) as [v|] eqn:Hk.
      * unfold dict_mem. rewrite Hk. unfold ret at 1, bind at 1.
        mload Ha. rewrite Hk.
        destruct (own_items_dict_get _ _ _ _ _ _ Hit Hk)
          as (t' & fp' & Hv & Hsub & _).
        eapply touches_only_mono; [|by eapply IH]. set_solver.
      * unfold dict_mem. rewrite Hk.
        unfold alloc at 1, bind at 2 1.
        rewrite store_lt by (rewrite length_app; simpl; lia).
        rewrite dict_set_new by (by apply dict_get_None).
        set (e := length h).
        set (h2 := <[a:=o ++ [(k, VDict e)]]> (h ++ [[]])).
        assert (Hlen2 : length h2 = S (length h)).
        { unfold h2. rewrite length_insert, length_app. simpl. lia. }
        assert (Ha2 : h2 !! a = Some (o ++ [(k, VDict e)])).
        { unfold h2. apply lookup_store_eq. rewrite length_app. simpl. lia. }
        assert (He2 : h2 !! e = Some []).
        { unfold h2. rewrite lookup_store_ne by (unfold e; lia).
          apply lookup_alloc_fresh. }
        rewrite (bind_Ret (load a) _ h2 _ _ (load_Some h2 a _ Ha2)).
        rewrite dict_get_last, Hk.
        pose proof (IH h2 (VDict e) _ _ value init (own_empty_dict h2 e He2))
          as Hrec.
        destruct (add_step (VDict e) (k' :: rest) value init h2)
          as [w h'|ex h'|]; simpl in *; [| |done].
        -- destruct Hrec as [H1 H2]. split; [|lia].
           intros x Hx Hni'. rewrite H1 by (unfold e; set_solver by lia).
           unfold h2. rewrite lookup_store_ne by set_solver.
           by apply lookup_alloc_old.
        -- destruct Hrec as [H1 H2]. split; [|lia].
           intros x Hx Hni'. rewrite H1 by (unfold e; set_solver by lia).
           unfold h2. rewrite lookup_store_ne by set_solver.
           by apply lookup_alloc_old.
Qed.

Lemma replace_step_touches path : forall h d t fp value kpl,
  own h d t fp -> touches_only fp h (replace_step d path value kpl h).
Proof.
  induction path as [|k rest IH]; intros h d t fp value kpl Hown.
  - simpl. by split.
  - destruct rest as [|k' rest].
    + destruct Hown as [z|a o es fpi Ha Hnd Hit Hni]; simpl; [by split|].
      mload Ha. destruct (dict_mem k o); [|by split].
      rewrite (store_Some _ _ _ _ Ha). simpl.
      split; [|by rewrite length_insert].
      intros x Hx Hni'. apply lookup_store_ne. set_solver.
    + rewrite replace_step_cons.
      destruct Hown as [z|a o es fpi Ha Hnd Hit Hni]; [by split|].
      mload Ha. destruct (dict_get o k) as [v|] eqn:Hk; [|by split].
      destruct (own_items_dict_get _ _ _ _ _ _ Hit Hk)
        as (t' & fp' & Hv & Hsub & _).
      eapply touches_only_mono; [|by eapply IH]. set_solver.
Qed.

Lemma py_eq_total h :
  (forall x tx fpx, own h x tx fpx ->
     forall fuel y ty fpy, own h y ty fpy -> depth tx <= fuel ->
     exists b, py_eq fuel h x y = Some b) /\
  (forall oa es fp, own_items h oa es fp ->
     forall f ob esb fpb, own_items h ob esb fpb -> depth_items es <= f ->
     exists b, all_items (py_eq f h) ob oa = Some b).
Proof.
  apply own_mutind.
  - intros z fuel [z'|b] ty fpy _ _; destruct fuel; simpl; eauto.
  - intros a o es fp Ha Hnd _ IH _ fuel y ty fpy Hy Hfuel.
    rewrite depth_Branch in Hfuel. destruct fuel as [|f]; [lia|].
    destruct Hy as [z|b ob esb fpb Hb Hndb Hitb _]; simpl; [eauto|].
    rewrite Ha, Hb. destruct (negb _); [eauto|].
    eapply IH; [done | lia].
  - intros f ob esb fpb _ _. simpl. eauto.
  - intros k v t o es fp1 fp2 _ IHv _ IHo _ f ob esb fpb Hob Hfuel.
    rewrite depth_items_cons in Hfuel. simpl.
    destruct (dict_get ob k) as [w|] eqn:Hk; [|eauto].
    destruct (own_items_dict_get _ _ _ _ _ _ Hob Hk) as (tw & fpw & Hw & _).
    destruct (IHv f w tw fpw Hw) as [b Hb]; [lia|]. rewrite Hb.
    destruct b; [|eauto]. eapply IHo; [done | lia].
Qed.

Lemma remove_step_touches fuel path : forall h d t fp value tv fpv kpl,
  own h d t fp -> depth t <= fuel -> own h value tv fpv ->
  touches_only fp h (remove_step fuel d path value kpl h).
Proof.
  induction path as [|k rest IH];
    intros h d t fp value tv fpv kpl Hown Hfuel Hval.
  - destruct d; simpl; by split.
  - destruct Hown as [z|a o es fpi Ha Hnd Hit Hni]; [by split|].
    rewrite depth_Branch in Hfuel.
    destruct rest as [|k' rest].
    + simpl. mload Ha. destruct (dict_get o k) as [v|] eqn:Hk; [|by split].
      destruct (own_items_dict_get _ _ _ _ _ _ Hit Hk)
        as (t' & fp' & Hv & Hsub & Hd).
      destruct (proj1 (py_eq_total h) _ _ _ Hv fuel value tv fpv Hval)
        as [b Hb]; [lia|].
      unfold eq_values at 1, bind at 1. rewrite Hb.
      destruct b; [|by split].
      rewrite (store_Some _ _ _ _ Ha). simpl.
      split; [|by rewrite length_insert].
      intros x Hx Hni'. apply lookup_store_ne. set_solver.
    + rewrite remove_step_cons. mload Ha.
      destruct (dict_get o k) as [v|] eqn:Hk; [|by split].
      destruct (own_items_dict_get _ _ _ _ _ _ Hit Hk)
        as (t' & fp' & Hv & Hsub & Hd).
      eapply touches_only_mono; [|eapply IH; [done | lia | done]].
      set_solver.
Qed.

Lemma visit_step_touches act keys h v t fp fuel :
  own h v t fp -> depth t <= fuel ->
  touches_only fp h (visit_step fuel v act keys h).
Proof.
  intros Hown Hfuel.
  pose proof (proj1 (visit_own act keys h) _ _ _ Hown fuel h
                (fun x _ => eq_refl) Hfuel) as Hv.
  unfold visited in Hv. destruct (visit_tree act keys t) as [t'|e].
  - destruct Hv as (h' & -> & _ & Hfr & Hlen). simpl.
    split; [|lia]. intros x _ Hx. by apply Hfr.
  - destruct Hv as (h' & -> & Hfr & Hlen). simpl.
    split; [|lia]. intros x _ Hx. by apply Hfr.
Qed.

(** ** Calls that are not in place *)

Lemma copy_then_in_place {A B} h d t fp fuel (step : val -> M A)
    (kf kt : val -> A -> B) (result : val -> B -> B) :
  own h d t fp -> depth t <= fuel ->
  (forall new_d r, result new_d (kt new_d r) = kf new_d r) ->
  (forall h1 new_d fp1,
     own h1 new_d t fp1 -> h `prefix_of` h1 ->
     touches_only fp1 h1 (step new_d h1)) ->
  on_fresh_copy h d t fp
    (fun new_d => let* nd := new_dict fuel new_d true in
                  let* r := step nd in
                  ret (kt nd r))
    result
    ((let* new_d := new_dict fuel d false in
      let* r := step new_d in
      ret (kf new_d r)) h).
Proof.
  intros Hown Hfuel Hres Hstep. unfold new_dict.
  destruct (deepcopy_own _ _ _ _ _ Hown Hfuel)
    as (h1 & new_d & fp1 & Hrun & Hpre & Hnew & Hold & Hfresh).
  exists h1, new_d, fp1. split; [done|]. split; [done|]. split; [done|].
  mrun Hrun. specialize (Hstep h1 new_d fp1 Hnew Hpre).
  assert (Hpre' : forall h', length h1 <= length h' ->
    (forall x, x < length h1 -> x ∉ fp1 -> h' !! x = h1 !! x) ->
    h `prefix_of` h').
  { intros h' Hlen Hfr. apply prefix_of_lookup. intros x Hx.
    pose proof (prefix_length _ _ Hpre).
    rewrite Hfr; [by apply prefix_lookup_lt | lia |].
    intros Hin. apply Hfresh in Hin. lia. }
  unfold bind, ret.
  destruct (step new_d h1) as [r h'|e h'|]; simpl in *; [| |done].
  - destruct Hstep as [Hfr Hlen].
    assert (Hp : h `prefix_of` h') by auto.
    split; [by rewrite Hres|]. split; [done|].
    exact (own_prefix _ _ _ _ _ Hown Hp).
  - destruct Hstep as [Hfr Hlen].
    assert (Hp : h `prefix_of` h') by auto.
    split; [done|]. split; [done|].
    exact (own_prefix _ _ _ _ _ Hown Hp).
Qed.

(** C8: called with [in_place = False] on a dictionary that denotes a
    tree, each of [recursive_add], [recursive_replace],
    [recursive_remove], [recursive_map_dict] and [recursive_filter_dict]
    works on a full copy of the input: a dictionary that denotes the same
    tree and is made only of objects that were not in the store.  The call
    does to the copy what the call with [in_place = True] does to its
    input, returns the copy where that call returns, and raises what it
    raises; every object that was in the store is left as it was, so that
    the caller's dictionary denotes the same tree after the call.  On the
    running example, adding 13 at [(6, 3, 12)] returns the example with
    [12: 13] under 6 and 3, and the example is as it was. *)
Theorem in_place_false_leaves_input h d t fp fuel :
  own h d t fp ->
  depth t <= fuel ->
  (forall key_path,
     on_fresh_copy h d t fp
       (fun new_d => recursive_add fuel new_d key_path true)
       (fun new_d r => (Some new_d, r.2))
       (recursive_add fuel d key_path false h)) /\
  (forall key_path,
     on_fresh_copy h d t fp
       (fun new_d => recursive_replace fuel new_d key_path true)
       (fun new_d _ => Some new_d)
       (recursive_replace fuel d key_path false h)) /\
  (forall key_path tv fpv,
     own h key_path.2 tv fpv ->
     on_fresh_copy h d t fp
       (fun new_d => recursive_remove fuel new_d key_path true)
       (fun new_d _ => Some new_d)
       (recursive_remove fuel d key_path false h)) /\
  (forall func keys permissive,
     on_fresh_copy h d t fp
       (fun new_d => recursive_map_dict fuel new_d func keys true permissive)
       (fun new_d _ => Some new_d)
       (recursive_map_dict fuel d func keys false permissive h)) /\
  (forall func keys permissive,
     on_fresh_copy h d t fp
       (fun new_d =>
          recursive_filter_dict fuel new_d func keys true permissive)
       (fun new_d _ => Some new_d)
       (recursive_filter_dict fuel d func keys false permissive h)) /\
  (exists new_d h',
     recursive_add 3 d_example (PyTuple [6; 3; 12]%Z, VLeaf 13) false
       h_example = Ret (Some new_d, []) h' /\
     reify 3 h' new_d =
       Some (Branch [(1, Leaf 2);
                     (3, Branch [(4, Leaf 5)]);
                     (6, Branch [(3, Branch [(7, Leaf 8); (12, Leaf 13)]);
                                 (7, Leaf 10)]);
                     (7, Leaf 11)]%Z) /\
     reify 3 h' d_example = Some T_example).
Proof.
  intros Hown Hfuel. split; [|split; [|split; [|split; [|split]]]].
  - intros [path value].
    apply (copy_then_in_place h d t fp fuel
             (fun new_d => add_step new_d (path_keys path) value path)
             (fun new_d w => (returned new_d false, w))
             (fun new_d w => (returned new_d true, w))
             (fun new_d r => (Some new_d, r.2))); [done..|].
    intros h1 new_d fp1 Hnew _. by eapply add_step_touches.
  - intros [path value].
    apply (copy_then_in_place h d t fp fuel
             (fun new_d => replace_step new_d (path_keys path) value [])
             (fun new_d _ => returned new_d false)
             (fun new_d _ => returned new_d true)
             (fun new_d _ => Some new_d)); [done..|].
    intros h1 new_d fp1 Hnew _. by eapply replace_step_touches.
  - intros [path value] tv fpv Hval.
    apply (copy_then_in_place h d t fp fuel
             (fun new_d => remove_step fuel new_d (path_keys path) value [])
             (fun new_d _ => returned new_d false)
             (fun new_d _ => returned new_d true)
             (fun new_d _ => Some new_d)); [done..|].
    intros h1 new_d fp1 Hnew Hpre.
    eapply remove_step_touches; [done | done |]. by eapply own_prefix.
  - intros func keys permissive.
    apply (copy_then_in_place h d t fp fuel
             (fun new_d => map_step fuel new_d func keys permissive 0)
             (fun new_d _ => returned new_d false)
             (fun new_d _ => returned new_d true)
             (fun new_d _ => Some new_d)); [done..|].
    intros h1 new_d fp1 Hnew _. by eapply map_step_touches.
  - intros func keys permissive.
    apply (copy_then_in_place h d t fp fuel
             (fun new_d => filter_step fuel new_d func keys permissive)
             (fun new_d _ => returned new_d false)
             (fun new_d _ => returned new_d true)
             (fun new_d _ => Some new_d)); [done..|].
    intros h1 new_d fp1 Hnew _. rewrite filter_step_visit.
    by eapply visit_step_touches.
  - eexists _, _. split; [reflexivity|]. split; reflexivity.
Qed.

Lemma in_place_false_leaves_input_example :
  (forall key_path,
     on_fresh_copy h_example d_example T_example fp_example
       (fun new_d => recursive_add 3 new_d key_path true)
       (fun new_d r => (Some new_d, r.2))
       (recursive_add 3 d_example key_path false h_example)) /\
  (forall key_path,
     on_fresh_copy h_example d_example T_example fp_example
       (fun new_d => recursive_replace 3 new_d key_path true)
       (fun new_d _ => Some new_d)
       (recursive_replace 3 d_example key_path false h_example)) /\
  (forall key_path tv fpv,
     own h_example key_path.2 tv fpv ->
     on_fresh_copy h_example d_example T_example fp_example
       (fun new_d => recursive_remove 3 new_d key_path true)
       (fun new_d _ => Some new_d)
       (recursive_remove 3 d_example key_path false h_example)) /\
  (forall func keys permissive,
     on_fresh_copy h_example d_example T_example fp_example
       (fun new_d => recursive_map_dict 3 new_d func keys true permissive)
       (fun new_d _ => Some new_d)
       (recursive_map_dict 3 d_example func keys false permissive
          h_example)) /\
  (forall func keys permissive,
     on_fresh_copy h_example d_example T_example fp_example
       (fun new_d => recursive_filter_dict 3 new_d func keys true permissive)
       (fun new_d _ => Some new_d)
       (recursive_filter_dict 3 d_example func keys false permissive
          h_example)) /\
  (exists new_d h',
     recursive_add 3 d_example (PyTuple [6; 3; 12]%Z, VLeaf 13) false
       h_example = Ret (Some new_d, []) h' /\
     reify 3 h' new_d =
       Some (Branch [(1, Leaf 2);
                     (3, Branch [(4, Leaf 5)]);
                     (6, Branch [(3, Branch [(7, Leaf 8); (12, Leaf 13)]);
                                 (7, Leaf 10)]);
                     (7, Leaf 11)]%Z) /\
     reify 3 h' d_example = Some T_example).
Proof.
  apply (in_place_false_leaves_input h_example d_example T_example
           fp_example 3).
  - apply own_example.
  - vm_compute. lia.
Defined.

(** The example of the docstring: adding 13 at [(6, 3, 12)], not in place,
    returns the example with [12: 13] under 6 and 3, and the example is as
    it was. *)
Lemma recursive_add_example :
  exists new_d h',
    recursive_add 3 d_example (PyTuple [6; 3; 12]%Z, VLeaf 13) false
      h_example = Ret (Some new_d, []) h' /\
    reify 3 h' new_d =
      Some (Branch [(1, Leaf 2);
                    (3, Branch [(4, Leaf 5)]);
                    (6, Branch [(3, Branch [(7, Leaf 8); (12, Leaf 13)]);
                                (7, Leaf 10)]);
                    (7, Leaf 11)]%Z) /\
    reify 3 h' d_example = Some T_example.
Proof. eexists _, _. split; [reflexivity|]. split; reflexivity. Qed.

(** ** Filtering *)

Lemma own_filter : own h_filter d_filter T_filter fp_filter.
Proof.
  assert (H0 : own h_filter (VDict 0) (Branch [(4, Leaf 5)]%Z) {[0]}).
  { eapply own_dict_eq with (fp := (∅ : gset nat));
      [reflexivity | keys_distinct | | | ].
    - apply own_cons_leaf, own_nil.
    - apply not_elem_of_empty.
    - by rewrite union_empty_r_L. }
  eapply own_dict_eq with (fp := ({[0]} : gset nat));
    [reflexivity | keys_distinct | | | ].
  - apply own_cons_leaf.
    eapply own_cons_eq with (fp2 := (∅ : gset nat)); [exact H0 | | | ].
    + apply own_cons_leaf, own_nil.
    + set_solver.
    + set_solver.
  - set_solver.
  - unfold fp_filter. set_solver.
Qed.

(** C9: [recursive_filter_dict] leaves of a tree what [filter_tree] leaves
    of it, in a fresh copy or in place, or raises the exception that
    [filter_tree] gives.  In [filter_tree], a dictionary is filtered and
    stays under its key; a selected leaf is deleted with its key when the
    function returns [False], kept when it returns [True], and a return
    that is neither makes the call raise [TypeError] with the return and
    the leaf; a leaf that is not selected is kept.  Filtering
    [{1: 2, 3: {4: 5}, 7: 2}] by [v > 4] gives [{3: {4: 5}}]. *)
Theorem recursive_filter_dict_filters :
  (forall h d t fp fuel func keys permissive,
     own h d t fp ->
     depth t <= fuel ->
     match filter_tree func keys permissive t with
     | inl t' =>
         (exists h' new_d fp',
            recursive_filter_dict fuel d func keys false permissive h =
              Ret (Some new_d) h' /\
            own h' new_d t' fp' /\ own h' d t fp) /\
         (exists h',
            recursive_filter_dict fuel d func keys true permissive h =
              Ret None h' /\
            own h' d t' fp)
     | inr e =>
         (exists h',
            recursive_filter_dict fuel d func keys false permissive h =
              Raise e h' /\ own h' d t fp) /\
         (exists h',
            recursive_filter_dict fuel d func keys true permissive h =
              Raise e h')
     end) /\
  (forall func keys permissive es,
     filter_tree func keys permissive (Branch es) =
     match filter_items func keys permissive es with
     | inl es' => inl (Branch es')
     | inr e => inr e
     end) /\
  (forall func keys permissive k es1 rest,
     filter_items func keys permissive ((k, Branch es1) :: rest) =
     match filter_tree func keys permissive (Branch es1) with
     | inl t' =>
         match filter_items func keys permissive rest with
         | inl r => inl ((k, t') :: r)
         | inr e => inr e
         end
     | inr e => inr e
     end) /\
  (forall func keys permissive k z rest,
     filter_items func keys permissive ((k, Leaf z) :: rest) =
     let kept :=
       match filter_items func keys permissive rest with
       | inl r => inl ((k, Leaf z) :: r)
       | inr e => inr e
       end in
     if sel_keys keys k then
       match func z with
       | RetFalse => filter_items func keys permissive rest
       | RetTrue => kept
       | RetOther r => inr (TypeError (BadReturn r z))
       | Raises => if permissive then kept else inr (CouldNotApply z)
       end
     else kept) /\
  filter_tree greater_than_4 None false T_filter =
    inl (Branch [(3, Branch [(4, Leaf 5)])]%Z).
Proof.
  split; [|split; [|split; [|split]]]; [|reflexivity|reflexivity| |reflexivity].
  - intros h d t fp fuel func keys permissive Hown Hfuel.
    unfold filter_tree, recursive_filter_dict, new_dict.
    destruct (deepcopy_own _ _ _ _ _ Hown Hfuel)
      as (h1 & new_d & fp1 & Hrun & Hpre & Hnew & Hold & Hfresh).
    pose proof (proj1 (visit_own (filter_action func permissive) keys h1)
                  _ _ _ Hnew fuel h1 (fun x _ => eq_refl) Hfuel) as Hcopy.
    pose proof (proj1 (visit_own (filter_action func permissive) keys h)
                  _ _ _ Hown fuel h (fun x _ => eq_refl) Hfuel) as Hin.
    rewrite <- !filter_step_visit in Hcopy, Hin. unfold visited in *.
    assert (Hstill : forall h', length h' = length h1 ->
      (forall x, x ∉ fp1 -> h' !! x = h1 !! x) -> own h' d t fp).
    { intros h' Hlen Hfr. eapply own_prefix; [exact Hown|].
      apply prefix_of_lookup. intros x Hx.
      rewrite Hfr; [by apply prefix_lookup_lt|].
      intros Hin'. apply Hfresh in Hin'. lia. }
    destruct (visit_tree (filter_action func permissive) keys t) as [t'|e].
    + destruct Hcopy as (h' & Hrun' & Hown' & Hfr & Hlen).
      destruct Hin as (h'' & Hrun'' & Hown'' & _).
      split.
      * exists h', new_d, fp1. mrun Hrun. mrun Hrun'.
        split; [done|]. split; [done | by apply Hstill].
      * exists h''. unfold ret at 1, bind at 1. by mrun Hrun''.
    + destruct Hcopy as (h' & Hrun' & Hfr & Hlen).
      destruct Hin as (h'' & Hrun'' & _).
      split.
      * exists h'. mrun Hrun.
        rewrite (bind_Raise _ _ _ _ _ Hrun'). split; [done | by apply Hstill].
      * exists h''. unfold ret at 1, bind at 1.
        by rewrite (bind_Raise _ _ _ _ _ Hrun'').
  - intros func keys permissive k z rest. unfold filter_items.
    rewrite visit_items_leaf. unfold filter_action. simpl.
    destruct (sel_keys keys k); [|done].
    by destruct (func z); [| | |destruct permissive].
Qed.

Lemma recursive_filter_dict_filters_example :
  (exists h' new_d fp',
     recursive_filter_dict 2 d_filter greater_than_4 None false false
       h_filter = Ret (Some new_d) h' /\
     own h' new_d (Branch [(3, Branch [(4, Leaf 5)])]%Z) fp' /\
     own h' d_filter T_filter fp_filter) /\
  (exists h',
     recursive_filter_dict 2 d_filter greater_than_4 None true false
       h_filter = Ret None h' /\
     own h' d_filter (Branch [(3, Branch [(4, Leaf 5)])]%Z) fp_filter).
Proof.
  exact (proj1 recursive_filter_dict_filters h_filter d_filter T_filter
           fp_filter 2 greater_than_4 None false own_filter
           (le_n 2)).
Defined.

(** ** [recursive_pop] *)

Lemma recursive_pop_dict f a keys in_place :
  recursive_pop (S f) (VDict a) keys in_place =
  (let* o := load a in
   let* y := alloc [] in
   let* _ :=
     for_each o (pop_item (fun v => recursive_pop f v keys false) keys y) in
   ret (VDict y)).
Proof. reflexivity. Qed.

Lemma pop_tree_Branch keys es :
  pop_tree keys (Branch es) = Branch (pop_items keys es).
Proof. reflexivity. Qed.

Lemma pop_items_cons keys k t es :
  pop_items keys ((k, t) :: es) =
  if key_in k keys then pop_items keys es
  else (k, pop_tree keys t) :: pop_items keys es.
Proof. reflexivity. Qed.

Lemma for_each_cons {A} (x : A) l (body : A -> M unit) h :
  for_each (x :: l) body h =
  match body x h with
  | Ret _ h' => for_each l body h'
  | Raise e h' => Raise e h'
  | Stuck => Stuck
  end.
Proof. reflexivity. Qed.

Lemma recursive_pop_own keys h0 :
  (forall v t fp, own h0 v t fp ->
     forall fuel h in_place,
       agree_on fp h0 h -> depth t <= fuel ->
       exists v' h' fp',
         recursive_pop fuel v keys in_place h = Ret v' h' /\
         h `prefix_of` h' /\
         own h' v' (pop_tree keys t) fp' /\
         (forall a, a ∈ fp' -> length h <= a)) /\
  (forall o es fp, own_items h0 o es fp ->
     forall f h y oy,
       agree_on fp h0 h -> depth_items es <= f ->
       h !! y = Some oy -> y ∉ fp ->
       NoDup (oy.*1 ++ o.*1) ->
       exists h' o' fp',
         for_each o (pop_item (fun v => recursive_pop f v keys false) keys y)
           h = Ret tt h' /\
         length h <= length h' /\
         (forall a, a < length h -> a ≠ y -> h' !! a = h !! a) /\
         h' !! y = Some (oy ++ o') /\
         o'.*1 `sublist_of` o.*1 /\
         own_items h' o' (pop_items keys es) fp' /\
         (forall a, a ∈ fp' -> length h <= a)).
Proof.
  apply own_mutind.
  - intros z fuel h ip _ _. exists (VLeaf z), h, ∅.
    destruct fuel; simpl; (split; [done|]); (split; [done|]);
      (split; [constructor | set_solver]).
  - intros a o es fp Ha Hnd Hitems IH Hni fuel h ip Hagree Hfuel.
    rewrite depth_Branch in Hfuel. destruct fuel as [|f]; [lia|].
    rewrite recursive_pop_dict, pop_tree_Branch.
    assert (Hha : h !! a = Some o) by (rewrite Hagree; [done | set_solver]).
    mload Hha. unfold alloc at 1, bind at 1.
    set (y := length h). set (h1 := h ++ [[]]).
    assert (Hy : h1 !! y = Some []) by apply lookup_alloc_fresh.
    assert (Hold : forall b, b ∈ fp -> b < length h).
    { intros b Hb. eapply (agree_on_lt h0 (VDict a) (Branch es));
        [by eapply own_dict | done | set_solver]. }
    destruct (IH f h1 y []) as
      (h' & o' & fp' & Hrun & Hlen & Hframe & Hy' & Hsub & Hown & Hfresh).
    + intros b Hb. unfold h1. rewrite lookup_alloc_old by auto.
      apply Hagree. set_solver.
    + lia.
    + done.
    + intros Hin. apply Hold in Hin. unfold y in Hin. lia.
    + done.
    + mrun Hrun.
      assert (Hlen1 : length h1 = S (length h)).
      { unfold h1. rewrite length_app. simpl. lia. }
      exists (VDict y), h', ({[y]} ∪ fp').
      split; [done|]. split; [|split].
      * apply prefix_of_lookup. intros b Hb.
        rewrite Hframe by (unfold y; lia).
        unfold h1. by apply lookup_alloc_old.
      * apply own_dict with (o := o'); [done | | done |].
        -- by eapply sublist_NoDup.
        -- intros Hin. apply Hfresh in Hin. unfold y in Hin. lia.
      * intros b Hb. apply elem_of_union in Hb as [Hb|Hb].
        -- apply elem_of_singleton in Hb as ->. unfold y. lia.
        -- apply Hfresh in Hb. lia.
  - intros f h y oy _ _ Hy _ _. exists h, [], ∅. simpl.
    split; [done|]. split; [done|]. split; [done|].
    split; [by rewrite app_nil_r|]. split; [done|].
    split; [constructor | set_solver].
  - intros k v t o es fp1 fp2 Hv IHv Ho IHo Hdisj f h y oy Hagree Hfuel
      Hy Hyni Hnd.
    rewrite depth_items_cons in Hfuel.
    rewrite fmap_cons in Hnd. simpl in Hnd.
    destruct (nodup_middle _ _ _ Hnd) as (Hk & Hnd1 & Hnd2).
    rewrite for_each_cons, pop_items_cons.
    unfold pop_item at 1. simpl.
    assert (Hag2 : agree_on fp2 h0 h).
    { intros x Hx. apply Hagree. set_solver. }
    destruct (key_in k keys).
    + (* the key is left out *)
      destruct (IHo f h y oy) as
        (h' & o' & fp' & Hrun & Hlen & Hframe & Hy' & Hsub & Hown & Hfresh);
        [done | lia | done | set_solver | done |].
      exists h', o', fp'. split; [done|]. split; [done|]. split; [done|].
      split; [done|]. split; [|done].
      rewrite ?fmap_cons. simpl. by apply sublist_cons.
    + (* the item is copied *)
      destruct (IHv f h false) as (v' & h1 & fp1' & Hrun1 & Hpre1 & Hown1
        & Hfresh1).
      { intros x Hx. apply Hagree. set_solver. }
      { lia. }
      assert (Hy1 : h1 !! y = Some oy) by (by eapply prefix_lookup_Some').
      mrun Hrun1. mload Hy1. rewrite (store_Some _ _ _ _ Hy1).
      rewrite dict_set_new by done.
      set (h2 := <[y:=oy ++ [(k, v')]]> h1).
      assert (Hylt : y < length h1) by (by eapply lookup_lt_Some).
      assert (Hlen2 : length h2 = length h1) by apply length_insert.
      assert (Hlen1 : length h <= length h1) by (by apply prefix_length).
      destruct (IHo f h2 y (oy ++ [(k, v')])) as
        (h' & o' & fp' & Hrun & Hlen & Hframe & Hy' & Hsub & Hown & Hfresh).
      * intros x Hx. unfold h2.
        rewrite lookup_store_ne by (intros ->; set_solver).
        rewrite <- (Hag2 x Hx). apply prefix_lookup_lt; [done|].
        eapply (agree_on_items_lt h0 o es fp2); [done | done | done].
      * lia.
      * unfold h2. by apply lookup_store_eq.
      * set_solver.
      * rewrite fmap_app. simpl. by rewrite <- app_assoc.
      * exists h', ((k, v') :: o'), (fp1' ∪ fp').
        split; [exact Hrun|]. split; [lia|].
        split; [|split; [|split; [|split]]].
        -- intros b Hb Hne. rewrite Hframe by (done || lia).
           unfold h2. rewrite lookup_store_ne by done.
           by apply prefix_lookup_lt.
        -- rewrite Hy'. by rewrite <- app_assoc.
        -- rewrite ?fmap_cons. simpl. by apply sublist_skip.
        -- constructor; [|done|].
           ++ eapply (proj1 (own_frame h1)); [done|].
              intros b Hb.
              pose proof (proj1 (own_bound h1) _ _ _ Hown1 b Hb) as Hblt.
              assert (b ≠ y).
              { intros ->. apply Hfresh1 in Hb.
                apply lookup_lt_Some in Hy. lia. }
              rewrite Hframe by (done || lia).
              unfold h2. by apply lookup_store_ne.
           ++ apply elem_of_disjoint. intros b Hb1 Hb2.
              pose proof (proj1 (own_bound h1) _ _ _ Hown1 b Hb1).
              apply Hfresh in Hb2. lia.
        -- intros b Hb. apply elem_of_union in Hb as [Hb|Hb].
           ++ by apply Hfresh1.
           ++ apply Hfresh in Hb. lia.
Qed.

Lemma own_items_get_None h o es fp k :
  own_items h o es fp -> tree_get_key es k = None -> dict_get o k = None.
Proof.
  induction 1 as [|k' v' t' o es fp1 fp2 Hv Ho IH Hd]; simpl; [done|].
  destruct (Z.eqb k' k); [done | auto].
Qed.

Lemma own_walk_None h path : forall d t fp,
  own h d t fp -> tree_walk t path = None -> walk h d path = None.
Proof.
  induction path as [|k rest IH]; intros d t fp Hown Hwalk; simpl in *;
    [done|].
  destruct Hown as [z|a o es fp Ha Hnd Hitems Hni]; [done|].
  rewrite Ha. destruct (tree_get_key es k) as [t1|] eqn:Hk.
  - destruct (own_items_get _ _ _ _ _ _ Hitems Hk) as (v1 & fp1 & Hg & Ho1 & _).
    rewrite Hg. by eapply IH.
  - by rewrite (own_items_get_None _ _ _ _ _ Hitems Hk).
Qed.

(** A value that denotes a tree is reached by the same key paths as the
    tree, and leaves are reached by the same key paths. *)
Lemma own_walk_leaf_inv h path d t fp z :
  own h d t fp -> walk h d path = Some (VLeaf z) ->
  tree_walk t path = Some (Leaf z).
Proof.
  intros Hown Hwalk. destruct (tree_walk t path) as [t'|] eqn:Ht.
  - destruct (own_walk _ _ _ _ _ _ Hown Ht) as (v & fp' & Hw & Hv & _).
    rewrite Hwalk in Hw. injection Hw as <-. by inversion Hv.
  - by rewrite (own_walk_None _ _ _ _ _ Hown Ht) in Hwalk.
Qed.

Lemma own_walk_None_inv h path d t fp :
  own h d t fp -> walk h d path = None -> tree_walk t path = None.
Proof.
  intros Hown Hwalk. destruct (tree_walk t path) as [t'|] eqn:Ht; [|done].
  destruct (own_walk _ _ _ _ _ _ Hown Ht) as (v & fp' & Hw & _).
  by rewrite Hwalk in Hw.
Qed.

(** *** [pop_tree] along key paths *)

Lemma tree_get_key_pop_items keys es k :
  tree_get_key (pop_items keys es) k =
  if key_in k keys then None else pop_tree keys <$> tree_get_key es k.
Proof.
  induction es as [|[k' t'] es IH]; [by destruct (key_in k keys)|].
  rewrite pop_items_cons.
  destruct (Z.eqb_spec k' k) as [->|Hne].
  - destruct (key_in k keys) eqn:Hk; [by rewrite IH|].
    simpl. by rewrite Z.eqb_refl.
  - destruct (key_in k' keys) eqn:Hk'; simpl;
      destruct (Z.eqb_spec k' k); done.
Qed.

Lemma tree_walk_pop_tree keys path : forall t,
  tree_walk (pop_tree keys t) path =
  if existsb (fun k => key_in k keys) path then None
  else pop_tree keys <$> tree_walk t path.
Proof.
  induction path as [|k rest IH]; intros t; [done|].
  destruct t as [z|es]; [simpl; by destruct (_ || _)|].
  rewrite pop_tree_Branch. simpl. rewrite tree_get_key_pop_items.
  destruct (key_in k keys); [done|]. simpl.
  destruct (tree_get_key es k) as [t'|]; simpl; [apply IH|].
  by destruct (existsb _ rest).
Qed.

Lemma key_in_app k ks1 ks2 :
  key_in k (ks1 ++ ks2) = key_in k ks1 || key_in k ks2.
Proof. apply existsb_app. Qed.

Lemma pop_tree_app ks1 ks2 t :
  pop_tree ks2 (pop_tree ks1 t) = pop_tree (ks1 ++ ks2) t.
Proof.
  induction t as [z|es IH] using tree_induction; [done|].
  rewrite !pop_tree_Branch. f_equal.
  induction es as [|[k t] es IHes]; [done|].
  apply Forall_cons in IH as [IHt IHrest].
  rewrite !pop_items_cons, key_in_app.
  destruct (key_in k ks1); [by apply IHes|].
  rewrite pop_items_cons.
  destruct (key_in k ks2); [by apply IHes|].
  simpl in IHt. cbn [orb]. rewrite IHt. f_equal. by apply IHes.
Qed.

Lemma pop_tree_nil t : pop_tree [] t = t.
Proof.
  induction t as [z|es IH] using tree_induction; [done|].
  rewrite pop_tree_Branch. f_equal.
  induction es as [|[k t] es IHes]; [done|].
  apply Forall_cons in IH as [IHt IHrest].
  rewrite pop_items_cons. simpl in *. rewrite IHt. f_equal. by apply IHes.
Qed.

Lemma depth_pop_tree keys t : depth (pop_tree keys t) <= depth t.
Proof.
  induction t as [z|es IH] using tree_induction; [done|].
  rewrite pop_tree_Branch, !depth_Branch. apply le_n_S.
  induction es as [|[k t] es IHes]; [done|].
  apply Forall_cons in IH as [IHt IHrest]. specialize (IHes IHrest).
  rewrite pop_items_cons, depth_items_cons.
  destruct (key_in k keys); [lia|].
  rewrite depth_items_cons. simpl in IHt. lia.
Qed.

Lemma recursive_pop_run h d t fp fuel keys in_place :
  own h d t fp -> depth t <= fuel ->
  exists new_d h' fp',
    recursive_pop fuel d keys in_place h = Ret new_d h' /\
    own h' new_d (pop_tree keys t) fp' /\
    own h' d t fp /\
    h `prefix_of` h' /\
    forall a, a ∈ fp' -> length h <= a.
Proof.
  intros Hown Hfuel.
  destruct (proj1 (recursive_pop_own keys h) _ _ _ Hown fuel h in_place
              (fun x _ => eq_refl) Hfuel)
    as (v' & h' & fp' & Hrun & Hpre & Hown' & Hfresh).
  exists v', h', fp'. split; [done|]. split; [done|].
  split; [by eapply own_prefix | done].
Qed.

(** X1: on a dictionary that denotes a tree, [recursive_pop] returns a new
    dictionary, made of objects that were not in the store, that denotes
    the tree without the items whose key is to be removed, at every depth;
    the objects that were in the store are left as they were, whatever
    [in_place] is. *)
Theorem recursive_pop_new_tree h d t fp fuel keys in_place :
  own h d t fp ->
  depth t <= fuel ->
  exists new_d h' fp',
    recursive_pop fuel d keys in_place h = Ret new_d h' /\
    recursive_pop fuel d keys (negb in_place) h = Ret new_d h' /\
    own h' new_d (pop_tree keys t) fp' /\
    own h' d t fp /\
    h `prefix_of` h' /\
    forall a, a ∈ fp' -> length h <= a.
Proof.
  intros Hown Hfuel.
  destruct (recursive_pop_run h d t fp fuel keys in_place Hown Hfuel)
    as (new_d & h' & fp' & Hrun & Hnew & Hold & Hpre & Hfresh).
  exists new_d, h', fp'. split; [done|]. split; [|done].
  rewrite <- Hrun. by destruct d, fuel, in_place.
Qed.

Lemma recursive_pop_new_tree_example :
  exists new_d h' fp',
    recursive_pop 3 d_example [3; 7]%Z false h_example = Ret new_d h' /\
    recursive_pop 3 d_example [3; 7]%Z (negb false) h_example =
      Ret new_d h' /\
    own h' new_d (Branch [(1, Leaf 2); (6, Branch [])]%Z) fp' /\
    own h' d_example T_example fp_example /\
    h_example `prefix_of` h' /\
    forall a, a ∈ fp' -> length h_example <= a.
Proof.
  apply (recursive_pop_new_tree h_example d_example T_example fp_example 3
           [3; 7]%Z false).
  - apply own_example.
  - vm_compute. lia.
Defined.

(** X2: in the dictionary that [recursive_pop] returns, no key path that
    goes through a removed key leads anywhere; a key path that avoids the
    removed keys leads to a leaf exactly when it led to that leaf in the
    input, and leads nowhere exactly when it led nowhere in the input. *)
Theorem recursive_pop_key_paths h d t fp fuel keys in_place :
  own h d t fp ->
  depth t <= fuel ->
  exists new_d h',
    recursive_pop fuel d keys in_place h = Ret new_d h' /\
    forall path,
      if existsb (fun k => key_in k keys) path
      then walk h' new_d path = None
      else (forall z, walk h' new_d path = Some (VLeaf z) <->
                      walk h d path = Some (VLeaf z)) /\
           (walk h' new_d path = None <-> walk h d path = None).
Proof.
  intros Hown Hfuel.
  destruct (recursive_pop_run h d t fp fuel keys in_place Hown Hfuel)
    as (new_d & h' & fp' & Hrun & Hnew & Hold & Hpre & Hfresh).
  exists new_d, h'. split; [done|]. intros path.
  pose proof (tree_walk_pop_tree keys path t) as Hw.
  destruct (existsb (fun k => key_in k keys) path).
  - by eapply own_walk_None.
  - split; [intros z; split|split].
    + intros H. apply (own_walk_leaf_inv _ _ _ _ _ _ Hnew) in H.
      rewrite Hw in H. destruct (tree_walk t path) as [[z'|es]|] eqn:Ht;
        [|done|done].
      injection H as ->. by eapply own_walk_leaf.
    + intros H. apply (own_walk_leaf_inv _ _ _ _ _ _ Hown) in H.
      eapply own_walk_leaf; [done|]. by rewrite Hw, H.
    + intros H. apply (own_walk_None_inv _ _ _ _ _ Hnew) in H.
      rewrite Hw in H. destruct (tree_walk t path) eqn:Ht; [done|].
      by eapply own_walk_None.
    + intros H. apply (own_walk_None_inv _ _ _ _ _ Hown) in H.
      eapply own_walk_None; [done|]. by rewrite Hw, H.
Qed.

Lemma recursive_pop_key_paths_example :
  exists new_d h',
    recursive_pop 3 d_example [3; 7]%Z false h_example = Ret new_d h' /\
    forall path,
      if existsb (fun k => key_in k [3; 7]%Z) path
      then walk h' new_d path = None
      else (forall z, walk h' new_d path = Some (VLeaf z) <->
                      walk h_example d_example path = Some (VLeaf z)) /\
           (walk h' new_d path = None <->
            walk h_example d_example path = None).
Proof.
  apply (recursive_pop_key_paths h_example d_example T_example fp_example 3
           [3; 7]%Z false).
  - apply own_example.
  - vm_compute. lia.
Defined.

(** X3: removing keys from the result of a removal is removing all the
    keys at once: [recursive_pop(recursive_pop(d, ks1), ks2)] denotes the
    same tree as [recursive_pop(d, ks1 + ks2)]; removing no key gives a
    copy that denotes the tree of the input. *)
Theorem recursive_pop_twice h d t fp fuel ks1 ks2 :
  own h d t fp ->
  depth t <= fuel ->
  (exists d1 h1 d2 h2 fp2,
     recursive_pop fuel d ks1 false h = Ret d1 h1 /\
     recursive_pop fuel d1 ks2 false h1 = Ret d2 h2 /\
     own h2 d2 (pop_tree (ks1 ++ ks2) t) fp2 /\
     own h2 d t fp) /\
  (exists d3 h3 fp3,
     recursive_pop fuel d (ks1 ++ ks2) false h = Ret d3 h3 /\
     own h3 d3 (pop_tree (ks1 ++ ks2) t) fp3) /\
  (exists d4 h4 fp4,
     recursive_pop fuel d [] false h = Ret d4 h4 /\
     own h4 d4 t fp4 /\
     forall a, a ∈ fp4 -> length h <= a).
Proof.
  intros Hown Hfuel. split; [|split].
  - destruct (recursive_pop_run h d t fp fuel ks1 false Hown Hfuel)
      as (d1 & h1 & fp1 & Hrun1 & Hnew1 & Hold1 & Hpre1 & _).
    assert (Hfuel1 : depth (pop_tree ks1 t) <= fuel).
    { pose proof (depth_pop_tree ks1 t). lia. }
    destruct (recursive_pop_run h1 d1 _ fp1 fuel ks2 false Hnew1 Hfuel1)
      as (d2 & h2 & fp2 & Hrun2 & Hnew2 & _ & Hpre2 & _).
    exists d1, h1, d2, h2, fp2. split; [done|]. split; [done|].
    rewrite pop_tree_app in Hnew2. split; [done | by eapply own_prefix].
  - destruct (recursive_pop_run h d t fp fuel (ks1 ++ ks2) false Hown Hfuel)
      as (d3 & h3 & fp3 & Hrun3 & Hnew3 & _).
    by exists d3, h3, fp3.
  - destruct (recursive_pop_run h d t fp fuel [] false Hown Hfuel)
      as (d4 & h4 & fp4 & Hrun4 & Hnew4 & _ & _ & Hfresh).
    exists d4, h4, fp4. rewrite pop_tree_nil in Hnew4. done.
Qed.

Lemma recursive_pop_twice_example :
  (exists d1 h1 d2 h2 fp2,
     recursive_pop 3 d_example [3%Z] false h_example = Ret d1 h1 /\
     recursive_pop 3 d1 [7%Z] false h1 = Ret d2 h2 /\
     own h2 d2 (pop_tree ([3%Z] ++ [7%Z]) T_example) fp2 /\
     own h2 d_example T_example fp_example) /\
  (exists d3 h3 fp3,
     recursive_pop 3 d_example ([3%Z] ++ [7%Z]) false h_example =
       Ret d3 h3 /\
     own h3 d3 (pop_tree ([3%Z] ++ [7%Z]) T_example) fp3) /\
  (exists d4 h4 fp4,
     recursive_pop 3 d_example [] false h_example = Ret d4 h4 /\
     own h4 d4 T_example fp4 /\
     forall a, a ∈ fp4 -> length h_example <= a).
Proof.
  apply (recursive_pop_twice h_example d_example T_example fp_example 3
           [3%Z] [7%Z]).
  - apply own_example.
  - vm_compute. lia.
Defined.

(** ** [recursive_iter_key_paths] yields the key paths of the dictionary *)

Lemma dict_get_Some_key (o : list (Z * val)) k v :
  dict_get o k = Some v -> k ∈ o.*1.
Proof.
  induction o as [|[k' v'] o IH]; simpl; [done|].
  destruct (Z.eqb_spec k' k) as [->|Hne]; [set_solver|].
  intros H. apply elem_of_cons. right. by apply IH.
Qed.

Lemma iter_step_walk h0 :
  (forall v t fp, own h0 v t fp ->
     forall fuel pfx, depth t <= fuel ->
     exists items,
       (forall h, agree_on fp h0 h ->
          (if is_dict v then iter_step fuel v pfx else ret []) h =
            Ret items h) /\
       forall q x, (q, x) ∈ items <->
         exists k rest, q = pfx ++ k :: rest /\
                        walk h0 v (k :: rest) = Some x) /\
  (forall o es fp, own_items h0 o es fp ->
     forall f pfx, depth_items es <= f -> NoDup o.*1 ->
     exists items,
       (forall h, agree_on fp h0 h ->
          yield_each o (iter_item (iter_step f) pfx) h = Ret items h) /\
       forall q x, (q, x) ∈ items <->
         exists k rest v1, q = pfx ++ k :: rest /\
                           dict_get o k = Some v1 /\
                           walk h0 v1 rest = Some x).
Proof.
  apply own_mutind.
  - (* a leaf *)
    intros z fuel pfx _. exists []. split; [done|].
    intros q x. split; [by intros ?%elem_of_nil|].
    by intros (k & rest & _ & ?).
  - (* a dictionary *)
    intros a o es fp Ha Hnd _ IH _ fuel pfx Hfuel.
    rewrite depth_Branch in Hfuel. destruct fuel as [|f]; [lia|].
    destruct (IH f pfx) as (items & Hrun & Hin); [lia | done |].
    exists items. split.
    { intros h Hagree. cbn [is_dict]. rewrite iter_step_dict.
      assert (Hha : h !! a = Some o) by (rewrite Hagree; [done|set_solver]).
      mload Hha. apply Hrun. intros x Hx. apply Hagree. set_solver. }
    intros q x. rewrite Hin. split.
    + intros (k & rest & v1 & -> & Hg & Hw). exists k, rest.
      split; [done|]. simpl. by rewrite Ha, Hg.
    + intros (k & rest & -> & Hw). simpl in Hw. rewrite Ha in Hw.
      destruct (dict_get o k) as [v1|] eqn:Hg; [|done].
      by exists k, rest, v1.
  - (* no item *)
    intros f pfx _ _. exists []. split; [done|].
    intros q x. split; [by intros ?%elem_of_nil|].
    by intros (k & rest & v1 & _ & ? & _).
  - (* one more item *)
    intros k v t o es fp1 fp2 _ IHv _ IHo Hdisj f pfx Hf Hnd.
    rewrite depth_items_cons in Hf.
    rewrite fmap_cons in Hnd. apply NoDup_cons in Hnd as [Hk Hnd].
    destruct (IHv f (pfx ++ [k])) as (below & Hrun1 & Hin1); [lia|].
    destruct (IHo f pfx) as (rest & Hrun2 & Hin2); [lia | done |].
    exists ((below ++ [(pfx ++ [k], v)]) ++ rest). split.
    { intros h Hagree. apply yield_each_iter_cons.
      - apply Hrun1. intros x Hx. apply Hagree. set_solver.
      - apply Hrun2. intros x Hx. apply Hagree. set_solver. }
    intros q x. rewrite !elem_of_app, list_elem_of_singleton, Hin1, Hin2.
    split.
    + intros [[(k2 & rest2 & -> & Hw)|[= -> ->]]
             |(k' & rest' & v1 & -> & Hg & Hw)].
      * exists k, (k2 :: rest2), v. rewrite <- app_assoc. simpl.
        by rewrite Z.eqb_refl.
      * exists k, [], v. simpl. by rewrite Z.eqb_refl.
      * exists k', rest', v1. split; [done|]. split; [|done]. simpl.
        destruct (Z.eqb_spec k k') as [->|]; [|done].
        by apply dict_get_Some_key in Hg.
    + intros (k' & rest' & v1 & -> & Hg & Hw). simpl in Hg.
      destruct (Z.eqb_spec k k') as [<-|Hne].
      * injection Hg as <-. left. destruct rest' as [|k2 rest2].
        -- right. simpl in Hw. by injection Hw as <-.
        -- left. exists k2, rest2. by rewrite <- app_assoc.
      * right. by exists k', rest', v1.
Qed.

(** X4: on a nested dictionary, [recursive_iter_key_paths] yields, without
    changing the store, one pair for each non-empty key path that leads
    somewhere in the dictionary and no other pair: the key path, as a
    list, with the value it leads to; no key path is yielded twice. *)
Theorem recursive_iter_key_paths_all h a t fp fuel :
  own h (VDict a) t fp ->
  depth t <= fuel ->
  exists items,
    recursive_iter_key_paths fuel (VDict a) h = Ret items h /\
    NoDup items.*1 /\
    (forall p v, (PyList p, v) ∈ items <->
                 p <> [] /\ walk h (VDict a) p = Some v) /\
    (forall p v, (PyTuple p, v) ∉ items).
Proof.
  intros Hown Hfuel.
  destruct (proj1 (iter_step_walk h) _ _ _ Hown fuel [] Hfuel)
    as (l & Hrun & Hin).
  specialize (Hrun h (fun x _ => eq_refl)). cbn [is_dict] in Hrun.
  destruct (proj1 (linearize_and_add h) _ _ _ Hown a eq_refl fuel [] Hfuel)
    as (l' & oa & _ & Hrun' & _ & Hnd & _).
  specialize (Hrun' h (fun x _ => eq_refl)).
  rewrite Hrun in Hrun'. injection Hrun' as <-.
  exists (map (fun pv : list Z * val => (PyList pv.1, pv.2)) l).
  split; [|split; [|split]].
  - unfold recursive_iter_key_paths. by mrun Hrun.
  - rewrite <- list_fmap_compose.
    replace (fmap _ l) with (PyList <$> l.*1)
      by (rewrite <- list_fmap_compose; done).
    apply NoDup_fmap_2; [by intros ?? [=] | done].
  - intros p v. rewrite list_elem_of_fmap. split.
    + intros ([q x] & [= <- <-] & Hqx). apply Hin in Hqx.
      destruct Hqx as (k & rest & -> & Hw). done.
    + intros [Hp Hw]. exists (p, v). split; [done|]. apply Hin.
      destruct p as [|k rest]; [done|]. by exists k, rest.
  - intros p v ([q x] & [=] & _)%list_elem_of_fmap.
Qed.

Lemma recursive_iter_key_paths_all_example :
  exists items,
    recursive_iter_key_paths 3 d_example h_example = Ret items h_example /\
    NoDup items.*1 /\
    (forall p v, (PyList p, v) ∈ items <->
                 p <> [] /\ walk h_example d_example p = Some v) /\
    (forall p v, (PyTuple p, v) ∉ items).
Proof.
  apply (recursive_iter_key_paths_all h_example 3 T_example fp_example 3).
  - apply own_example.
  - vm_compute. lia.
Defined.

(** ** [recursive_get_values_from_key] finds the values under a key *)

Lemma walk_leaf_cons h z k rest : walk h (VLeaf z) (k :: rest) = None.
Proof. reflexivity. Qed.

Lemma walk_leaf_snoc h z p k : walk h (VLeaf z) (p ++ [k]) = None.
Proof. by destruct p. Qed.

Lemma walk_dict_cons (h : list (list (Z * val))) a o k v rest :
  h !! a = Some o -> dict_get o k = Some v ->
  walk h (VDict a) (k :: rest) = walk h v rest.
Proof. intros Ha Hg. simpl. by rewrite Ha, Hg. Qed.

Lemma get_values_step_dict f a k values :
  get_values_step (S f) (VDict a) k values =
  (let* o := load a in
   foldM (fun values' (kv : Z * val) =>
            if is_dict kv.2 then get_values_step f kv.2 k values'
            else ret values')
         o (match dict_get o k with
            | Some v => values ++ [v]
            | None => values
            end)).
Proof. reflexivity. Qed.

Lemma get_values_walk h0 k :
  (forall v t fp, own h0 v t fp ->
     forall fuel, depth t <= fuel ->
     exists found,
       (forall values h, agree_on fp h0 h ->
          (if is_dict v then get_values_step fuel v k values
           else ret values) h = Ret (values ++ found) h) /\
       (forall a o x, v = VDict a -> h0 !! a = Some o ->
                      dict_get o k = Some x -> exists l, found = x :: l) /\
       forall x, x ∈ found <-> exists p, walk h0 v (p ++ [k]) = Some x) /\
  (forall o es fp, own_items h0 o es fp ->
     forall f, depth_items es <= f -> NoDup o.*1 ->
     exists found,
       (forall values h, agree_on fp h0 h ->
          foldM (fun values' (kv : Z * val) =>
                   if is_dict kv.2 then get_values_step f kv.2 k values'
                   else ret values')
                o values h = Ret (values ++ found) h) /\
       forall x, x ∈ found <->
         exists k1 v1 p, dict_get o k1 = Some v1 /\
                         walk h0 v1 (p ++ [k]) = Some x).
Proof.
  apply own_mutind.
  - (* a leaf *)
    intros z fuel _. exists []. split; [|split].
    + intros values h _. by rewrite app_nil_r.
    + by intros a o x [=].
    + intros x. split; [by intros ?%elem_of_nil|].
      intros [p Hp]. by rewrite walk_leaf_snoc in Hp.
  - (* a dictionary *)
    intros a o es fp Ha Hnd _ IH _ fuel Hfuel.
    rewrite depth_Branch in Hfuel. destruct fuel as [|f]; [lia|].
    destruct (IH f) as (found & Hrun & Hin); [lia | done |].
    exists (match dict_get o k with Some v => [v] | None => [] end ++ found).
    split; [|split].
    + intros values h Hagree. cbn [is_dict]. rewrite get_values_step_dict.
      assert (Hha : h !! a = Some o) by (rewrite Hagree; [done|set_solver]).
      mload Hha. rewrite Hrun by (intros x Hx; apply Hagree; set_solver).
      destruct (dict_get o k); [by rewrite <- app_assoc | done].
    + intros a' o' x [= <-] Ho' Hg. rewrite Ha in Ho'. injection Ho' as <-.
      rewrite Hg. by exists found.
    + intros x. rewrite elem_of_app, Hin. split.
      * intros [Hx|(k1 & v1 & p & Hg & Hw)].
        -- exists []. simpl. rewrite Ha.
           destruct (dict_get o k) as [v|]; [|by apply elem_of_nil in Hx].
           by apply list_elem_of_singleton in Hx as ->.
        -- exists (k1 :: p). rewrite <- app_comm_cons.
           by rewrite (walk_dict_cons _ _ _ _ _ _ Ha Hg).
      * intros [[|k1 p] Hw]; simpl in Hw; rewrite Ha in Hw.
        -- left. destruct (dict_get o k) as [v|]; [|done].
           injection Hw as <-. by apply list_elem_of_singleton.
        -- right. destruct (dict_get o k1) as [v1|] eqn:Hg; [|done].
           by exists k1, v1, p.
  - (* no item *)
    intros f _ _. exists []. split.
    + intros values h _. simpl. by rewrite app_nil_r.
    + intros x. split; [by intros ?%elem_of_nil|].
      by intros (k1 & v1 & p & ? & _).
  - (* one more item *)
    intros k1 v t o es fp1 fp2 _ IHv _ IHo Hdisj f Hf Hnd.
    rewrite depth_items_cons in Hf.
    rewrite fmap_cons in Hnd. apply NoDup_cons in Hnd as [Hk Hnd].
    destruct (IHv f) as (found1 & Hrun1 & _ & Hin1); [lia|].
    destruct (IHo f) as (found2 & Hrun2 & Hin2); [lia | done |].
    exists (found1 ++ found2). split.
    + intros values h Hagree. cbn [foldM fst snd].
      assert (Hag1 : agree_on fp1 h0 h)
        by (intros x Hx; apply Hagree; set_solver).
      assert (H1 := Hrun1 values h Hag1). cbn [fst snd] in H1. mrun H1.
      rewrite Hrun2 by (intros x Hx; apply Hagree; set_solver).
      by rewrite <- app_assoc.
    + intros x. rewrite elem_of_app, Hin1, Hin2. split.
      * intros [[p Hw]|(k2 & v2 & p & Hg & Hw)].
        -- exists k1, v, p. simpl. by rewrite Z.eqb_refl.
        -- exists k2, v2, p. split; [|done]. simpl.
           destruct (Z.eqb_spec k1 k2) as [->|]; [|done].
           by apply dict_get_Some_key in Hg.
      * intros (k2 & v2 & p & Hg & Hw). simpl in Hg.
        destruct (Z.eqb_spec k1 k2) as [<-|Hne].
        -- injection Hg as <-. left. by exists p.
        -- right. by exists k2, v2, p.
Qed.

Lemma recursive_get_values_from_key_run h a t fp fuel k :
  own h (VDict a) t fp ->
  depth t <= fuel ->
  exists values,
    recursive_get_values_from_key fuel (VDict a) k h = Ret values h /\
    (forall o x, h !! a = Some o -> dict_get o k = Some x ->
                 exists l, values = x :: l) /\
    forall x, x ∈ values <-> exists p, walk h (VDict a) (p ++ [k]) = Some x.
Proof.
  intros Hown Hfuel.
  destruct (proj1 (get_values_walk h k) _ _ _ Hown fuel Hfuel)
    as (found & Hrun & Hfirst & Hin).
  exists found. split; [|split; [|done]].
  - unfold recursive_get_values_from_key.
    exact (Hrun [] h (fun x _ => eq_refl)).
  - intros o x. by apply Hfirst.
Qed.

(** X5: on a nested dictionary, [recursive_get_values_from_key] returns,
    without changing the store, a list whose elements are exactly the
    values that some key path ending with the key leads to, at any depth;
    when the key is in the outer dictionary, its value there comes
    first. *)
Theorem recursive_get_values_from_key_all h a t fp fuel k :
  own h (VDict a) t fp ->
  depth t <= fuel ->
  exists values,
    recursive_get_values_from_key fuel (VDict a) k h = Ret values h /\
    (forall x, x ∈ values <->
               exists p, walk h (VDict a) (p ++ [k]) = Some x) /\
    (forall x, walk h (VDict a) [k] = Some x -> exists l, values = x :: l).
Proof.
  intros Hown Hfuel.
  destruct (recursive_get_values_from_key_run h a t fp fuel k Hown Hfuel)
    as (values & Hrun & Hfirst & Hin).
  exists values. split; [done|]. split; [done|].
  intros x Hx. simpl in Hx. destruct (h !! a) as [o|] eqn:Ha; [|done].
  destruct (dict_get o k) as [v|] eqn:Hg; [|done].
  injection Hx as <-. by eapply Hfirst.
Qed.

Lemma recursive_get_values_from_key_all_example :
  exists values,
    recursive_get_values_from_key 3 d_example 7 h_example =
      Ret values h_example /\
    (forall x, x ∈ values <->
               exists p, walk h_example d_example (p ++ [7%Z]) = Some x) /\
    (forall x, walk h_example d_example [7%Z] = Some x ->
               exists l, values = x :: l).
Proof.
  apply (recursive_get_values_from_key_all h_example 3 T_example fp_example
           3 7%Z).
  - apply own_example.
  - vm_compute. lia.
Defined.

(** ** [recursive_get_values_from_keys] *)

Lemma values_get_set r k vs k' :
  values_get (values_set r k vs) k' =
  if Z.eqb k k' then Some vs else values_get r k'.
Proof.
  induction r as [|[k1 vs1] r IH]; simpl.
  - by destruct (Z.eqb k k').
  - destruct (Z.eqb_spec k1 k) as [->|Hne]; simpl.
    + by destruct (Z.eqb k k').
    + destruct (Z.eqb_spec k1 k') as [->|Hne'].
      * by destruct (Z.eqb_spec k k').
      * apply IH.
Qed.

Lemma values_set_keys r k vs :
  (values_set r k vs).*1 = if bool_decide (k ∈ r.*1) then r.*1 else r.*1 ++ [k].
Proof.
  induction r as [|[k1 vs1] r IH]; [done|]. cbn [values_set].
  destruct (Z.eqb_spec k1 k) as [->|Hne]; rewrite !fmap_cons; cbn [fst].
  - rewrite bool_decide_eq_true_2; [done | set_solver].
  - rewrite IH. destruct (decide (k ∈ r.*1)) as [Hin|Hin].
    + rewrite !bool_decide_eq_true_2; [done | set_solver | done].
    + rewrite !bool_decide_eq_false_2; [done | set_solver | done].
Qed.

Lemma get_values_from_keys_fold (body : Z -> M (list val)) h keys : forall r0,
  (forall k, k ∈ keys -> exists vs, body k h = Ret vs h) ->
  NoDup r0.*1 ->
  exists r,
    foldM (fun r k => let* vs := body k in ret (values_set r k vs)) keys r0 h
      = Ret r h /\
    NoDup r.*1 /\
    (forall k, k ∈ r.*1 <-> k ∈ r0.*1 \/ k ∈ keys) /\
    (forall k, k ∈ keys ->
               exists vs, values_get r k = Some vs /\ body k h = Ret vs h) /\
    (forall k, k ∉ keys -> values_get r k = values_get r0 k).
Proof.
  induction keys as [|k0 keys IH]; intros r0 Hbody Hnd.
  - exists r0. split; [done|]. split; [done|]. split; [set_solver|].
    split; [|done]. by intros k ?%elem_of_nil.
  - destruct (Hbody k0) as [vs0 Hrun0]; [set_solver|].
    destruct (IH (values_set r0 k0 vs0)) as (r & Hrun & Hnd' & Hkeys & Hget & Hold).
    { intros k Hk. apply Hbody. set_solver. }
    { rewrite values_set_keys. case_bool_decide; [done|].
      apply NoDup_app. split; [done|]. split; [set_solver|].
      apply NoDup_singleton. }
    exists r. split; [|split; [done|split; [|split]]].
    + cbn [foldM]. unfold bind at 1. unfold bind at 1. rewrite Hrun0.
      unfold ret at 1. exact Hrun.
    + intros k. rewrite Hkeys, values_set_keys.
      case_bool_decide; set_solver.
    + intros k Hk. destruct (decide (k ∈ keys)) as [Hin|Hnin];
        [by apply Hget|].
      assert (k = k0) as -> by set_solver.
      exists vs0. split; [|done].
      rewrite (Hold _ Hnin), values_get_set. by rewrite Z.eqb_refl.
    + intros k Hk. rewrite Hold by set_solver. rewrite values_get_set.
      destruct (Z.eqb_spec k0 k) as [->|]; [set_solver | done].
Qed.

(** X6: on a nested dictionary, [recursive_get_values_from_keys] returns,
    without changing the store, a dictionary whose keys are the given
    keys, each once, and that maps each of them to the list of the values
    that the key paths ending with it lead to. *)
Theorem recursive_get_values_from_keys_all h a t fp fuel keys :
  own h (VDict a) t fp ->
  depth t <= fuel ->
  exists r,
    recursive_get_values_from_keys fuel (VDict a) keys h = Ret r h /\
    NoDup r.*1 /\
    (forall k, k ∈ r.*1 <-> k ∈ keys) /\
    forall k, k ∈ keys ->
      exists vs,
        values_get r k = Some vs /\
        recursive_get_values_from_key fuel (VDict a) k h = Ret vs h /\
        forall x, x ∈ vs <-> exists p, walk h (VDict a) (p ++ [k]) = Some x.
Proof.
  intros Hown Hfuel.
  destruct (get_values_from_keys_fold
              (recursive_get_values_from_key fuel (VDict a)) h keys [])
    as (r & Hrun & Hnd & Hkeys & Hget & _).
  { intros k _.
    destruct (recursive_get_values_from_key_run h a t fp fuel k Hown Hfuel)
      as (vs & Hvs & _). by exists vs. }
  { apply NoDup_nil_2. }
  exists r. split; [done|]. split; [done|]. split.
  - intros k. rewrite Hkeys. set_solver.
  - intros k Hk. destruct (Hget k Hk) as (vs & Hg & Hvs).
    exists vs. split; [done|]. split; [done|].
    destruct (recursive_get_values_from_key_run h a t fp fuel k Hown Hfuel)
      as (vs' & Hvs' & _ & Hin).
    rewrite Hvs in Hvs'. by injection Hvs' as <-.
Qed.

Lemma recursive_get_values_from_keys_all_example :
  exists r,
    recursive_get_values_from_keys 3 d_example [3; 6]%Z h_example =
      Ret r h_example /\
    NoDup r.*1 /\
    (forall k, k ∈ r.*1 <-> k ∈ [3; 6]%Z) /\
    forall k, k ∈ [3; 6]%Z ->
      exists vs,
        values_get r k = Some vs /\
        recursive_get_values_from_key 3 d_example k h_example =
          Ret vs h_example /\
        forall x, x ∈ vs <->
                  exists p, walk h_example d_example (p ++ [k]) = Some x.
Proof.
  apply (recursive_get_values_from_keys_all h_example 3 T_example fp_example
           3 [3; 6]%Z).
  - apply own_example.
  - vm_compute. lia.
Defined.

(** ** [recursive_get_key_paths] *)

Lemma entry_in_spec e key_paths : entry_in e key_paths = true <-> e ∈ key_paths.
Proof.
  unfold entry_in. rewrite existsb_exists. split.
  - intros (e' & Hin & Heq). apply bool_decide_eq_true in Heq as ->.
    by apply list_elem_of_In.
  - intros Hin. exists e. split; [by apply list_elem_of_In|].
    by apply bool_decide_eq_true.
Qed.

Lemma key_paths_step_dict f a kp value acc :
  key_paths_step (S f) (VDict a) kp value acc =
  (let* o := load a in
   foldM (key_paths_item (fun v kp kps => key_paths_step f v kp value kps)
                         kp value) o acc).
Proof. reflexivity. Qed.

Lemma leads_to_value_leaf h z value p :
  leads_to_value h (VLeaf z) value p <-> p = [] /\ z = value.
Proof.
  unfold leads_to_value. split.
  - intros [[y Hy]|Hw]; [by rewrite walk_leaf_snoc in Hy|].
    destruct p; [|done]. simpl in Hw. by injection Hw as ->.
  - intros [-> ->]. by right.
Qed.

Lemma leads_to_value_dict (h : list (list (Z * val))) a o value p :
  h !! a = Some o ->
  leads_to_value h (VDict a) value p <->
  (p = [] /\ is_Some (dict_get o value)) \/
  exists k1 v1 p', p = k1 :: p' /\ dict_get o k1 = Some v1 /\
                   leads_to_value h v1 value p'.
Proof.
  intros Ha. unfold leads_to_value. destruct p as [|k1 p']; simpl; rewrite Ha.
  - split.
    + intros [[y Hy]|[=]]. left. split; [done|].
      destruct (dict_get o value); [by eexists | done].
    + intros [[_ [y Hy]]|(k1 & v1 & p' & [=] & _)]. left. exists y.
      by rewrite Hy.
  - split.
    + intros H. right. destruct (dict_get o k1) as [v1|] eqn:Hg.
      * by exists k1, v1, p'.
      * by destruct H as [[y Hy]|Hw].
    + intros [[[=] _]|(k2 & v1 & p2 & [= <- <-] & Hg & H)]. by rewrite Hg.
Qed.

Lemma dict_get_cons_ex (P : Z -> val -> Prop) k1 v1 (o : list (Z * val)) :
  k1 ∉ o.*1 ->
  (exists k2 v2, dict_get ((k1, v1) :: o) k2 = Some v2 /\ P k2 v2) <->
  P k1 v1 \/ exists k2 v2, dict_get o k2 = Some v2 /\ P k2 v2.
Proof.
  intros Hk. split.
  - intros (k2 & v2 & Hg & HP). simpl in Hg.
    destruct (Z.eqb_spec k1 k2) as [<-|Hne].
    + injection Hg as <-. by left.
    + right. by exists k2, v2.
  - intros [HP|(k2 & v2 & Hg & HP)].
    + exists k1, v1. simpl. by rewrite Z.eqb_refl.
    + exists k2, v2. split; [|done]. simpl.
      destruct (Z.eqb_spec k1 k2) as [->|]; [|done].
      by apply dict_get_Some_key in Hg.
Qed.

Lemma key_paths_item_run h0 value f kp acc (h : list (list (Z * val))) k1 v1 :
  (forall a, v1 = VDict a -> forall acc',
     exists out,
       key_paths_step f v1 (kp ++ [k1]) value acc' h = Ret out h /\
       forall q x, (q, x) ∈ out <->
         (q, x) ∈ acc' \/
         (x = value /\
          exists p, q = (kp ++ [k1]) ++ p /\ leads_to_value h0 v1 value p)) ->
  exists acc3,
    key_paths_item (fun v kp kps => key_paths_step f v kp value kps)
                   kp value acc (k1, v1) h = Ret acc3 h /\
    forall q x, (q, x) ∈ acc3 <->
      (q, x) ∈ acc \/
      (x = value /\
       ((q = kp /\ k1 = value) \/
        exists p, q = kp ++ k1 :: p /\ leads_to_value h0 v1 value p)).
Proof.
  intros Hchild. unfold key_paths_item. cbn [fst snd].
  set (acc1 := if Z.eqb k1 value then acc ++ [(kp, k1)] else acc).
  assert (Hacc1 : forall q x, (q, x) ∈ acc1 <->
            (q, x) ∈ acc \/ (x = value /\ q = kp /\ k1 = value)).
  { intros q x. unfold acc1. destruct (Z.eqb_spec k1 value) as [->|Hne].
    - rewrite elem_of_app, list_elem_of_singleton. naive_solver.
    - naive_solver. }
  clearbody acc1. destruct v1 as [z|a1].
  - (* the value of the item is a leaf *)
    assert (Hleaf : forall q,
              (exists p, q = kp ++ k1 :: p /\
                         leads_to_value h0 (VLeaf z) value p) <->
              q = kp ++ [k1] /\ z = value).
    { intros q. split.
      - intros (p & -> & [-> ->]%leads_to_value_leaf). done.
      - intros [-> ->]. exists []. split; [done|].
        by apply leads_to_value_leaf. }
    cbn [is_dict]. unfold bind, ret.
    destruct (Z.eqb_spec z value) as [->|Hne].
    + destruct (entry_in (kp ++ [k1], value) acc1) eqn:Hin.
      * exists acc1. split; [done|]. intros q x.
        apply entry_in_spec, Hacc1 in Hin.
        rewrite Hacc1, Hleaf. split; [naive_solver|].
        intros [?|[-> [[-> ->]|[-> _]]]]; [by left|by right|].
        destruct Hin as [?|(_ & ? & ?)]; [by left | by right].
      * exists (acc1 ++ [(kp ++ [k1], value)]). split; [done|]. intros q x.
        rewrite elem_of_app, list_elem_of_singleton, Hacc1, Hleaf.
        naive_solver.
    + exists acc1. split; [done|]. intros q x. rewrite Hacc1, Hleaf.
      naive_solver.
  - (* the value of the item is a dictionary *)
    destruct (Hchild a1 eq_refl acc1) as (out & Hrun & Hin).
    cbn [is_dict]. mrun Hrun. exists out. split; [done|].
    intros q x. rewrite Hin, Hacc1. split.
    + intros [[?|(-> & -> & ->)]|(-> & p & -> & Hl)]; [by left| |].
      * right. split; [done|]. by left.
      * right. split; [done|]. right. exists p. by rewrite <- app_assoc.
    + intros [?|(-> & [[-> ->]|(p & -> & Hl)])]; [by left; left| |].
      * left. by right.
      * right. split; [done|]. exists p. by rewrite <- app_assoc.
Qed.

Lemma key_paths_walk h0 value :
  (forall v t fp, own h0 v t fp ->
     forall a, v = VDict a ->
     forall fuel kp acc h, depth t <= fuel -> agree_on fp h0 h ->
     exists out,
       key_paths_step fuel v kp value acc h = Ret out h /\
       forall q x, (q, x) ∈ out <->
         (q, x) ∈ acc \/
         (x = value /\
          exists p, q = kp ++ p /\ leads_to_value h0 v value p)) /\
  (forall o es fp, own_items h0 o es fp ->
     forall f kp acc h, depth_items es <= f -> NoDup o.*1 ->
     agree_on fp h0 h ->
     exists out,
       foldM (key_paths_item
                (fun v kp kps => key_paths_step f v kp value kps) kp value)
             o acc h = Ret out h /\
       forall q x, (q, x) ∈ out <->
         (q, x) ∈ acc \/
         (x = value /\
          ((q = kp /\ is_Some (dict_get o value)) \/
           exists k1 v1, dict_get o k1 = Some v1 /\
             exists p, q = kp ++ k1 :: p /\ leads_to_value h0 v1 value p))).
Proof.
  apply own_mutind.
  - (* a leaf *)
    by intros z a [=].
  - (* a dictionary *)
    intros a0 o es fp Ha Hnd _ IH _ a [= <-] fuel kp acc h Hfuel Hagree.
    rewrite depth_Branch in Hfuel. destruct fuel as [|f]; [lia|].
    destruct (IH f kp acc h) as (out & Hrun & Hin); [lia | done | |].
    { intros x Hx. apply Hagree. set_solver. }
    exists out. split.
    { rewrite key_paths_step_dict.
      assert (Hha : h !! a0 = Some o) by (rewrite Hagree; [done|set_solver]).
      by mload Hha. }
    intros q x. rewrite Hin. split.
    + intros [?|(-> & [[-> Hs]|(k1 & v1 & Hg & p & -> & Hl)])]; [by left| |].
      * right. split; [done|]. exists []. rewrite app_nil_r. split; [done|].
        apply (leads_to_value_dict _ _ _ _ _ Ha). by left.
      * right. split; [done|]. exists (k1 :: p). split; [done|].
        apply (leads_to_value_dict _ _ _ _ _ Ha). right. by exists k1, v1, p.
    + intros [?|(-> & p & -> & Hl)]; [by left|]. right. split; [done|].
      apply (leads_to_value_dict _ _ _ _ _ Ha) in Hl
        as [[-> Hs]|(k1 & v1 & p' & -> & Hg & Hl)].
      * left. by rewrite app_nil_r.
      * right. exists k1, v1. split; [done|]. by exists p'.
  - (* no item *)
    intros f kp acc h _ _ _. exists acc. split; [done|].
    intros q x. split; [by left|].
    intros [?|(_ & [[_ [y [=]]]|(k1 & v1 & [=] & _)])]. done.
  - (* one more item *)
    intros k1 v1 t o es fp1 fp2 _ IHv _ IHo Hdisj f kp acc h Hf Hnd Hagree.
    rewrite depth_items_cons in Hf.
    rewrite fmap_cons in Hnd. apply NoDup_cons in Hnd as [Hk Hnd].
    destruct (key_paths_item_run h0 value f kp acc h k1 v1)
      as (acc3 & Hrun1 & Hin1).
    { intros a1 Hv1 acc'. apply (IHv a1 Hv1 f); [lia|].
      intros x Hx. apply Hagree. set_solver. }
    destruct (IHo f kp acc3 h) as (out & Hrun2 & Hin2); [lia | done | |].
    { intros x Hx. apply Hagree. set_solver. }
    exists out. split.
    { cbn [foldM]. by mrun Hrun1. }
    intros q x. rewrite Hin2, Hin1.
    rewrite (dict_get_cons_ex
               (fun k2 v2 => exists p, q = kp ++ k2 :: p /\
                                       leads_to_value h0 v2 value p)
               k1 v1 o Hk).
    assert (Hs : is_Some (dict_get ((k1, v1) :: o) value) <->
                 k1 = value \/ is_Some (dict_get o value)).
    { simpl. destruct (Z.eqb_spec k1 value) as [->|Hne].
      - split; [by left | by eexists].
      - split; [by right | by intros [?|?]]. }
    rewrite Hs. clear. naive_solver.
Qed.

(** X7: on a nested dictionary, [recursive_get_key_paths] returns, without
    changing the store, a list of pairs whose second component is the
    value looked for and whose first component is a key path of one of
    two kinds, and every such key path is in the list: the key path of a
    dictionary that has the value among its keys (the empty key path for
    the outer dictionary), or a key path that leads to the value as a
    leaf. *)
Theorem recursive_get_key_paths_all h a t fp fuel value :
  own h (VDict a) t fp ->
  depth t <= fuel ->
  exists key_paths,
    recursive_get_key_paths fuel (VDict a) value h = Ret key_paths h /\
    forall q x, (q, x) ∈ key_paths <->
      x = value /\
      ((exists y, walk h (VDict a) (q ++ [value]) = Some y) \/
       walk h (VDict a) q = Some (VLeaf value)).
Proof.
  intros Hown Hfuel.
  destruct (proj1 (key_paths_walk h value) _ _ _ Hown a eq_refl fuel [] [] h
              Hfuel (fun x _ => eq_refl)) as (out & Hrun & Hin).
  exists out. split; [done|]. intros q x. rewrite Hin.
  unfold leads_to_value. split.
  - intros [?%elem_of_nil|(-> & p & -> & Hl)]; done.
  - intros [-> Hl]. right. split; [done|]. by exists q.
Qed.

Lemma recursive_get_key_paths_all_example :
  exists key_paths,
    recursive_get_key_paths 3 d_example 7 h_example =
      Ret key_paths h_example /\
    forall q x, (q, x) ∈ key_paths <->
      x = 7%Z /\
      ((exists y, walk h_example d_example (q ++ [7%Z]) = Some y) \/
       walk h_example d_example q = Some (VLeaf 7)).
Proof.
  apply (recursive_get_key_paths_all h_example 3 T_example fp_example 3 7%Z).
  - apply own_example.
  - vm_compute. lia.
Defined.

(** ** Key paths in the store and in the tree *)


Lemma walk_leaf_iff h d t fp p z :
  own h d t fp ->
  walk h d p = Some (VLeaf z) <-> tree_walk t p = Some (Leaf z).
Proof.
  intros Hown. split; [by eapply own_walk_leaf_inv | by eapply own_walk_leaf].
Qed.


(** ** [recursive_map_dict] and [recursive_filter_dict] in both modes *)




(** ** [recursive_map_dict] maps the selected leaves *)

















(** ** [recursive_filter_dict] twice *)




(** ** Key paths after a change of the store *)

Lemma own_dict_items h a t fp :
  own h (VDict a) t fp ->
  exists o es fp0,
    t = Branch es /\ fp = {[a]} ∪ fp0 /\ h !! a = Some o /\ NoDup o.*1 /\
    own_items h o es fp0 /\ a ∉ fp0.
Proof. inversion 1; subst. by eexists _, _, _. Qed.

(** A key path that stays in unchanged objects leads to the same value. *)
Lemma walk_frame (h h' : list (list (Z * val))) q : forall v t fp,
  own h v t fp -> (forall x, x ∈ fp -> h' !! x = h !! x) ->
  walk h' v q = walk h v q.
Proof.
  induction q as [|k q IH]; intros v t fp Hown Hfr; [done|].
  destruct v as [z|a]; [done|].
  destruct (own_dict_items _ _ _ _ Hown)
    as (o & es & fp0 & -> & -> & Ha & Hnd & Hitems & Hni).
  simpl. rewrite Hfr by set_solver. rewrite Ha.
  destruct (dict_get o k) as [v1|] eqn:Hg; [|done].
  destruct (own_items_dict_get _ _ _ _ _ _ Hitems Hg)
    as (t1 & fp1 & Hv1 & Hsub & _).
  apply (IH v1 t1 fp1 Hv1). intros x Hx. apply Hfr. set_solver.
Qed.

(** A dictionary that a key path leads to is one of the objects of the
    value the key path starts from. *)
Lemma walk_footprint h q : forall v t fp b,
  own h v t fp -> walk h v q = Some (VDict b) -> b ∈ fp.
Proof.
  induction q as [|k q IH]; intros v t fp b Hown Hw.
  - simpl in Hw. injection Hw as ->.
    destruct (own_dict_items _ _ _ _ Hown) as (o & es & fp0 & _ & -> & _).
    set_solver.
  - destruct v as [z|a]; [done|].
    destruct (own_dict_items _ _ _ _ Hown)
      as (o & es & fp0 & -> & -> & Ha & Hnd & Hitems & Hni).
    simpl in Hw. rewrite Ha in Hw.
    destruct (dict_get o k) as [v1|] eqn:Hg; [|done].
    destruct (own_items_dict_get _ _ _ _ _ _ Hitems Hg)
      as (t1 & fp1 & Hv1 & Hsub & _).
    pose proof (IH v1 t1 fp1 b Hv1 Hw). set_solver.
Qed.

(** Writing to the dictionary that a key path leads to does not change
    where the key path leads. *)
Lemma walk_store_own h pre : forall d t fp b o',
  own h d t fp -> walk h d pre = Some (VDict b) ->
  walk (<[b:=o']> h) d pre = Some (VDict b).
Proof.
  induction pre as [|k pre IH]; intros d t fp b o' Hown Hw; [done|].
  destruct d as [z|a]; [done|].
  destruct (own_dict_items _ _ _ _ Hown)
    as (o & es & fp0 & -> & -> & Ha & Hnd & Hitems & Hni).
  simpl in Hw. rewrite Ha in Hw.
  destruct (dict_get o k) as [v1|] eqn:Hg; [|done].
  destruct (own_items_dict_get _ _ _ _ _ _ Hitems Hg)
    as (t1 & fp1 & Hv1 & Hsub & _).
  assert (Hb : b ∈ fp1) by (by eapply walk_footprint).
  assert (Hne : b <> a) by set_solver.
  simpl. rewrite (lookup_store_ne _ _ _ _ Hne), Ha, Hg.
  by eapply IH.
Qed.

Lemma walk_snoc h pre : forall d b o k,
  walk h d pre = Some (VDict b) -> h !! b = Some o ->
  walk h d (pre ++ [k]) = dict_get o k.
Proof.
  induction pre as [|k1 pre IH]; intros d b o k Hw Hb.
  - simpl in Hw. injection Hw as ->. simpl. rewrite Hb.
    by destruct (dict_get o k).
  - destruct d as [z|a]; [done|]. simpl in *.
    destruct (h !! a) as [oa|]; [|done].
    destruct (dict_get oa k1) as [v1|]; [|done]. by eapply IH.
Qed.

Lemma dict_set_set o k v w : dict_set (dict_set o k v) k w = dict_set o k w.
Proof.
  induction o as [|[k' v'] o IH]; simpl.
  - by rewrite Z.eqb_refl.
  - destruct (Z.eqb_spec k' k) as [->|Hne]; simpl.
    + by rewrite Z.eqb_refl.
    + destruct (Z.eqb_spec k' k); [done|]. by rewrite IH.
Qed.

Lemma dict_set_same o k v : dict_get o k = Some v -> dict_set o k v = o.
Proof.
  induction o as [|[k' v'] o IH]; simpl; [done|].
  destruct (Z.eqb_spec k' k) as [->|Hne].
  - by intros [= ->].
  - intros H. by rewrite IH.
Qed.

Lemma dict_del_set_new o k v : dict_get o k = None -> dict_del (dict_set o k v) k = o.
Proof.
  induction o as [|[k' v'] o IH]; simpl.
  - by rewrite Z.eqb_refl.
  - destruct (Z.eqb_spec k' k) as [->|Hne]; [done|]. simpl.
    destruct (Z.eqb_spec k' k); [done|]. intros H. by rewrite IH.
Qed.

Lemma store_twice (h : list (list (Z * val))) b o o' :
  h !! b = Some o -> <[b:=o]> (<[b:=o']> h) = h.
Proof.
  intros Hb. rewrite list_insert_insert_eq. by apply list_insert_id.
Qed.

Lemma replace_last fuel h d pre k value path b o v :
  path_keys path = pre ++ [k] ->
  walk h d pre = Some (VDict b) ->
  h !! b = Some o ->
  dict_get o k = Some v ->
  recursive_replace fuel d (path, value) true h =
    Ret None (<[b:=dict_set o k value]> h).
Proof.
  intros Hpath Hwalk Hb Hg.
  rewrite recursive_replace_in_place, Hpath.
  rewrite (replace_step_walk pre h d (VDict b) [k]) by done.
  simpl. mload Hb. unfold dict_mem. rewrite Hg.
  by rewrite (store_Some _ _ _ _ Hb).
Qed.

(** X11: replacing in place the value that a key path leads to gives a
    dictionary in which the key path leads to the new value, and
    replacing it again by the value that was there restores the store as
    it was before the two calls. *)
Theorem recursive_replace_round_trip h d t fp fuel pre k path b o v value :
  own h d t fp ->
  path_keys path = pre ++ [k] ->
  walk h d pre = Some (VDict b) ->
  h !! b = Some o ->
  dict_get o k = Some v ->
  exists h1,
    recursive_replace fuel d (path, value) true h = Ret None h1 /\
    walk h1 d (pre ++ [k]) = Some value /\
    recursive_replace fuel d (path, v) true h1 = Ret None h.
Proof.
  intros Hown Hpath Hwalk Hb Hg.
  assert (Hlt : b < length h) by (by eapply lookup_lt_Some).
  assert (Hb1 : <[b:=dict_set o k value]> h !! b = Some (dict_set o k value))
    by (by apply lookup_store_eq).
  assert (Hwalk1 : walk (<[b:=dict_set o k value]> h) d pre = Some (VDict b))
    by (by eapply walk_store_own).
  exists (<[b:=dict_set o k value]> h). split; [|split].
  - by eapply replace_last.
  - rewrite (walk_snoc _ _ _ _ _ k Hwalk1 Hb1). apply dict_set_get.
  - rewrite (replace_last fuel _ d pre k v path b _ value Hpath Hwalk1 Hb1)
      by apply dict_set_get.
    rewrite dict_set_set, (dict_set_same _ _ _ Hg).
    by rewrite store_twice.
Qed.

Lemma recursive_replace_round_trip_example :
  exists h1,
    recursive_replace 3 d_example (PyTuple [3; 4]%Z, VLeaf 9) true h_example =
      Ret None h1 /\
    walk h1 d_example ([3%Z] ++ [4%Z]) = Some (VLeaf 9) /\
    recursive_replace 3 d_example (PyTuple [3; 4]%Z, VLeaf 5) true h1 =
      Ret None h_example.
Proof.
  apply (recursive_replace_round_trip h_example d_example T_example
           fp_example 3 [3%Z] 4%Z (PyTuple [3; 4]%Z) 0 [(4%Z, VLeaf 5)]
           (VLeaf 5) (VLeaf 9)).
  - apply own_example.
  - reflexivity.
  - reflexivity.
  - reflexivity.
  - reflexivity.
Defined.

Lemma add_last fuel h d pre k value path b o :
  path_keys path = pre ++ [k] ->
  walk h d pre = Some (VDict b) ->
  h !! b = Some o ->
  recursive_add fuel d (path, value) true h =
    Ret (None, []) (<[b:=dict_set o k value]> h).
Proof.
  intros Hpath Hwalk Hb.
  rewrite recursive_add_eq, Hpath. unfold new_dict.
  unfold ret at 1, bind at 1.
  assert (Hstep : add_step d (pre ++ [k]) value path h =
                  Ret [] (<[b:=dict_set o k value]> h)).
  { rewrite (add_step_walk pre h d (VDict b) [k]) by done.
    rewrite add_step_last. mload Hb. by mstore Hb. }
  by mrun Hstep.
Qed.

Lemma py_eq_leaves fuel h x y :
  py_eq fuel h (VLeaf x) (VLeaf y) = Some (Z.eqb x y).
Proof. by destruct fuel. Qed.

Lemma remove_last_leaf fuel h d pre k z path b o :
  path_keys path = pre ++ [k] ->
  walk h d pre = Some (VDict b) ->
  h !! b = Some o ->
  dict_get o k = Some (VLeaf z) ->
  recursive_remove fuel d (path, VLeaf z) true h =
    Ret None (<[b:=dict_del o k]> h).
Proof.
  intros Hpath Hwalk Hb Hg.
  rewrite recursive_remove_in_place, Hpath.
  rewrite (remove_step_walk fuel pre h d (VDict b) [k]) by done.
  cbn [remove_step]. mload Hb. rewrite Hg.
  unfold bind, eq_values. rewrite py_eq_leaves, Z.eqb_refl.
  by rewrite (store_Some _ _ _ _ Hb).
Qed.

(** X12: adding in place a leaf under a key that the dictionary at the end
    of the key path does not have gives no warning and a dictionary in
    which the key path leads to the leaf; removing then the same key path
    with the same leaf restores the store as it was before the two
    calls. *)
Theorem recursive_add_remove_round_trip h d t fp fuel pre k path b o z :
  own h d t fp ->
  path_keys path = pre ++ [k] ->
  walk h d pre = Some (VDict b) ->
  h !! b = Some o ->
  dict_get o k = None ->
  exists h1,
    recursive_add fuel d (path, VLeaf z) true h = Ret (None, []) h1 /\
    walk h1 d (pre ++ [k]) = Some (VLeaf z) /\
    recursive_remove fuel d (path, VLeaf z) true h1 = Ret None h.
Proof.
  intros Hown Hpath Hwalk Hb Hg.
  assert (Hlt : b < length h) by (by eapply lookup_lt_Some).
  set (h1 := <[b:=dict_set o k (VLeaf z)]> h).
  assert (Hb1 : h1 !! b = Some (dict_set o k (VLeaf z)))
    by (by apply lookup_store_eq).
  assert (Hwalk1 : walk h1 d pre = Some (VDict b))
    by (by eapply walk_store_own).
  exists h1. split; [|split].
  - by eapply add_last.
  - rewrite (walk_snoc _ _ _ _ _ k Hwalk1 Hb1). apply dict_set_get.
  - rewrite (remove_last_leaf fuel h1 d pre k z path b _ Hpath Hwalk1 Hb1)
      by apply dict_set_get.
    rewrite (dict_del_set_new _ _ _ Hg). unfold h1. by rewrite store_twice.
Qed.

Lemma recursive_add_remove_round_trip_example :
  exists h1,
    recursive_add 3 d_example (PyTuple [6; 3; 12]%Z, VLeaf 13) true h_example =
      Ret (None, []) h1 /\
    walk h1 d_example ([6; 3]%Z ++ [12%Z]) = Some (VLeaf 13) /\
    recursive_remove 3 d_example (PyTuple [6; 3; 12]%Z, VLeaf 13) true h1 =
      Ret None h_example.
Proof.
  apply (recursive_add_remove_round_trip h_example d_example T_example
           fp_example 3 [6; 3]%Z 12%Z (PyTuple [6; 3; 12]%Z) 1
           [(7%Z, VLeaf 8)] 13%Z).
  - apply own_example.
  - reflexivity.
  - reflexivity.
  - reflexivity.
  - reflexivity.
Defined.

(** ** [recursive_add] creates what is missing and leaves the rest *)

Lemma own_items_get_disjoint h o es fp :
  own_items h o es fp ->
  forall k1 k2 v1 v2,
    k1 <> k2 -> dict_get o k1 = Some v1 -> dict_get o k2 = Some v2 ->
    exists t1 fp1 t2 fp2,
      own h v1 t1 fp1 /\ own h v2 t2 fp2 /\
      fp1 ⊆ fp /\ fp2 ⊆ fp /\ fp1 ## fp2.
Proof.
  induction 1 as [|k v t o es fpA fpB Hv Ho IH Hd];
    intros k1 k2 v1 v2 Hne H1 H2; [done|].
  simpl in H1, H2.
  destruct (Z.eqb_spec k k1) as [He1|Hn1];
    destruct (Z.eqb_spec k k2) as [He2|Hn2].
  - congruence.
  - injection H1 as <-.
    destruct (own_items_dict_get _ _ _ _ _ _ Ho H2) as (t2 & fp2 & Hv2 & Hs & _).
    exists t, fpA, t2, fp2. repeat split; [done|done|set_solver..].
  - injection H2 as <-.
    destruct (own_items_dict_get _ _ _ _ _ _ Ho H1) as (t1 & fp1 & Hv1 & Hs & _).
    exists t1, fp1, t, fpA. repeat split; [done|done|set_solver..].
  - destruct (IH k1 k2 v1 v2 Hne H1 H2)
      as (t1 & fp1 & t2 & fp2 & Hv1 & Hv2 & Hs1 & Hs2 & Hdj).
    exists t1, fp1, t2, fp2. repeat split; [done|done|set_solver..].
Qed.

Lemma add_step_lookup path : forall h a t fp value init,
  own h (VDict a) t fp ->
  path <> [] ->
  (forall pre suf z, path = pre ++ suf -> suf <> [] ->
                     walk h (VDict a) pre <> Some (VLeaf z)) ->
  exists h',
    add_step (VDict a) path value init h = Ret [] h' /\
    walk h' (VDict a) path = Some value /\
    forall q v, walk h (VDict a) q = Some v -> ~ path `prefix_of` q ->
                walk h' (VDict a) q = Some v.
Proof.
  induction path as [|k rest IH]; intros h a t fp value init Hown Hne Hfree;
    [done|].
  destruct (own_dict_items _ _ _ _ Hown)
    as (o & es & fp0 & -> & -> & Ha & Hnd & Hitems & Hni).
  assert (Halt : a < length h) by (by eapply lookup_lt_Some).
  destruct rest as [|k' rest].
  - (* the last key: the value is set *)
    exists (<[a:=dict_set o k value]> h). split; [|split].
    + rewrite add_step_last. mload Ha. by mstore Ha.
    + simpl. rewrite lookup_store_eq by done.
      by rewrite (proj1 (dict_set_get o k value)).
    + intros [|k1 q] v Hw Hnp; [done|]. simpl in Hw. rewrite Ha in Hw.
      destruct (dict_get o k1) as [v1|] eqn:Hg; [|done].
      assert (Hk : k1 <> k).
      { intros ->. apply Hnp. by exists q. }
      destruct (own_items_dict_get _ _ _ _ _ _ Hitems Hg)
        as (t1 & fp1 & Hv1 & Hsub & _).
      simpl. rewrite lookup_store_eq by done.
      rewrite (proj2 (dict_set_get o k value) k1 Hk), Hg, <- Hw.
      apply (walk_frame _ _ _ _ _ _ Hv1).
      intros x Hx. apply lookup_store_ne. set_solver.
  - (* a key before the last *)
    rewrite add_step_cons. mload Ha. unfold dict_mem.
    destruct (dict_get o k) as [v1|] eqn:Hg.
    + (* the key is there *)
      unfold ret at 1, bind at 1. mload Ha. rewrite Hg.
      destruct (own_items_dict_get _ _ _ _ _ _ Hitems Hg)
        as (t1 & fp1 & Hv1 & Hsub & _).
      destruct v1 as [z|a1].
      { exfalso. apply (Hfree [k] (k' :: rest) z); [done|done|].
        simpl. by rewrite Ha, Hg. }
      destruct (IH h a1 t1 fp1 value init Hv1) as (h' & Hrun & Hwalk & Hframe);
        [done| |].
      { intros pre suf z Hsplit Hsuf Hleaf.
        apply (Hfree (k :: pre) suf z); [by rewrite Hsplit|done|].
        simpl. by rewrite Ha, Hg. }
      pose proof (add_step_touches (k' :: rest) h (VDict a1) t1 fp1 value init
                    Hv1) as Ht.
      rewrite Hrun in Ht. destruct Ht as [Hsame _].
      assert (Ha' : h' !! a = Some o).
      { rewrite Hsame; [done|done|set_solver]. }
      exists h'. split; [done|]. split.
      * rewrite <- Hwalk. apply (walk_dict_cons _ _ _ _ _ _ Ha' Hg).
      * intros [|k1 q] v Hw Hnp; [done|]. simpl in Hw. rewrite Ha in Hw.
        destruct (dict_get o k1) as [v2|] eqn:Hg2; [|done].
        rewrite (walk_dict_cons _ _ _ _ _ _ Ha' Hg2).
        destruct (Z.eq_dec k1 k) as [->|Hk].
        -- rewrite Hg in Hg2. injection Hg2 as <-. apply Hframe; [done|].
           intros Hp. apply Hnp. by apply prefix_cons.
        -- destruct (own_items_get_disjoint _ _ _ _ Hitems k1 k v2 (VDict a1)
                       Hk Hg2 Hg)
             as (t2 & fp2 & t1' & fp1' & Hv2 & Hv1' & Hs2 & Hs1 & Hdj).
           pose proof (add_step_touches (k' :: rest) h (VDict a1) t1' fp1'
                         value init Hv1') as Ht'.
           rewrite Hrun in Ht'. destruct Ht' as [Hsame' _].
           rewrite <- Hw. apply (walk_frame _ _ _ _ _ _ Hv2).
           intros x Hx. apply Hsame'; [|set_solver].
           by apply (proj1 (own_bound h) _ _ _ Hv2).
    + (* the key is not there: a dictionary is created *)
      set (e := length h).
      set (h1 := <[a:=dict_set o k (VDict e)]> (h ++ [[]])).
      assert (Hmk : (let* e := alloc [] in store a (dict_set o k (VDict e))) h
                    = Ret tt h1).
      { unfold bind, alloc. rewrite store_lt; [done|].
        rewrite length_app. simpl. lia. }
      mrun Hmk.
      assert (Ha1 : h1 !! a = Some (dict_set o k (VDict e))).
      { apply lookup_store_eq. rewrite length_app. simpl. lia. }
      assert (He1 : h1 !! e = Some []).
      { unfold h1. rewrite lookup_store_ne by lia. apply lookup_alloc_fresh. }
      mload Ha1. rewrite (proj1 (dict_set_get o k (VDict e))).
      destruct (IH h1 e (Branch []) ({[e]} ∪ ∅) value init)
        as (h' & Hrun & Hwalk & _); [by apply own_empty_dict|done| |].
      { intros pre suf z _ _. destruct pre as [|k2 pre]; [done|].
        simpl. by rewrite He1. }
      pose proof (add_step_touches (k' :: rest) h1 (VDict e) (Branch [])
                    ({[e]} ∪ ∅) value init (own_empty_dict _ _ He1)) as Ht.
      rewrite Hrun in Ht. destruct Ht as [Hsame _].
      assert (Hlen1 : length h1 = S (length h)).
      { unfold h1. rewrite length_insert, length_app. simpl. lia. }
      assert (Hold : forall x, x < length h -> h' !! x = h1 !! x).
      { intros x Hx. apply Hsame; [lia|]. unfold e. set_solver by lia. }
      assert (Ha' : h' !! a = Some (dict_set o k (VDict e)))
        by (by rewrite Hold).
      exists h'. split; [done|]. split.
      * rewrite <- Hwalk.
        apply (walk_dict_cons _ _ _ _ _ _ Ha').
        apply dict_set_get.
      * intros [|k1 q] v Hw Hnp; [done|]. simpl in Hw. rewrite Ha in Hw.
        destruct (dict_get o k1) as [v2|] eqn:Hg2; [|done].
        assert (Hk : k1 <> k) by (intros ->; congruence).
        destruct (own_items_dict_get _ _ _ _ _ _ Hitems Hg2)
          as (t2 & fp2 & Hv2 & Hs2 & _).
        assert (Hg2' : dict_get (dict_set o k (VDict e)) k1 = Some v2)
          by (by rewrite (proj2 (dict_set_get o k (VDict e)) k1 Hk)).
        rewrite (walk_dict_cons _ _ _ _ _ _ Ha' Hg2'), <- Hw.
        apply (walk_frame _ _ _ _ _ _ Hv2).
        intros x Hx.
        assert (Hxlt : x < length h)
          by (by apply (proj1 (own_bound h) _ _ _ Hv2)).
        rewrite (Hold x Hxlt). unfold h1.
        rewrite lookup_store_ne by set_solver.
        by apply lookup_app_l.
Qed.

(** X13: when no proper prefix of the key path leads to a leaf,
    [recursive_add] in place gives no warning, creates the dictionaries
    that are missing, and the key path then leads to the value; every key
    path that led somewhere and does not start with the key path given
    leads to the same value as before. *)
Theorem recursive_add_lookup h a t fp fuel path value :
  own h (VDict a) t fp ->
  path_keys path <> [] ->
  (forall pre suf z, path_keys path = pre ++ suf -> suf <> [] ->
                     walk h (VDict a) pre <> Some (VLeaf z)) ->
  exists h',
    recursive_add fuel (VDict a) (path, value) true h = Ret (None, []) h' /\
    walk h' (VDict a) (path_keys path) = Some value /\
    forall q v, walk h (VDict a) q = Some v ->
                ~ path_keys path `prefix_of` q ->
                walk h' (VDict a) q = Some v.
Proof.
  intros Hown Hne Hfree.
  destruct (add_step_lookup (path_keys path) h a t fp value path Hown Hne Hfree)
    as (h' & Hrun & Hwalk & Hframe).
  exists h'. split; [|done].
  rewrite recursive_add_eq. unfold new_dict.
  unfold ret at 1, bind at 1. by mrun Hrun.
Qed.

Lemma recursive_add_lookup_example :
  exists h',
    recursive_add 3 (VDict 3) (PyTuple [3; 9; 2]%Z, VLeaf 13) true h_example =
      Ret (None, []) h' /\
    walk h' (VDict 3) (path_keys (PyTuple [3; 9; 2]%Z)) = Some (VLeaf 13) /\
    forall q v, walk h_example (VDict 3) q = Some v ->
                ~ path_keys (PyTuple [3; 9; 2]%Z) `prefix_of` q ->
                walk h' (VDict 3) q = Some v.
Proof.
  apply (recursive_add_lookup h_example 3 T_example fp_example 3
           (PyTuple [3; 9; 2]%Z) (VLeaf 13)).
  - apply own_example.
  - discriminate.
  - intros pre suf z Hsplit Hsuf.
    destruct pre as [|k1 [|k2 [|k3 pre]]]; simpl in Hsplit.
    + discriminate.
    + injection Hsplit as <- _. vm_compute. discriminate.
    + injection Hsplit as <- <- _. vm_compute. discriminate.
    + injection Hsplit as <- <- <- Hrest.
      destruct pre; [|discriminate]. simpl in Hrest. by subst suf.
Defined.

(** ** [recursive_remove] deletes one entry and leaves the rest *)

Lemma walk_app h p : forall d q,
  walk h d (p ++ q) =
  match walk h d p with Some v => walk h v q | None => None end.
Proof.
  induction p as [|k p IH]; intros d q; [done|].
  destruct d as [z|a]; [done|]. simpl.
  destruct (h !! a) as [o|]; [|done].
  destruct (dict_get o k) as [v|]; [apply IH | done].
Qed.

Lemma walk_own h q : forall d t fp v,
  own h d t fp -> walk h d q = Some v ->
  exists t' fp', own h v t' fp' /\ fp' ⊆ fp.
Proof.
  induction q as [|k q IH]; intros d t fp v Hown Hw.
  - simpl in Hw. injection Hw as <-. by exists t, fp.
  - destruct d as [z|a]; [done|].
    destruct (own_dict_items _ _ _ _ Hown)
      as (o & es & fp0 & -> & -> & Ha & Hnd & Hitems & Hni).
    simpl in Hw. rewrite Ha in Hw.
    destruct (dict_get o k) as [v1|] eqn:Hg; [|done].
    destruct (own_items_dict_get _ _ _ _ _ _ Hitems Hg)
      as (t1 & fp1 & Hv1 & Hsub & _).
    destruct (IH v1 t1 fp1 v Hv1 Hw) as (t' & fp' & Hv & Hsub').
    exists t', fp'. split; [done | set_solver].
Qed.

(** Writing to the dictionary at the end of a key path changes nothing
    for the key paths that do not go through it. *)
Lemma walk_off_path h pre : forall d t fp b o' q,
  own h d t fp -> walk h d pre = Some (VDict b) ->
  ~ pre `prefix_of` q ->
  walk (<[b:=o']> h) d q = walk h d q.
Proof.
  induction pre as [|k0 pre IH]; intros d t fp b o' q Hown Hw Hnp.
  { exfalso. apply Hnp. by exists q. }
  destruct q as [|k1 q]; [done|].
  destruct d as [z|a]; [done|].
  destruct (own_dict_items _ _ _ _ Hown)
    as (o & es & fp0 & -> & -> & Ha & Hnd & Hitems & Hni).
  simpl in Hw. rewrite Ha in Hw.
  destruct (dict_get o k0) as [v0|] eqn:Hg0; [|done].
  destruct (own_items_dict_get _ _ _ _ _ _ Hitems Hg0)
    as (t0 & fp1 & Hv0 & Hsub & _).
  assert (Hb : b ∈ fp1) by (by eapply walk_footprint).
  assert (Hne : b <> a) by set_solver.
  simpl. rewrite (lookup_store_ne _ _ _ _ Hne), Ha.
  destruct (dict_get o k1) as [v1|] eqn:Hg1; [|done].
  destruct (Z.eq_dec k1 k0) as [->|Hk].
  - rewrite Hg0 in Hg1. injection Hg1 as <-.
    apply (IH v0 t0 fp1 b o' q Hv0 Hw).
    intros Hp. apply Hnp. by apply prefix_cons.
  - destruct (own_items_get_disjoint _ _ _ _ Hitems k1 k0 v1 v0 Hk Hg1 Hg0)
      as (t1 & fpA & t0' & fpB & Hv1 & Hv0' & Hs1 & Hs0 & Hdj).
    assert (Hb' : b ∈ fpB) by (by eapply walk_footprint).
    apply (walk_frame _ _ _ _ _ _ Hv1).
    intros x Hx. apply lookup_store_ne. set_solver.
Qed.

(** X14: when the key path leads to a leaf equal to the one given,
    [recursive_remove] in place deletes that entry and nothing else:
    afterwards the key path and the key paths that start with it lead
    nowhere, and every other key path leads where it led before. *)
Theorem recursive_remove_lookup h d t fp fuel pre k path b o z :
  own h d t fp ->
  path_keys path = pre ++ [k] ->
  walk h d pre = Some (VDict b) ->
  h !! b = Some o ->
  dict_get o k = Some (VLeaf z) ->
  exists h',
    recursive_remove fuel d (path, VLeaf z) true h = Ret None h' /\
    (forall q, (pre ++ [k]) `prefix_of` q -> walk h' d q = None) /\
    (forall q, ~ (pre ++ [k]) `prefix_of` q -> walk h' d q = walk h d q).
Proof.
  intros Hown Hpath Hwalk Hb Hg.
  assert (Hlt : b < length h) by (by eapply lookup_lt_Some).
  set (h' := <[b:=dict_del o k]> h).
  assert (Hb' : h' !! b = Some (dict_del o k)) by (by apply lookup_store_eq).
  assert (Hwalk' : walk h' d pre = Some (VDict b))
    by (by eapply walk_store_own).
  destruct (walk_own _ _ _ _ _ _ Hown Hwalk) as (tb & fpb & Hownb & _).
  destruct (own_dict_items _ _ _ _ Hownb)
    as (o0 & es & fp0 & -> & -> & Hb0 & Hnd & Hitems & Hni).
  rewrite Hb in Hb0. injection Hb0 as <-.
  destruct (dict_del_get o k Hnd) as [Hdel Hother].
  exists h'. split; [by eapply remove_last_leaf|]. split.
  - intros q [r ->]. rewrite <- app_assoc, walk_app, Hwalk'. simpl.
    by rewrite Hb', Hdel.
  - intros q Hnp. destruct (decide (pre `prefix_of` q)) as [[r ->]|Hpre].
    + rewrite !walk_app, Hwalk, Hwalk'.
      destruct r as [|k2 r]; [done|].
      assert (Hk : k2 <> k).
      { intros ->. apply Hnp. exists r. by rewrite <- app_assoc. }
      simpl. rewrite Hb, Hb', (Hother k2 Hk).
      destruct (dict_get o k2) as [v2|] eqn:Hg2; [|done].
      destruct (own_items_dict_get _ _ _ _ _ _ Hitems Hg2)
        as (t2 & fp2 & Hv2 & Hs2 & _).
      apply (walk_frame _ _ _ _ _ _ Hv2).
      intros x Hx. apply lookup_store_ne. set_solver.
    + by eapply walk_off_path.
Qed.

Lemma recursive_remove_lookup_example :
  exists h',
    recursive_remove 3 d_example (PyTuple [6; 7]%Z, VLeaf 10) true h_example =
      Ret None h' /\
    (forall q, ([6%Z] ++ [7%Z]) `prefix_of` q -> walk h' d_example q = None) /\
    (forall q, ~ ([6%Z] ++ [7%Z]) `prefix_of` q ->
               walk h' d_example q = walk h_example d_example q).
Proof.
  apply (recursive_remove_lookup h_example d_example T_example fp_example 3
           [6%Z] 7%Z (PyTuple [6; 7]%Z) 2
           [(3%Z, VDict 1); (7%Z, VLeaf 10)] 10%Z).
  - apply own_example.
  - reflexivity.
  - reflexivity.
  - reflexivity.
  - reflexivity.
Defined.

(** ** [recursive_add] keeps a nested dictionary a tree *)

Lemma own_functional h :
  (forall v t fp, own h v t fp ->
     forall t' fp', own h v t' fp' -> t = t' /\ fp = fp') /\
  (forall o es fp, own_items h o es fp ->
     forall es' fp', own_items h o es' fp' -> es = es' /\ fp = fp').
Proof.
  apply own_mutind.
  - intros z t' fp' H. by inversion H.
  - intros a o es fp Ha Hnd _ IH Hni t' fp' H. inversion H; subst.
    assert (o0 = o) as -> by congruence.
    destruct (IH _ _ ltac:(eassumption)) as [-> ->]. done.
  - intros es' fp' H. by inversion H.
  - intros k v t o es fp1 fp2 _ IHv _ IHo Hd es' fp' H. inversion H; subst.
    destruct (IHv _ _ ltac:(eassumption)) as [-> ->].
    destruct (IHo _ _ ltac:(eassumption)) as [-> ->]. done.
Qed.

Lemma own_items_get_both h o es fp k v :
  own_items h o es fp -> dict_get o k = Some v ->
  exists t fp', tree_get_key es k = Some t /\ own h v t fp' /\ fp' ⊆ fp.
Proof.
  intros Hitems Hg. destruct (tree_get_key es k) as [t|] eqn:Ht.
  - destruct (own_items_get _ _ _ _ _ _ Hitems Ht) as (v' & fp' & Hg' & Hv & Hs).
    rewrite Hg in Hg'. injection Hg' as <-. by exists t, fp'.
  - rewrite (own_items_get_None _ _ _ _ _ Hitems Ht) in Hg. done.
Qed.

Lemma dict_set_keys o k v :
  (dict_set o k v).*1 = if bool_decide (k ∈ o.*1) then o.*1 else o.*1 ++ [k].
Proof.
  induction o as [|[k1 v1] o IH]; [done|]. cbn [dict_set].
  destruct (Z.eqb_spec k1 k) as [->|Hne]; rewrite !fmap_cons; cbn [fst].
  - rewrite bool_decide_eq_true_2; [done | set_solver].
  - rewrite IH. destruct (decide (k ∈ o.*1)) as [Hin|Hin].
    + rewrite !bool_decide_eq_true_2; [done | set_solver | done].
    + rewrite !bool_decide_eq_false_2; [done | set_solver | done].
Qed.

Lemma dict_set_nodup o k v : NoDup o.*1 -> NoDup (dict_set o k v).*1.
Proof.
  intros Hnd. rewrite dict_set_keys. case_bool_decide; [done|].
  apply NoDup_app. split; [done|]. split; [set_solver|].
  apply NoDup_singleton.
Qed.

(** Setting a key that the dictionary does not have. *)
Lemma own_items_set_new h o es fp0 k v tv fpv :
  own_items h o es fp0 -> dict_get o k = None ->
  own h v tv fpv -> fpv ## fp0 ->
  exists fp', own_items h (dict_set o k v) (tree_set es k tv) fp' /\
              forall x, x ∈ fp' <-> x ∈ fp0 \/ x ∈ fpv.
Proof.
  intros Hitems. revert k v tv fpv.
  induction Hitems as [|k0 v0 t0 o es fpA fpB Hv0 Ho IH Hd];
    intros k v tv fpv Hg Hv Hdj.
  - exists (fpv ∪ ∅). split; [|set_solver]. simpl.
    constructor; [done | constructor | set_solver].
  - simpl in Hg. simpl. destruct (Z.eqb_spec k0 k) as [->|Hne]; [done|].
    destruct (IH k v tv fpv Hg Hv) as (fp' & Hitems' & Hfp'); [set_solver|].
    exists (fpA ∪ fp'). split; [|set_solver].
    constructor; [done | done |]. set_solver.
Qed.

(** Setting a key that the dictionary has, in a store where the objects
    of the other items are as they were. *)
Lemma own_items_set_old h h' o es fp0 k v0 t0 fpA v tv fpv :
  own_items h o es fp0 -> NoDup o.*1 ->
  dict_get o k = Some v0 -> own h v0 t0 fpA ->
  own h' v tv fpv ->
  (forall x, x ∈ fp0 -> x ∉ fpA -> h' !! x = h !! x) ->
  (forall x, x ∈ fpv -> x ∈ fp0 -> x ∈ fpA) ->
  exists fp', own_items h' (dict_set o k v) (tree_set es k tv) fp' /\
              forall x, x ∈ fp' -> x ∈ fpv \/ (x ∈ fp0 /\ x ∉ fpA).
Proof.
  intros Hitems. revert k v0 t0 fpA v tv fpv.
  induction Hitems as [|k0 v1 t1 o es fp1 fpB Hv1 Ho IH Hd];
    intros k v0 t0 fpA v tv fpv Hnd Hg Hv0 Hv Hsame Hfresh; [done|].
  rewrite fmap_cons in Hnd. apply NoDup_cons in Hnd as [Hk0 Hnd].
  simpl in Hg. simpl. destruct (Z.eqb_spec k0 k) as [->|Hne].
  - injection Hg as <-.
    destruct (proj1 (own_functional h) _ _ _ Hv1 _ _ Hv0) as [-> ->].
    exists (fpv ∪ fpB). split; [|set_solver].
    constructor; [done| |set_solver].
    apply (proj2 (own_frame h) _ _ _ Ho). intros x Hx.
    apply Hsame; set_solver.
  - destruct (own_items_dict_get _ _ _ _ _ _ Ho Hg) as (t0' & fpA' & Hv0' & Hs & _).
    destruct (proj1 (own_functional h) _ _ _ Hv0 _ _ Hv0') as [<- <-].
    destruct (IH k v0 t0 fpA v tv fpv Hnd Hg Hv0 Hv) as (fp' & Hitems' & Hfp').
    { intros x Hx. apply Hsame. set_solver. }
    { intros x Hx Hx'. apply Hfresh; [done | set_solver]. }
    exists (fp1 ∪ fp'). split.
    + constructor; [| done |].
      * apply (proj1 (own_frame h) _ _ _ Hv1). intros x Hx.
        apply Hsame; set_solver.
      * intros x Hx1 Hx'. apply Hfp' in Hx' as [Hxv|[HxB _]]; [|set_solver].
        pose proof (Hfresh x Hxv). set_solver.
    + intros x [Hx|Hx]%elem_of_union; [right; set_solver|].
      apply Hfp' in Hx. set_solver.
Qed.

Lemma tree_add_last k value es :
  tree_add [k] value (Branch es) = Branch (tree_set es k value).
Proof. reflexivity. Qed.

Lemma tree_add_cons k k' rest value es :
  tree_add (k :: k' :: rest) value (Branch es) =
  Branch (tree_set es k
            (tree_add (k' :: rest) value
               (match tree_get_key es k with
                | Some t1 => t1
                | None => Branch []
                end))).
Proof. reflexivity. Qed.

Lemma add_step_own path : forall h a t fp z init,
  own h (VDict a) t fp ->
  path <> [] ->
  (forall pre suf z', path = pre ++ suf -> suf <> [] ->
                      tree_walk t pre <> Some (Leaf z')) ->
  exists h' fp',
    add_step (VDict a) path (VLeaf z) init h = Ret [] h' /\
    own h' (VDict a) (tree_add path (Leaf z) t) fp' /\
    (forall x, x ∈ fp' -> x ∈ fp \/ length h <= x) /\
    length h <= length h'.
Proof.
  induction path as [|k rest IH]; intros h a t fp z init Hown Hne Hfree;
    [done|].
  destruct (own_dict_items _ _ _ _ Hown)
    as (o & es & fp0 & -> & -> & Ha & Hnd & Hitems & Hni).
  assert (Halt : a < length h) by (by eapply lookup_lt_Some).
  assert (Hfp0 : forall x, x ∈ fp0 -> x < length h)
    by (apply (proj2 (own_bound h) _ _ _ Hitems)).
  destruct rest as [|k' rest].
  - (* the last key *)
    set (h' := <[a:=dict_set o k (VLeaf z)]> h).
    assert (Ha' : h' !! a = Some (dict_set o k (VLeaf z)))
      by (by apply lookup_store_eq).
    assert (Hsame : forall x, x ∈ fp0 -> h' !! x = h !! x).
    { intros x Hx. apply lookup_store_ne. set_solver. }
    assert (Hitems' : exists fp',
              own_items h' (dict_set o k (VLeaf z))
                        (tree_set es k (Leaf z)) fp' /\
              forall x, x ∈ fp' -> x ∈ fp0).
    { destruct (dict_get o k) as [v0|] eqn:Hg.
      - destruct (own_items_dict_get _ _ _ _ _ _ Hitems Hg)
          as (t0 & fpA & Hv0 & Hs & _).
        destruct (own_items_set_old h h' o es fp0 k v0 t0 fpA (VLeaf z)
                    (Leaf z) ∅ Hitems Hnd Hg Hv0 (own_leaf h' z))
          as (fp' & Hi & Hfp'); [by auto | set_solver |].
        exists fp'. split; [done|]. intros x Hx. apply Hfp' in Hx. set_solver.
      - destruct (own_items_set_new h' o es fp0 k (VLeaf z) (Leaf z) ∅)
          as (fp' & Hi & Hfp');
          [by apply (proj2 (own_frame h) _ _ _ Hitems) | done
          | constructor | set_solver |].
        exists fp'. split; [done|]. intros x Hx. apply Hfp' in Hx. set_solver. }
    destruct Hitems' as (fp' & Hi & Hfp').
    exists h', ({[a]} ∪ fp'). split; [|split; [|split]].
    + rewrite add_step_last. mload Ha.
      by rewrite (bind_Ret _ _ _ _ _
                    (store_Some h a (dict_set o k (VLeaf z)) o Ha)).
    + rewrite tree_add_last.
      apply (own_dict_eq h' a (dict_set o k (VLeaf z)) _ fp');
        [done| |done| |done].
      * by apply dict_set_nodup.
      * intros Hin. apply Hni. by apply Hfp'.
    + intros x [->%elem_of_singleton|Hx]%elem_of_union; [set_solver|].
      left. apply Hfp' in Hx. set_solver.
    + unfold h'. by rewrite length_insert.
  - (* a key before the last *)
    rewrite add_step_cons, tree_add_cons. mload Ha. unfold dict_mem.
    destruct (dict_get o k) as [v1|] eqn:Hg.
    + (* the key is there *)
      unfold ret at 1, bind at 1. mload Ha. rewrite Hg.
      destruct (own_items_get_both _ _ _ _ _ _ Hitems Hg)
        as (t1 & fp1 & Ht1 & Hv1 & Hsub).
      rewrite Ht1.
      destruct v1 as [z0|a1].
      { exfalso. inversion Hv1; subst.
        apply (Hfree [k] (k' :: rest) z0); [done|done|].
        simpl. by rewrite Ht1. }
      destruct (IH h a1 t1 fp1 z init Hv1) as (h' & fp1' & Hrun & Hown' & Hb & Hl);
        [done| |].
      { intros pre suf z' Hsplit Hsuf Hleaf.
        apply (Hfree (k :: pre) suf z'); [by rewrite Hsplit|done|].
        simpl. by rewrite Ht1. }
      pose proof (add_step_touches (k' :: rest) h (VDict a1) t1 fp1 (VLeaf z)
                    init Hv1) as Ht.
      rewrite Hrun in Ht. destruct Ht as [Hsame _].
      assert (Ha' : h' !! a = Some o).
      { rewrite Hsame; [done|done|set_solver]. }
      destruct (own_items_set_old h h' o es fp0 k (VDict a1) t1 fp1 (VDict a1)
                  (tree_add (k' :: rest) (Leaf z) t1) fp1'
                  Hitems Hnd Hg Hv1 Hown')
        as (fp' & Hi & Hfp').
      { intros x Hx Hx1. apply Hsame; [by apply Hfp0 | done]. }
      { intros x Hx Hx0. destruct (Hb x Hx) as [?|Hge]; [done|].
        apply Hfp0 in Hx0. lia. }
      rewrite (dict_set_same _ _ _ Hg) in Hi.
      exists h', ({[a]} ∪ fp'). split; [done|]. split; [|split; [|done]].
      * apply (own_dict_eq h' a o _ fp'); [done|done|done| |done].
        intros Hin. apply Hfp' in Hin as [Hin|[Hin _]]; [|done].
        destruct (Hb a Hin) as [?|?]; [set_solver | lia].
      * intros x [->%elem_of_singleton|Hx]%elem_of_union; [set_solver|].
        apply Hfp' in Hx as [Hx|[Hx _]]; [|set_solver].
        destruct (Hb x Hx) as [?|?]; [left; set_solver | by right].
    + (* the key is not there: a dictionary is created *)
      assert (Ht1 : tree_get_key es k = None).
      { destruct (tree_get_key es k) as [t1|] eqn:Ht1; [|done].
        destruct (own_items_get _ _ _ _ _ _ Hitems Ht1) as (v & ? & Hg' & _).
        congruence. }
      rewrite Ht1.
      set (e := length h).
      set (h1 := <[a:=dict_set o k (VDict e)]> (h ++ [[]])).
      assert (Hmk : (let* e := alloc [] in store a (dict_set o k (VDict e))) h
                    = Ret tt h1).
      { unfold bind, alloc. rewrite store_lt; [done|].
        rewrite length_app. simpl. lia. }
      mrun Hmk.
      assert (Ha1 : h1 !! a = Some (dict_set o k (VDict e))).
      { apply lookup_store_eq. rewrite length_app. simpl. lia. }
      assert (He1 : h1 !! e = Some []).
      { unfold h1. rewrite lookup_store_ne by lia. apply lookup_alloc_fresh. }
      assert (Hlen1 : length h1 = S (length h)).
      { unfold h1. rewrite length_insert, length_app. simpl. lia. }
      mload Ha1. rewrite (proj1 (dict_set_get o k (VDict e))).
      destruct (IH h1 e (Branch []) ({[e]} ∪ ∅) z init)
        as (h' & fpe' & Hrun & Hown' & Hb & Hl);
        [by apply own_empty_dict|done| |].
      { intros pre suf z' _ _. by destruct pre. }
      pose proof (add_step_touches (k' :: rest) h1 (VDict e) (Branch [])
                    ({[e]} ∪ ∅) (VLeaf z) init (own_empty_dict _ _ He1)) as Ht.
      rewrite Hrun in Ht. destruct Ht as [Hsame _].
      assert (Hnew : forall x, x < length h1 -> x <> e -> h' !! x = h1 !! x).
      { intros x Hx Hxe. apply Hsame; [done | set_solver]. }
      assert (Hold : forall x, x < length h -> x <> a -> h' !! x = h !! x).
      { intros x Hx Hxa. rewrite Hnew; [|lia|unfold e; lia].
        unfold h1. rewrite lookup_store_ne by done. by apply lookup_app_l. }
      assert (Ha' : h' !! a = Some (dict_set o k (VDict e))).
      { rewrite Hnew; [done|lia|unfold e; lia]. }
      assert (Hitems' : own_items h' o es fp0).
      { apply (proj2 (own_frame h) _ _ _ Hitems). intros x Hx.
        apply Hold; [by apply Hfp0 | set_solver]. }
      assert (Hfresh : forall x, x ∈ fpe' -> length h <= x).
      { intros x Hx. destruct (Hb x Hx) as [Hx'|Hx']; [|lia].
        assert (x = e) as -> by set_solver. unfold e. lia. }
      destruct (own_items_set_new h' o es fp0 k (VDict e)
                  (tree_add (k' :: rest) (Leaf z) (Branch [])) fpe'
                  Hitems' Hg Hown')
        as (fp' & Hi & Hfp').
      { intros x Hx Hx0. apply Hfresh in Hx. apply Hfp0 in Hx0. lia. }
      exists h', ({[a]} ∪ fp'). split; [done|]. split; [|split; [|lia]].
      * apply (own_dict_eq h' a (dict_set o k (VDict e)) _ fp');
          [done| |done| |done].
        -- by apply dict_set_nodup.
        -- intros Hin. apply Hfp' in Hin as [Hin|Hin]; [done|].
           apply Hfresh in Hin. lia.
      * intros x [->%elem_of_singleton|Hx]%elem_of_union; [set_solver|].
        apply Hfp' in Hx as [Hx|Hx]; [left; set_solver|].
        right. by apply Hfresh.
Qed.

(** *** [tree_add] along key paths *)

Lemma tree_get_key_set es k t k' :
  tree_get_key (tree_set es k t) k' =
  if Z.eqb k k' then Some t else tree_get_key es k'.
Proof.
  induction es as [|[k1 t1] es IH]; simpl.
  - by destruct (Z.eqb k k').
  - destruct (Z.eqb_spec k1 k) as [->|Hne]; simpl.
    + by destruct (Z.eqb k k').
    + destruct (Z.eqb_spec k1 k') as [->|Hne'].
      * by destruct (Z.eqb_spec k k').
      * apply IH.
Qed.

Lemma tree_walk_app p : forall t q,
  tree_walk t (p ++ q) =
  match tree_walk t p with Some t' => tree_walk t' q | None => None end.
Proof.
  induction p as [|k p IH]; intros t q; [done|].
  destruct t as [z|es]; [done|]. simpl.
  destruct (tree_get_key es k) as [t'|]; [apply IH | done].
Qed.

Lemma tree_walk_add_path path value : forall es,
  path <> [] ->
  (forall pre suf z, path = pre ++ suf -> suf <> [] ->
                     tree_walk (Branch es) pre <> Some (Leaf z)) ->
  tree_walk (tree_add path value (Branch es)) path = Some value.
Proof.
  induction path as [|k rest IH]; intros es Hne Hfree; [done|].
  destruct rest as [|k' rest].
  - rewrite tree_add_last. simpl.
    by rewrite tree_get_key_set, Z.eqb_refl.
  - rewrite tree_add_cons. cbn [tree_walk].
    rewrite tree_get_key_set, Z.eqb_refl.
    destruct (tree_get_key es k) as [[z|es1]|] eqn:Hk.
    + exfalso. apply (Hfree [k] (k' :: rest) z); [done|done|].
      simpl. by rewrite Hk.
    + apply IH; [done|]. intros pre suf z Hsplit Hsuf Hleaf.
      apply (Hfree (k :: pre) suf z); [by rewrite Hsplit|done|].
      simpl. by rewrite Hk.
    + apply IH; [done|]. intros pre suf z _ _. by destruct pre.
Qed.

Lemma tree_walk_add_other path value : forall t q,
  ~ path `prefix_of` q -> ~ q `prefix_of` path ->
  tree_walk (tree_add path value t) q = tree_walk t q.
Proof.
  induction path as [|k rest IH]; intros t q Hpq Hqp; [done|].
  destruct q as [|k1 q]; [exfalso; apply Hqp; by eexists|].
  destruct t as [z|es]; [done|].
  destruct rest as [|k' rest].
  - rewrite tree_add_last. simpl. rewrite tree_get_key_set.
    destruct (Z.eqb_spec k k1) as [->|Hk]; [|done].
    exfalso. apply Hpq. by exists q.
  - rewrite tree_add_cons. cbn [tree_walk]. rewrite tree_get_key_set.
    destruct (Z.eqb_spec k k1) as [->|Hk]; [|done].
    assert (H1 : ~ (k' :: rest) `prefix_of` q).
    { intros Hp. apply Hpq. by apply prefix_cons. }
    assert (H2 : ~ q `prefix_of` (k' :: rest)).
    { intros Hp. apply Hqp. by apply prefix_cons. }
    rewrite (IH _ q H1 H2).
    destruct (tree_get_key es k1) as [t1|]; [done|].
    destruct q as [|k2 q]; [|done].
    exfalso. apply H2. by eexists.
Qed.

(** The leaves of the tree after [tree_add] of a leaf: the one added and
    those that were there elsewhere. *)
Lemma tree_add_leaves path z es q z' :
  path <> [] ->
  (forall pre suf z0, path = pre ++ suf -> suf <> [] ->
                      tree_walk (Branch es) pre <> Some (Leaf z0)) ->
  tree_walk (tree_add path (Leaf z) (Branch es)) q = Some (Leaf z') ->
  (q = path /\ z' = z) \/
  (tree_walk (Branch es) q = Some (Leaf z') /\
   ~ path `prefix_of` q /\ ~ q `prefix_of` path).
Proof.
  intros Hne Hfree Hw.
  pose proof (tree_walk_add_path path (Leaf z) es Hne Hfree) as Hp.
  destruct (decide (path `prefix_of` q)) as [[r ->]|Hpq].
  - rewrite tree_walk_app, Hp in Hw. destruct r as [|k r]; [|done].
    injection Hw as <-. left. by rewrite app_nil_r.
  - destruct (decide (q `prefix_of` path)) as [[s ->]|Hqp].
    + exfalso. rewrite tree_walk_app, Hw in Hp.
      destruct s as [|k s]; [|done]. apply Hpq. by rewrite app_nil_r.
    + right. by rewrite tree_walk_add_other in Hw.
Qed.

(** ** [recursive_build]: the first instance of a key path is used *)

Lemma paths_get_leaves (uz : list (list Z * Z)) p :
  paths_get (map (fun pv : list Z * Z => (pv.1, VLeaf pv.2)) uz) p =
  VLeaf <$> first_value uz p.
Proof.
  induction uz as [|[p' z] uz IH]; [done|]. simpl.
  by case_bool_decide.
Qed.

Lemma first_value_app uz1 uz2 p :
  first_value (uz1 ++ uz2) p =
  match first_value uz1 p with
  | Some z => Some z
  | None => first_value uz2 p
  end.
Proof.
  induction uz1 as [|[p' z] uz1 IH]; [done|]. simpl.
  by case_bool_decide.
Qed.

Lemma first_value_None (uz : list (list Z * Z)) p :
  first_value uz p = None <-> p ∉ uz.*1.
Proof.
  induction uz as [|[p' z] uz IH]; simpl.
  - split; [set_solver | done].
  - case_bool_decide as Hp.
    + split; [done|]. subst. set_solver.
    + rewrite IH. set_solver.
Qed.

Lemma first_value_in (uz : list (list Z * Z)) p :
  p ∈ uz.*1 <-> exists z, first_value uz p = Some z.
Proof.
  pose proof (first_value_None uz p) as H.
  destruct (first_value uz p) as [z|].
  - split; [by eexists|]. intros _.
    destruct (decide (p ∈ uz.*1)) as [|Hn]; [done|].
    by apply H in Hn.
  - split; [|by intros [z [=]]]. intros Hin. by apply H in Hin.
Qed.

Lemma collect_item_tuple unique w p v :
  collect_item (unique, w) (PyTuple p, v) =
  match paths_get unique p with
  | None => ret (unique ++ [(p, v)], w)
  | Some kept => ret (unique, w ++ [WarnSeveralInstances (PyTuple p) kept])
  end.
Proof. reflexivity. Qed.

Lemma collect_unique_firsts kps : forall (uz : list (list Z * Z)) w h,
  NoDup uz.*1 ->
  exists uz' w',
    foldM collect_item (leaf_paths kps)
          (map (fun pv : list Z * Z => (pv.1, VLeaf pv.2)) uz, w) h =
      Ret (map (fun pv : list Z * Z => (pv.1, VLeaf pv.2)) uz', w ++ w') h /\
    NoDup uz'.*1 /\
    (forall p, first_value uz' p =
               match first_value uz p with
               | Some z => Some z
               | None => first_value kps p
               end) /\
    length w' + length uz' = length uz + length kps /\
    Forall2 (fun x p => exists z,
               first_value uz' p = Some z /\
               x = WarnSeveralInstances (PyTuple p) (VLeaf z))
            w' (later_instances uz.*1 kps.*1).
Proof.
  induction kps as [|[p z] kps IH]; intros uz w h Hnd.
  - exists uz, []. rewrite app_nil_r. split; [done|]. split; [done|].
    split; [|split; [simpl; lia | constructor]].
    intros p. by destruct (first_value uz p).
  - cbn [leaf_paths map foldM fst snd].
    rewrite collect_item_tuple, paths_get_leaves.
    rewrite fmap_cons. cbn [later_instances fst].
    destruct (first_value uz p) as [z0|] eqn:Hf; cbn [fmap option_fmap option_map].
    + unfold bind, ret.
      destruct (IH uz (w ++ [WarnSeveralInstances (PyTuple p) (VLeaf z0)]) h Hnd)
        as (uz' & w' & Hrun & Hnd' & Hfirst & Hlen & Hw).
      exists uz', (WarnSeveralInstances (PyTuple p) (VLeaf z0) :: w').
      split; [|split; [done|split; [|split]]].
      * unfold leaf_paths in Hrun. rewrite Hrun. by rewrite <- app_assoc.
      * intros q. rewrite Hfirst. simpl.
        destruct (first_value uz q) eqn:Hq; [done|].
        case_bool_decide; [congruence | done].
      * simpl. lia.
      * rewrite bool_decide_eq_true_2
          by (apply first_value_in; by eexists).
        constructor; [|done]. exists z0. split; [|done].
        by rewrite Hfirst, Hf.
    + unfold bind, ret.
      assert (Hp : p ∉ uz.*1) by (by apply first_value_None).
      assert (Hnd1 : NoDup (uz ++ [(p, z)]).*1).
      { rewrite fmap_app. apply NoDup_app. split; [done|].
        split; [|apply NoDup_singleton].
        by intros q Hq ->%list_elem_of_singleton. }
      destruct (IH (uz ++ [(p, z)]) w h Hnd1)
        as (uz' & w' & Hrun & Hnd' & Hfirst & Hlen & Hw).
      exists uz', w'. split; [|split; [done|split; [|split]]].
      * unfold leaf_paths in Hrun. by rewrite map_app in Hrun.
      * intros q. rewrite Hfirst, first_value_app. simpl.
        destruct (first_value uz q) eqn:Hq; [done|].
        by case_bool_decide.
      * rewrite length_app in Hlen. simpl in *. lia.
      * rewrite bool_decide_eq_false_2 by done.
        by rewrite fmap_app in Hw.
Qed.

Lemma add_leaves_fold items : forall h r t fp w L,
  own h (VDict r) t fp ->
  NoDup items.*1 ->
  (forall p, p ∈ items.*1 -> p <> []) ->
  (forall p q, p ∈ items.*1 -> q ∈ items.*1 -> p `prefix_of` q -> p = q) ->
  (forall q z, tree_walk t q = Some (Leaf z) ->
     forall p, p ∈ items.*1 -> ~ q `prefix_of` p /\ ~ p `prefix_of` q) ->
  (forall x, x ∈ fp -> L <= x) ->
  L <= length h ->
  exists h' t' fp',
    foldM (add_from (VDict r) PyTuple)
          (map (fun pv : list Z * Z => (pv.1, VLeaf pv.2)) items) w h =
      Ret w h' /\
    own h' (VDict r) t' fp' /\
    (forall q z, tree_walk t' q = Some (Leaf z) <->
                 tree_walk t q = Some (Leaf z) \/
                 first_value items q = Some z) /\
    (forall x, x ∈ fp' -> L <= x) /\
    (forall x, x < L -> h' !! x = h !! x) /\
    length h <= length h'.
Proof.
  induction items as [|[p z] items IH];
    intros h r t fp w L Hown Hnd Hne Hpf Hleaves Hfp HL.
  - exists h, t, fp. split; [done|]. split; [done|].
    split; [|done]. intros q z. simpl. split; [by left | by intros [?|?]].
  - rewrite fmap_cons in Hnd. apply NoDup_cons in Hnd as [Hp Hnd].
    destruct (own_dict_items _ _ _ _ Hown) as (o & es & fp0 & -> & _).
    assert (Hpne : p <> []) by (apply Hne; set_solver).
    assert (Hfree : forall pre suf z', p = pre ++ suf -> suf <> [] ->
                      tree_walk (Branch es) pre <> Some (Leaf z')).
    { intros pre suf z' -> Hsuf Hleaf.
      destruct (Hleaves pre z' Hleaf (pre ++ suf)) as [Hn _]; [set_solver|].
      apply Hn. by exists suf. }
    destruct (add_step_own p h r (Branch es) fp z (PyTuple p) Hown Hpne Hfree)
      as (h1 & fp1 & Hrun & Hown1 & Hb & Hl).
    pose proof (add_step_touches p h (VDict r) (Branch es) fp (VLeaf z)
                  (PyTuple p) Hown) as Ht.
    rewrite Hrun in Ht. destruct Ht as [Hsame _].
    destruct (IH h1 r (tree_add p (Leaf z) (Branch es)) fp1 w L Hown1 Hnd)
      as (h' & t' & fp' & Hrun' & Hown' & Hleaves' & Hfp' & Hold & Hl').
    { intros q Hq. apply Hne. set_solver. }
    { intros q1 q2 H1 H2. apply Hpf; set_solver. }
    { intros q z' Hq p' Hp'.
      apply (tree_add_leaves p z es q z' Hpne Hfree) in Hq
        as [[-> ->]|(Hq & _ & _)].
      - split; intros Hpre.
        + apply Hp. rewrite (Hpf p p'); [done|set_solver|set_solver|done].
        + apply Hp. rewrite <- (Hpf p' p); [done|set_solver|set_solver|done].
      - apply (Hleaves q z' Hq). set_solver. }
    { intros x Hx. destruct (Hb x Hx) as [?|?]; [by apply Hfp | lia]. }
    { lia. }
    exists h', t', fp'. split; [|split; [done|split; [|split; [done|split]]]].
    + assert (Hfrom : add_from (VDict r) PyTuple w (p, VLeaf z) h = Ret w h1).
      { unfold add_from. cbn [fst snd]. mrun Hrun. unfold ret.
        by rewrite app_nil_r. }
      cbn [map foldM fst snd]. by mrun Hfrom.
    + intros q z'. rewrite Hleaves'. simpl. split.
      * intros [Hq|Hq].
        -- apply (tree_add_leaves p z es q z' Hpne Hfree) in Hq
             as [[-> ->]|(Hq & _ & _)]; [|by left].
           right. by rewrite bool_decide_eq_true_2.
        -- right. case_bool_decide as Hpq; [|done]. subst q.
           exfalso. apply Hp. apply first_value_in. by eexists.
      * intros [Hq|Hq].
        -- left. destruct (Hleaves q z' Hq p) as [H1 H2]; [set_solver|].
           by rewrite tree_walk_add_other.
        -- case_bool_decide as Hpq; [|by right].
           injection Hq as <-. subst q. left.
           by apply tree_walk_add_path.
    + intros x Hx. rewrite (Hold x Hx). apply Hsame; [lia|].
      intros Hin. apply Hfp in Hin. lia.
    + lia.
Qed.

(** X15: given key paths as non-empty tuples with leaves, none of which is
    a proper prefix of another, [recursive_build] returns a new nested
    dictionary in which a key path leads to a leaf exactly when the key
    path was given, the leaf being the one of its first instance; the
    store it started from is left as it was; the warnings are, in the
    order of the key paths given, one for each instance of a key path
    after its first, naming that key path and the value of its first
    instance. *)
Theorem recursive_build_first_instance kps h :
  (forall p, p ∈ kps.*1 -> p <> []) ->
  (forall p q, p ∈ kps.*1 -> q ∈ kps.*1 -> p `prefix_of` q -> p = q) ->
  exists d w h' t fp,
    recursive_build (leaf_paths kps) h = Ret (d, w) h' /\
    h `prefix_of` h' /\
    own h' d t fp /\
    (forall p z, walk h' d p = Some (VLeaf z) <-> first_value kps p = Some z) /\
    Forall2 (fun x p => exists z,
               first_value kps p = Some z /\
               x = WarnSeveralInstances (PyTuple p) (VLeaf z))
            w (later_instances [] kps.*1) /\
    exists paths,
      NoDup paths /\ (forall p, p ∈ paths <-> p ∈ kps.*1) /\
      length w + length paths = length kps.
Proof.
  intros Hne Hpf.
  set (r := length h). set (h0 := h ++ [[]]).
  assert (Hr : h0 !! r = Some []) by apply lookup_alloc_fresh.
  destruct (collect_unique_firsts kps [] [] h0 (NoDup_nil_2))
    as (uz & w & Hcollect & Hnd & Hfirst & Hlen & Hw).
  simpl in Hfirst, Hlen, Hcollect.
  assert (Hin : forall p, p ∈ uz.*1 <-> p ∈ kps.*1).
  { intros p. rewrite !first_value_in. by rewrite Hfirst. }
  destruct (add_leaves_fold uz h0 r (Branch []) ({[r]} ∪ ∅) w (length h))
    as (h' & t' & fp' & Hadd & Hown' & Hleaves & Hfp' & Hold & Hl');
    [by apply own_empty_dict | done | | | | | |].
  { intros p Hp. apply Hne. by apply Hin. }
  { intros p q Hp Hq. apply Hpf; by apply Hin. }
  { intros q z Hq. by destruct q. }
  { intros x Hx. assert (x = r) as -> by set_solver. unfold r. lia. }
  { unfold h0. rewrite length_app. simpl. lia. }
  exists (VDict r), w, h', t', fp'. split; [|split; [|split; [|split; [|split]]]].
  - unfold recursive_build, collect_unique.
    unfold bind at 1, alloc at 1. fold r. fold h0.
    unfold leaf_paths in Hcollect. unfold leaf_paths. mrun Hcollect.
    cbv beta iota. unfold bind at 1.
    rewrite (add_all_from (VDict r) PyTuple (fun p => eq_refl)
               (map (fun pv : list Z * Z => (pv.1, VLeaf pv.2)) uz) w h0).
    by rewrite Hadd.
  - apply prefix_of_lookup. intros x Hx. rewrite (Hold x Hx).
    unfold h0. by apply lookup_app_l.
  - done.
  - intros p z. rewrite (walk_leaf_iff _ _ _ _ _ _ Hown'), Hleaves, Hfirst.
    split; [|by right]. intros [Hq|Hq]; [by destruct p | done].
  - eapply Forall2_impl; [exact Hw|].
    intros x p (z & Hz & ->). exists z. split; [|done].
    by rewrite <- Hfirst.
  - exists uz.*1. split; [done|]. split; [done|].
    rewrite length_fmap. lia.
Qed.

Lemma recursive_build_first_instance_example :
  exists d w h' t fp,
    recursive_build (leaf_paths [([1; 2], 3); ([4], 5); ([4], 6)]%Z) [] =
      Ret (d, w) h' /\
    [] `prefix_of` h' /\
    own h' d t fp /\
    (forall p z, walk h' d p = Some (VLeaf z) <->
                 first_value [([1; 2], 3); ([4], 5); ([4], 6)]%Z p = Some z) /\
    Forall2 (fun x p => exists z,
               first_value [([1; 2], 3); ([4], 5); ([4], 6)]%Z p = Some z /\
               x = WarnSeveralInstances (PyTuple p) (VLeaf z))
            w (later_instances [] ([([1; 2], 3); ([4], 5); ([4], 6)]%Z).*1) /\
    exists paths,
      NoDup paths /\
      (forall p, p ∈ paths <-> p ∈ ([([1; 2], 3); ([4], 5); ([4], 6)]%Z).*1) /\
      length w + length paths = length [([1; 2], 3); ([4], 5); ([4], 6)]%Z.
Proof.
  apply (recursive_build_first_instance [([1; 2], 3); ([4], 5); ([4], 6)]%Z []).
  - intros p Hp ->. simpl in Hp.
    repeat (apply elem_of_cons in Hp as [Hp|Hp]; [discriminate|]).
    by apply elem_of_nil in Hp.
  - intros p q Hp Hq Hpre. simpl in Hp, Hq.
    rewrite !elem_of_cons, elem_of_nil in Hp, Hq.
    destruct Hp as [->|[->|[->|[]]]]; destruct Hq as [->|[->|[->|[]]]];
      try reflexivity; destruct Hpre as [s Hs]; discriminate.
Defined.

(** ** [recursive_replace] changes one entry and leaves the rest *)

(** Writing to the dictionary at the end of a key path an object that
    differs from the one that was there at the key [k] only. *)
Lemma walk_after_store h d t fp pre b o o' k :
  own h d t fp ->
  walk h d pre = Some (VDict b) ->
  h !! b = Some o ->
  (forall k2, k2 <> k -> dict_get o' k2 = dict_get o k2) ->
  forall q, ~ (pre ++ [k]) `prefix_of` q ->
            walk (<[b:=o']> h) d q = walk h d q.
Proof.
  intros Hown Hwalk Hb Hother q Hnp.
  assert (Hlt : b < length h) by (by eapply lookup_lt_Some).
  assert (Hb' : <[b:=o']> h !! b = Some o') by (by apply lookup_store_eq).
  assert (Hwalk' : walk (<[b:=o']> h) d pre = Some (VDict b))
    by (by eapply walk_store_own).
  destruct (walk_own _ _ _ _ _ _ Hown Hwalk) as (tb & fpb & Hownb & _).
  destruct (own_dict_items _ _ _ _ Hownb)
    as (o0 & es & fp0 & -> & -> & Hb0 & Hnd & Hitems & Hni).
  rewrite Hb in Hb0. injection Hb0 as <-.
  destruct (decide (pre `prefix_of` q)) as [[r ->]|Hpre];
    [|by eapply walk_off_path].
  rewrite !walk_app, Hwalk, Hwalk'. destruct r as [|k2 r]; [done|].
  assert (Hk : k2 <> k).
  { intros ->. apply Hnp. exists r. by rewrite <- app_assoc. }
  simpl. rewrite Hb, Hb', (Hother k2 Hk).
  destruct (dict_get o k2) as [v2|] eqn:Hg2; [|done].
  destruct (own_items_dict_get _ _ _ _ _ _ Hitems Hg2)
    as (t2 & fp2 & Hv2 & Hs2 & _).
  apply (walk_frame _ _ _ _ _ _ Hv2).
  intros x Hx. apply lookup_store_ne. set_solver.
Qed.

(** X16: when the key path leads to a value, [recursive_replace] in place
    changes that entry and nothing else: afterwards the key path leads to
    the new value, and every key path that does not start with it leads
    where it led before. *)
Theorem recursive_replace_lookup h d t fp fuel pre k path b o v value :
  own h d t fp ->
  path_keys path = pre ++ [k] ->
  walk h d pre = Some (VDict b) ->
  h !! b = Some o ->
  dict_get o k = Some v ->
  exists h',
    recursive_replace fuel d (path, value) true h = Ret None h' /\
    walk h' d (pre ++ [k]) = Some value /\
    (forall q, ~ (pre ++ [k]) `prefix_of` q -> walk h' d q = walk h d q).
Proof.
  intros Hown Hpath Hwalk Hb Hg.
  assert (Hlt : b < length h) by (by eapply lookup_lt_Some).
  exists (<[b:=dict_set o k value]> h). split; [|split].
  - by eapply replace_last.
  - rewrite (walk_snoc _ _ _ b (dict_set o k value) k).
    + apply dict_set_get.
    + by eapply walk_store_own.
    + by apply lookup_store_eq.
  - apply (walk_after_store h d t fp pre b o _ k Hown Hwalk Hb).
    intros k2 Hk2. by apply dict_set_get.
Qed.

Lemma recursive_replace_lookup_example :
  exists h',
    recursive_replace 3 d_example (PyTuple [6; 3]%Z, VLeaf 0) true h_example =
      Ret None h' /\
    walk h' d_example ([6%Z] ++ [3%Z]) = Some (VLeaf 0) /\
    (forall q, ~ ([6%Z] ++ [3%Z]) `prefix_of` q ->
               walk h' d_example q = walk h_example d_example q).
Proof.
  apply (recursive_replace_lookup h_example d_example T_example fp_example 3
           [6%Z] 3%Z (PyTuple [6; 3]%Z) 2
           [(3%Z, VDict 1); (7%Z, VLeaf 10)] (VDict 1) (VLeaf 0)).
  - apply own_example.
  - reflexivity.
  - reflexivity.
  - reflexivity.
  - reflexivity.
Defined.
